(** * Single-node profiles and pipeline estimation (optimizer/profiler.py)

    A shallow embedding of [LogicalDAG], [NodeConfig], [NodeProfile],
    [get_logical_pipeline], [get_node_scale_factors],
    [estimate_pipeline_performance_for_config] and
    [is_valid_pipeline_config], with the properties of pruning,
    interpolation, batch-size stepping, path enumeration and pipeline
    aggregation.

    Modelling conventions.
    - The numeric columns of a profile (batch size, throughput, latency,
      cost) are floats in the source.  They are modelled as exact
      rationals [Qc]: comparisons are total (there is no NaN) and
      arithmetic does not round.  The one value that leaves the rationals
      is the quotient of a throughput by a scale factor of zero, which
      numpy gives as inf, -inf or nan: it is a [np_float].
    - A pandas DataFrame is a list of rows in frame order.  Index labels are
      assumed unique, so a label is identified with the position of its row
      in the frame it is used on.  The order that sorting gives to rows of
      equal batch size is not fixed by pandas; see [sort_values].
    - A Python dict that is only read by key is a [gmap].
    - An exception is a value of [exception]; a function that may raise
      returns an [outcome], and one that may also print returns an [io].
    - The recursion of [enumerate_paths] is bounded by a recursion limit, as
      it is in the interpreter.
    The plotting helpers and [get_node_configs_from_experiment], which calls
    into another module, are not part of the embedding. *)

From Stdlib Require Import QArith Qcanon Qround.
From stdpp Require Import base numbers list sorting gmap strings pretty
  relations.

Local Open Scope Qc_scope.

(** ** Exceptions *)

Inductive exception :=
  | NoProfiles          (* raise Exception("No profiles for node ...") *)
  | AssertionError
  | KeyError (key : string)
  | ValueError
  | IndexError
  | ZeroDivisionError
  | RecursionError
  | StopIteration.

Inductive outcome (A : Type) :=
  | Return (a : A)
  | Raise (e : exception).
Arguments Return {A} a.
Arguments Raise {A} e.

Global Instance outcome_ret : MRet outcome := λ A a, Return a.
Global Instance outcome_bind : MBind outcome := λ A B k m,
  match m with
  | Return a => k a
  | Raise e => Raise e
  end.

Global Instance outcome_fmap : FMap outcome := λ A B f m,
  match m with
  | Return a => Return (f a)
  | Raise e => Raise e
  end.

Global Instance exception_eq_dec : EqDecision exception.
Proof. solve_decision. Defined.
Global Instance outcome_eq_dec `{EqDecision A} : EqDecision (outcome A).
Proof. solve_decision. Defined.

(** ** Data model *)

(** One row of a profile DataFrame.  [throughput] is the column selected by
    [NodeProfile.throughput_field]. *)
Module Entry.
Record t := mk {
  gpu_type : string;
  num_cpus_per_replica : Z;
  cloud : string;
  mean_batch_size : Qc;
  throughput : Qc;
  p99_latency : Qc;
  cost : Qc
}.
End Entry.

Module NodeConfig.
Record t := mk {
  name : string;
  num_cpus : Z;
  gpu_type : string;
  batch_size : Qc;
  num_replicas : Z;
  cloud : string
}.
End NodeConfig.

Global Instance Entry_eq_dec : EqDecision Entry.t.
Proof. solve_decision. Defined.
Global Instance NodeConfig_eq_dec : EqDecision NodeConfig.t.
Proof. solve_decision. Defined.

Abbreviation DataFrame := (list Entry.t).

(** ** NodeProfile.prune_profile *)

(** The mask of one iteration of the loop: a row [p] of [pruned] stays, with
    respect to the row [row] of the original frame, when
    [(pruned[thru] >= row[thru]) | (pruned.cost <= row.cost)
     | (pruned.p99_latency <= row.p99_latency)]. *)
Definition keep_mask (row p : Entry.t) : Prop :=
  Entry.throughput row ≤ Entry.throughput p
  ∨ Entry.cost p ≤ Entry.cost row
  ∨ Entry.p99_latency p ≤ Entry.p99_latency row.

Global Instance keep_mask_dec row p : Decision (keep_mask row p).
Proof. unfold keep_mask. apply _. Defined.

(** [pruned] starts as a copy of the frame; the loop runs over the rows of
    the original frame and filters the copy. *)
Definition prune_profile (profile : DataFrame) : DataFrame :=
  foldl (λ pruned row, filter (keep_mask row) pruned) profile profile.

(** [j] beats [i] strictly on all three columns. *)
Definition strictly_dominates (j i : Entry.t) : Prop :=
  Entry.throughput i < Entry.throughput j
  ∧ Entry.cost j < Entry.cost i
  ∧ Entry.p99_latency j < Entry.p99_latency i.

(** ** Printed output

    [estimate_performance] prints to standard output.  A computation that
    may print and may raise is a pair of the lines printed so far and the
    outcome. *)

Inductive message :=
  | WarningNoHigherBatchSize (config : NodeConfig.t)
    (* "Warning: No profiles found with higher batch size than {config}" *)
  | NonMonotonicProfile (name : string) (bundle : string * string * Z).
    (* "Profile for node {name} bundle {bundle} is non-monotonic" *)

Definition io (A : Type) : Type := list message * outcome A.

Definition print (m : message) : io unit := ([m], Return ()).
Definition raise {A} (e : exception) : io A := ([], Raise e).
Definition assert (P : Prop) `{Decision P} : io unit :=
  if decide P then ([], Return ()) else raise AssertionError.

Global Instance io_ret : MRet io := λ A a, ([], Return a).
Global Instance io_bind : MBind io := λ A B k m,
  match m with
  | (out, Return a) => let '(out', r) := k a in (out ++ out', r)
  | (out, Raise e) => (out, Raise e)
  end.

Global Instance io_fmap : FMap io := λ A B f m,
  match m with
  | (out, Return a) => (out, Return (f a))
  | (out, Raise e) => (out, Raise e)
  end.

Definition printed {A} (m : io A) : list message := m.1.
Definition result {A} (m : io A) : outcome A := m.2.

Global Instance message_eq_dec : EqDecision message.
Proof. solve_decision. Defined.
Global Instance io_eq_dec `{EqDecision A} : EqDecision (io A).
Proof. unfold io. apply _. Defined.

(** ** pandas and numpy operations used by NodeProfile *)

(** [profile[(profile.gpu_type == config.gpu_type)
            & (profile.num_cpus_per_replica == config.num_cpus)
            & (profile.cloud == config.cloud)]] *)
Definition bundle_mask (config : NodeConfig.t) (r : Entry.t) : Prop :=
  Entry.gpu_type r = NodeConfig.gpu_type config
  ∧ Entry.num_cpus_per_replica r = NodeConfig.num_cpus config
  ∧ Entry.cloud r = NodeConfig.cloud config.

Global Instance bundle_mask_dec config r : Decision (bundle_mask config r).
Proof. unfold bundle_mask. apply _. Defined.

Definition batch_le (r1 r2 : Entry.t) : Prop :=
  Entry.mean_batch_size r1 ≤ Entry.mean_batch_size r2.

Global Instance batch_le_dec : RelDecision batch_le.
Proof. intros r1 r2. unfold batch_le. apply _. Defined.

(** [df['mean_batch_size'] <= x] and [df['mean_batch_size'] >= x]. *)
Definition batch_size_le (x : Qc) (r : Entry.t) : Prop :=
  Entry.mean_batch_size r ≤ x.
Definition batch_size_ge (x : Qc) (r : Entry.t) : Prop :=
  x ≤ Entry.mean_batch_size r.

Global Instance batch_size_le_dec x r : Decision (batch_size_le x r).
Proof. unfold batch_size_le. apply _. Defined.
Global Instance batch_size_ge_dec x r : Decision (batch_size_ge x r).
Proof. unfold batch_size_ge. apply _. Defined.

(** [df.sort_values("mean_batch_size")].  The result is a sorted
    permutation of the frame.  pandas sorts with an unstable algorithm, so
    the order it gives to rows of equal batch size is not the one of
    [merge_sort]: the model is the code where the batch sizes of the frame
    are pairwise distinct (the sorted frame is then unique, see
    [sort_values_unique]), and a property of a frame with equal batch sizes
    is stated only where it holds for every order of those rows. *)
Definition sort_values (df : DataFrame) : DataFrame := merge_sort batch_le df.

(** [sum(mask)] for a boolean column. *)
Definition sum_mask (mask : Entry.t → Prop) `{!∀ r, Decision (mask r)}
    (df : DataFrame) : nat :=
  length (filter mask df).

(** [df.loc[df.index[mask], 'mean_batch_size']]: the batch sizes of the rows
    selected by the mask, each with its label.  [k] is the label of the
    first row of [df]. *)
Fixpoint loc_mean_batch_size (mask : Entry.t → Prop)
    `{!∀ r, Decision (mask r)} (k : nat) (df : DataFrame) : list (nat * Qc) :=
  match df with
  | [] => []
  | r :: df =>
      if decide (mask r)
      then (k, Entry.mean_batch_size r) :: loc_mean_batch_size mask (S k) df
      else loc_mean_batch_size mask (S k) df
  end.

(** [Series.idxmax()]: the label of the first occurrence of the maximum. *)
Fixpoint idxmax_from (best : nat * Qc) (s : list (nat * Qc)) : nat :=
  match s with
  | [] => best.1
  | (i, v) :: s =>
      if decide (best.2 < v) then idxmax_from (i, v) s else idxmax_from best s
  end.
Definition idxmax (s : list (nat * Qc)) : io nat :=
  match s with
  | [] => raise ValueError
  | b :: s => mret (idxmax_from b s)
  end.

(** [Series.idxmin()]: the label of the first occurrence of the minimum. *)
Fixpoint idxmin_from (best : nat * Qc) (s : list (nat * Qc)) : nat :=
  match s with
  | [] => best.1
  | (i, v) :: s =>
      if decide (v < best.2) then idxmin_from (i, v) s else idxmin_from best s
  end.
Definition idxmin (s : list (nat * Qc)) : io nat :=
  match s with
  | [] => raise ValueError
  | b :: s => mret (idxmin_from b s)
  end.

(** [df.loc[idx]] for a single label. *)
Definition loc (df : DataFrame) (idx : nat) : io Entry.t :=
  match df !! idx with
  | Some r => mret r
  | None => raise (KeyError (pretty idx))
  end.

(** [df.loc[a:b]]: the rows from label [a] to label [b], both included. *)
Definition loc_slice (df : DataFrame) (a b : nat) : DataFrame :=
  take (S b - a) (drop a df).

(** [np.diff]. *)
Definition np_diff (l : list Qc) : list Qc :=
  zip_with (λ a b, b - a) l (tail l).

(** [np.all(d > 0)]. *)
Definition all_positive (d : list Qc) : Prop := Forall (λ v, 0 < v) d.

(** [np.interp(x, xp, fp)] for increasing sample points [xp]: to the left of
    the first point the first value, at or after the last point the last
    value, otherwise with [j] the last index such that [xp[j] <= x] the value
    [fp[j]] when [xp[j] = x] and
    [(fp[j+1] - fp[j]) / (xp[j+1] - xp[j]) * (x - xp[j]) + fp[j]] otherwise. *)
Fixpoint interp_scan (x x0 y0 : Qc) (rest : list (Qc * Qc)) : Qc :=
  match rest with
  | [] => y0
  | (x1, y1) :: rest =>
      if decide (x < x1) then
        if decide (x0 = x) then y0
        else (y1 - y0) / (x1 - x0) * (x - x0) + y0
      else interp_scan x x1 y1 rest
  end.
Definition np_interp (x : Qc) (xp fp : list Qc) : io Qc :=
  match zip xp fp with
  | [] => raise ValueError
  | (x0, y0) :: rest =>
      mret (if decide (x < x0) then y0 else interp_scan x x0 y0 rest)
  end.

(** [Series.iloc[0]]. *)
Definition iloc0 (l : list Qc) : io Qc :=
  match l with
  | [] => raise IndexError
  | v :: _ => mret v
  end.

(** ** NodeProfile *)

Record NodeProfile := {
  name : string;
  throughput_stage : string;
  profile : DataFrame
}.

(** [NodeProfile.__init__]: the frame is pruned at construction. *)
Definition NodeProfile_init (name : string) (profile : DataFrame)
    (throughput_stage : string) : NodeProfile :=
  {| name := name; throughput_stage := throughput_stage;
     profile := prune_profile profile |}.

Definition resource_bundle_matches (self : NodeProfile)
    (config : NodeConfig.t) : DataFrame :=
  sort_values (filter (bundle_mask config) (profile self)).

(** [copy.deepcopy(config)] followed by the assignment of [batch_size]. *)
Definition with_batch_size (config : NodeConfig.t) (b : Qc) : NodeConfig.t :=
  {| NodeConfig.name := NodeConfig.name config;
     NodeConfig.num_cpus := NodeConfig.num_cpus config;
     NodeConfig.gpu_type := NodeConfig.gpu_type config;
     NodeConfig.batch_size := b;
     NodeConfig.num_replicas := NodeConfig.num_replicas config;
     NodeConfig.cloud := NodeConfig.cloud config |}.

(** [math.floor]. *)
Definition floor (x : Qc) : Z := Qfloor x.

(** [NodeProfile.increase_batch_size]; [None] is the source's [False]. *)
Definition increase_batch_size (self : NodeProfile) (config : NodeConfig.t)
    : io (option NodeConfig.t) :=
  let resource_bundle_matches := resource_bundle_matches self config in
  let lub :=
    batch_size_ge (Qc_of_Z (floor (NodeConfig.batch_size config) + 1)) in
  if decide (sum_mask lub resource_bundle_matches = 0%nat) then mret None
  else
    idx_lub ← idxmin (loc_mean_batch_size lub 0 resource_bundle_matches);
    relevant_entry ← loc resource_bundle_matches idx_lub;
    mret (Some (with_batch_size config (Entry.mean_batch_size relevant_entry))).

(** The rows handed to [np.interp]. *)
Definition relevant_entries (matches : DataFrame) (idx_glb idx_lub : nat)
    : DataFrame :=
  loc_slice matches idx_glb idx_lub.

(** [NodeProfile.estimate_performance]: (p99 latency, throughput, cost). *)
Definition estimate_performance (self : NodeProfile) (config : NodeConfig.t)
    : io (Qc * Qc * Qc) :=
  let resource_bundle_matches := resource_bundle_matches self config in
  let num_replicas := Qc_of_Z (NodeConfig.num_replicas config) in
  if decide (length resource_bundle_matches = 0%nat) then raise NoProfiles
  else
    let glb := batch_size_le (NodeConfig.batch_size config) in
    let lub := batch_size_ge (NodeConfig.batch_size config) in
    idx_glb ←
      (if decide (0 < sum_mask glb resource_bundle_matches)%nat
       then Some <$> idxmax (loc_mean_batch_size glb 0 resource_bundle_matches)
       else mret None);
    idx_lub ←
      (if decide (0 < sum_mask lub resource_bundle_matches)%nat
       then Some <$> idxmin (loc_mean_batch_size lub 0 resource_bundle_matches)
       else mret None);
    match idx_glb, idx_lub with
    | Some idx_glb, Some idx_lub =>
        let relevant_entries :=
          relevant_entries resource_bundle_matches idx_glb idx_lub in
        let batch_sizes := Entry.mean_batch_size <$> relevant_entries in
        let throughputs := Entry.throughput <$> relevant_entries in
        let latencies := Entry.p99_latency <$> relevant_entries in
        assert (all_positive (np_diff throughputs));;
        estimated_thruput ←
          np_interp (NodeConfig.batch_size config) batch_sizes throughputs;
        let estimated_thruput := estimated_thruput * num_replicas in
        assert (all_positive (np_diff latencies));;
        estimated_latency ←
          np_interp (NodeConfig.batch_size config) batch_sizes latencies;
        cost0 ← iloc0 (Entry.cost <$> relevant_entries);
        let cost := cost0 * num_replicas in
        mret (estimated_latency, estimated_thruput, cost)
    | None, Some idx_lub =>
        relevant_entry ← loc resource_bundle_matches idx_lub;
        mret (Entry.p99_latency relevant_entry,
              Entry.throughput relevant_entry * num_replicas,
              Entry.cost relevant_entry * num_replicas)
    | Some idx_glb, None =>
        print (WarningNoHigherBatchSize config);;
        relevant_entry ← loc resource_bundle_matches idx_glb;
        mret (Entry.p99_latency relevant_entry,
              Entry.throughput relevant_entry * num_replicas,
              Entry.cost relevant_entry * num_replicas)
    | None, None => raise AssertionError
    end.

(** ** LogicalDAG *)

Definition SOURCE : string := "SOURCE".
Definition SINK : string := "SINK".

Record LogicalDAG := {
  adj_list : gmap string (list string);
  reference_node : string
}.

(** [d[k]] for a dict. *)
Definition getitem {V} (d : gmap string V) (k : string) : outcome V :=
  match d !! k with
  | Some v => Return v
  | None => Raise (KeyError k)
  end.

(** [LogicalDAG.__init__]; the networkx copy of the graph is not used by
    the estimator and is left out. *)
Definition LogicalDAG_init (adj_list : gmap string (list string))
    (reference_node : string) : outcome LogicalDAG :=
  from_source ← getitem adj_list SOURCE;
  if decide (0 < length from_source)%nat then
    from_sink ← getitem adj_list SINK;
    if decide (length from_sink = 0%nat)
    then Return {| adj_list := adj_list; reference_node := reference_node |}
    else Raise AssertionError
  else Raise AssertionError.

(** A [for] loop whose body appends to the shared list [paths]: the paths
    appended by the iterations, in order. *)
Fixpoint for_each {A B} (body : A → outcome (list B)) (l : list A)
    : outcome (list B) :=
  match l with
  | [] => Return []
  | a :: l => bs ← body a; bs' ← for_each body l; Return (bs ++ bs')
  end.

(** The inner function [search] of [enumerate_paths], returning the paths
    it appends to [paths].  [limit] is the depth of recursion still
    available (the interpreter's recursion limit). *)
Fixpoint search (limit : nat) (adj_list : gmap string (list string))
    (current_path : list string) (node : string)
    : outcome (list (list string)) :=
  match limit with
  | O => Raise RecursionError
  | S limit =>
      let current_path := current_path ++ [node] in
      if decide (node = SINK) then Return [current_path]
      else
        children ← getitem adj_list node;
        for_each (λ next_node, search limit adj_list current_path next_node)
                 children
  end.

(** [LogicalDAG.enumerate_paths]. *)
Definition enumerate_paths (limit : nat) (self : LogicalDAG)
    : outcome (list (list string)) :=
  paths ← search limit (adj_list self) [] SOURCE;
  if decide (1 ≤ length paths)%nat then Return paths
  else Raise AssertionError.

(** The adjacency lists of [get_logical_pipeline]. *)
Definition pipeline_one_adj_list : gmap string (list string) :=
  list_to_map
    [(SOURCE, ["tf-resnet-feats"; "inception"]);
     ("tf-resnet-feats", ["tf-kernel-svm"]);
     ("tf-kernel-svm", [SINK]);
     ("inception", ["tf-log-reg"]);
     ("tf-log-reg", [SINK]);
     (SINK, [])].
Definition pipeline_two_adj_list : gmap string (list string) :=
  list_to_map
    [(SOURCE, ["tf-lang-detect"]);
     ("tf-lang-detect", ["tf-lstm"; "tf-nmt"; SINK]);
     ("tf-nmt", ["tf-lstm"]);
     ("tf-lstm", [SINK]);
     (SINK, [])].
Definition pipeline_three_adj_list : gmap string (list string) :=
  list_to_map
    [(SOURCE, ["alexnet"]);
     ("alexnet", ["res50"; SINK]);
     ("res50", ["res152"; SINK]);
     ("res152", [SINK]);
     (SINK, [])].

(** [get_logical_pipeline]; [None] for a name the source does not know. *)
Definition get_logical_pipeline (pipeline_name : string)
    : outcome (option LogicalDAG) :=
  if decide (pipeline_name = "pipeline_one") then
    Some <$> LogicalDAG_init pipeline_one_adj_list "inception"
  else if decide (pipeline_name = "pipeline_two") then
    Some <$> LogicalDAG_init pipeline_two_adj_list "tf-lang-detect"
  else if decide (pipeline_name = "pipeline_three") then
    Some <$> LogicalDAG_init pipeline_three_adj_list "alexnet"
  else Return None.

Global Instance LogicalDAG_eq_dec : EqDecision LogicalDAG.
Proof. solve_decision. Defined.

(** ** estimate_pipeline_performance_for_config *)

(** The throughput that [estimate_performance] returns is a numpy float,
    and so is its quotient by a scale factor: a rational or, after a
    division by zero, one of inf, -inf and nan. *)
Inductive np_float :=
  | Finite (q : Qc)
  | PosInf
  | NegInf
  | NaN.

Global Instance np_float_eq_dec : EqDecision np_float.
Proof. solve_decision. Defined.

(** The returned dict. *)
Module Estimate.
Record t := mk {
  latency : option Qc;
  throughput : option np_float;
  cost : Qc
}.
End Estimate.

Definition lift {A} (m : outcome A) : io A := ([], m).

(** [a / b] for a numpy float [a] and a float [b].  On a zero divisor numpy
    does not raise: it gives inf, -inf or nan by the sign of [a], with a
    RuntimeWarning that goes through the warnings module and not to
    standard output. *)
Definition divide (a b : Qc) : np_float :=
  if decide (b = 0) then
    if decide (0 < a) then PosInf
    else if decide (a < 0) then NegInf
    else NaN
  else Finite (a / b).

(** [a > b] on numpy floats; a comparison with nan is false. *)
Definition np_gt (a b : np_float) : Prop :=
  match a, b with
  | Finite x, Finite y => y < x
  | PosInf, Finite _ | PosInf, NegInf | Finite _, NegInf => True
  | _, _ => False
  end.

Global Instance np_gt_dec a b : Decision (np_gt a b).
Proof. destruct a, b; simpl; apply _. Defined.

(** [max(a, b)]. *)
Definition py_max (a b : Qc) : Qc := if decide (a < b) then b else a.

(** The variables of the two nested loops. *)
Record loop_state := {
  bottleneck_thruput : option np_float;
  bottleneck_node : option string;
  total_cost : Qc;
  max_latency : option Qc
}.

(** A [for] loop threading the local variables [s] through its body. *)
Fixpoint for_loop {S A} (body : S → A → io S) (s : S) (l : list A) : io S :=
  match l with
  | [] => mret s
  | a :: l => s' ← body s a; for_loop body s' l
  end.

(** The first statements of the inner loop body, up to [scaled_thru]:
    (lat, scaled_thru, cost) of one stage. *)
Definition estimate_stage (scale_factors : gmap string Qc)
    (node_configs : gmap string NodeConfig.t)
    (single_node_profiles : gmap string NodeProfile)
    (node : string) : io (Qc * np_float * Qc) :=
  prof ← lift (getitem single_node_profiles node);
  conf ← lift (getitem node_configs node);
  '(lat, thru, cost) ← estimate_performance prof conf;
  factor ← lift (getitem scale_factors node);
  let scaled_thru := divide thru factor in
  mret (lat, scaled_thru, cost).

(** The two [if] statements that track the bottleneck. *)
Definition update_bottleneck (st : loop_state) (scaled_thru : np_float)
    (node : string) : option np_float * option string :=
  let '(bottleneck_thruput, bottleneck_node) :=
    match bottleneck_thruput st with
    | None => (Some scaled_thru, Some node)
    | Some _ => (bottleneck_thruput st, bottleneck_node st)
    end in
  match bottleneck_thruput with
  | Some t =>
      if decide (np_gt t scaled_thru) then (Some scaled_thru, Some node)
      else (bottleneck_thruput, bottleneck_node)
  | None => (bottleneck_thruput, bottleneck_node)
  end.

(** The body of [for node in path]. *)
Definition visit_node (scale_factors : gmap string Qc)
    (node_configs : gmap string NodeConfig.t)
    (single_node_profiles : gmap string NodeProfile)
    (s : loop_state * Qc) (node : string) : io (loop_state * Qc) :=
  let '(st, path_latency) := s in
  if decide (node = SOURCE ∨ node = SINK) then mret (st, path_latency)
  else
    '(lat, scaled_thru, cost) ←
      estimate_stage scale_factors node_configs single_node_profiles node;
    let path_latency := path_latency + lat in
    let '(bottleneck_thruput, bottleneck_node) :=
      update_bottleneck st scaled_thru node in
    mret ({| bottleneck_thruput := bottleneck_thruput;
             bottleneck_node := bottleneck_node;
             total_cost := total_cost st + cost;
             max_latency := max_latency st |}, path_latency).

(** The body of [for path in paths]. *)
Definition visit_path (scale_factors : gmap string Qc)
    (node_configs : gmap string NodeConfig.t)
    (single_node_profiles : gmap string NodeProfile)
    (st : loop_state) (path : list string) : io loop_state :=
  '(st, path_latency) ←
    for_loop (visit_node scale_factors node_configs single_node_profiles)
             (st, 0) path;
  let max_latency :=
    match max_latency st with
    | None => path_latency
    | Some max_latency => max_latency
    end in
  mret {| bottleneck_thruput := bottleneck_thruput st;
          bottleneck_node := bottleneck_node st;
          total_cost := total_cost st;
          max_latency := Some (py_max max_latency path_latency) |}.

Definition estimate_pipeline_performance_for_config (limit : nat)
    (dag : LogicalDAG) (scale_factors : gmap string Qc)
    (node_configs : gmap string NodeConfig.t)
    (single_node_profiles : gmap string NodeProfile)
    : io (Estimate.t * option string) :=
  paths ← lift (enumerate_paths limit dag);
  st ← for_loop (visit_path scale_factors node_configs single_node_profiles)
         {| bottleneck_thruput := None; bottleneck_node := None;
            total_cost := 0; max_latency := None |}
         paths;
  mret ({| Estimate.latency := max_latency st;
           Estimate.throughput := bottleneck_thruput st;
           Estimate.cost := total_cost st |}, bottleneck_node st).

(** ** NodeProfile.check_monotonicity *)

(** The key of a group of [groupby(["cloud", "gpu_type",
    "num_cpus_per_replica"])]. *)
Definition bundle_key : Type := string * string * Z.


(** The order of the group keys: tuples compare column by column, strings
    by code point. *)
Definition bundle_key_le (a b : bundle_key) : Prop :=
  match String.compare a.1.1 b.1.1 with
  | Lt => True
  | Gt => False
  | Eq =>
      match String.compare a.1.2 b.1.2 with
      | Lt => True
      | Gt => False
      | Eq => (a.2 ≤ b.2)%Z
      end
  end.

Global Instance bundle_key_le_dec : RelDecision bundle_key_le.
Proof. intros a b. unfold bundle_key_le. repeat case_match; apply _. Defined.





(** ** is_valid_pipeline_config *)

(** [next(it)] on a list iterator: the first element and the rest. *)
Definition next {A} (it : list A) : outcome (A * list A) :=
  match it with
  | [] => Raise StopIteration
  | a :: it => Return (a, it)
  end.

(** The dict is iterated; [map_to_list] lists its items (the result does not
    depend on their order, see [is_valid_clouds_perm]). *)
Definition is_valid_clouds (clouds : list string) : outcome bool :=
  '(first, clouds) ← next clouds;
  Return (forallb (λ rest, bool_decide (first = rest)) clouds).

Definition is_valid_pipeline_config (node_configs : gmap string NodeConfig.t)
    : outcome bool :=
  is_valid_clouds ((λ nc, NodeConfig.cloud nc.2) <$> map_to_list node_configs).

(** ** Specification vocabulary for NodeProfile *)

(** Linear interpolation between [(x0, y0)] and [(x1, y1)] at [x]. *)
Definition lerp (x x0 y0 x1 y1 : Qc) : Qc :=
  y0 + (x - x0) * (y1 - y0) / (x1 - x0).

(** The profiled rows of the resource bundle of [config]. *)
Definition bundle_row (self : NodeProfile) (config : NodeConfig.t)
    (r : Entry.t) : Prop :=
  r ∈ profile self ∧ bundle_mask config r.

(** [g] is the greatest profiled batch size of the bundle that is at most the
    batch size of [config]; [l] the least one that is at least it. *)
Definition is_glb (self : NodeProfile) (config : NodeConfig.t) (g : Qc) : Prop :=
  (∃ r, bundle_row self config r ∧ Entry.mean_batch_size r = g)
  ∧ g ≤ NodeConfig.batch_size config
  ∧ ∀ r, bundle_row self config r →
      Entry.mean_batch_size r ≤ NodeConfig.batch_size config →
      Entry.mean_batch_size r ≤ g.
Definition is_lub (self : NodeProfile) (config : NodeConfig.t) (l : Qc) : Prop :=
  (∃ r, bundle_row self config r ∧ Entry.mean_batch_size r = l)
  ∧ NodeConfig.batch_size config ≤ l
  ∧ ∀ r, bundle_row self config r →
      NodeConfig.batch_size config ≤ Entry.mean_batch_size r →
      l ≤ Entry.mean_batch_size r.

(** The profiled batch sizes of the bundle of [config] are pairwise
    distinct. *)
Definition distinct_batch_sizes (self : NodeProfile) (config : NodeConfig.t)
    : Prop :=
  NoDup (Entry.mean_batch_size <$> filter (bundle_mask config) (profile self)).

Global Instance distinct_batch_sizes_dec self config :
  Decision (distinct_batch_sizes self config).
Proof. unfold distinct_batch_sizes. apply _. Defined.


(** A column strictly increases along the frame. *)
Definition strictly_increasing (l : list Qc) : Prop :=
  ∀ i a c, l !! i = Some a → l !! S i = Some c → a < c.

(** The config with its replica count replaced. *)
Definition with_num_replicas (config : NodeConfig.t) (n : Z) : NodeConfig.t :=
  {| NodeConfig.name := NodeConfig.name config;
     NodeConfig.num_cpus := NodeConfig.num_cpus config;
     NodeConfig.gpu_type := NodeConfig.gpu_type config;
     NodeConfig.batch_size := NodeConfig.batch_size config;
     NodeConfig.num_replicas := n;
     NodeConfig.cloud := NodeConfig.cloud config |}.

(** An estimate (latency, throughput, cost) with throughput and cost
    multiplied by [k]. *)
Definition scale_estimate (k : Qc) (est : Qc * Qc * Qc) : Qc * Qc * Qc :=
  (est.1.1, k * est.1.2, k * est.2).

(** How a non-empty sorted frame [m] sits around a batch size [x]: some
    rows are at [x]; or all rows are above [x]; or all are below [x]; or
    [x] falls strictly between the group [G ++ [r0]] of greatest batch size
    below it and the first row [r1] above it. *)
Inductive bracket (m : DataFrame) (x : Qc) : Prop :=
  | bracket_exact (L : DataFrame) (e : Entry.t) (E H : DataFrame) :
      m = L ++ (e :: E) ++ H →
      Forall (λ s, Entry.mean_batch_size s < x) L →
      Forall (λ s, Entry.mean_batch_size s = x) (e :: E) →
      Forall (λ s, x < Entry.mean_batch_size s) H →
      bracket m x
  | bracket_below (r : Entry.t) (Q : DataFrame) :
      m = r :: Q →
      x < Entry.mean_batch_size r →
      Forall (λ s, Entry.mean_batch_size r ≤ Entry.mean_batch_size s) Q →
      bracket m x
  | bracket_above (P : DataFrame) (r : Entry.t) (Q : DataFrame) :
      m = P ++ r :: Q →
      Forall (λ s, Entry.mean_batch_size s < Entry.mean_batch_size r) P →
      Forall (λ s, Entry.mean_batch_size s = Entry.mean_batch_size r) Q →
      Entry.mean_batch_size r < x →
      bracket m x
  | bracket_between (P G : DataFrame) (r0 r1 : Entry.t) (H : DataFrame) :
      m = P ++ (G ++ [r0]) ++ r1 :: H →
      Forall (λ s, Entry.mean_batch_size s < Entry.mean_batch_size r0) P →
      Forall (λ s, Entry.mean_batch_size s = Entry.mean_batch_size r0)
             (G ++ [r0]) →
      Entry.mean_batch_size r0 < x →
      x < Entry.mean_batch_size r1 →
      Forall (λ s, Entry.mean_batch_size r1 ≤ Entry.mean_batch_size s) H →
      bracket m x.

(** ** Concrete profiles *)

(** A row of the bundle (no gpu, one cpu, aws) with integer columns. *)
Definition example_row (batch thru lat cost : Z) : Entry.t :=
  Entry.mk "none" 1 "aws"
    (Qc_of_Z batch) (Qc_of_Z thru) (Qc_of_Z lat) (Qc_of_Z cost).

Definition example_config (batch : Z) (replicas : Z) : NodeConfig.t :=
  NodeConfig.mk "m" 1 "none" (Qc_of_Z batch) replicas "aws".

Definition example_profile (rows : DataFrame) : NodeProfile :=
  NodeProfile_init "m" rows "e2e".

(** Throughput 100 at batch size 10 and 200 at batch size 20. *)
Definition rising_profile : NodeProfile :=
  example_profile [example_row 10 100 1 2; example_row 20 200 2 2].
(** The throughput no longer grows between batch sizes 10 and 20. *)
Definition plateau_profile : NodeProfile :=
  example_profile [example_row 10 100 1 2; example_row 20 100 2 2].
(** The throughput drops between batch sizes 10 and 20. *)
Definition falling_throughput_profile : NodeProfile :=
  example_profile [example_row 10 100 1 2; example_row 20 90 2 2].
(** A single profiled batch size. *)
Definition single_profile : NodeProfile :=
  example_profile [example_row 3 30 1 2].

(** ** Specification vocabulary for LogicalDAG *)

Definition edge (adj : gmap string (list string)) (u v : string) : Prop :=
  ∃ children, adj !! u = Some children ∧ v ∈ children.

Definition acyclic (adj : gmap string (list string)) : Prop :=
  ∀ u, ¬ tc (edge adj) u u.

(** [walk adj u p]: [p] lists the nodes of a route from [u] to SINK along
    the edges of [adj], stopping at the first SINK. *)
Inductive walk (adj : gmap string (list string)) : string → list string → Prop :=
  | walk_sink : walk adj SINK [SINK]
  | walk_step u v children p :
      u ≠ SINK → adj !! u = Some children → v ∈ children →
      walk adj v p → walk adj u (u :: p).

Definition source_sink_path (dag : LogicalDAG) (p : list string) : Prop :=
  walk (adj_list dag) SOURCE p.

(** The graphs the docstring of [LogicalDAG.__init__] asks for: the asserted
    shape of SOURCE and SINK, every child is itself a key, children are
    listed once, and SINK can be reached from SOURCE. *)
Record well_formed (dag : LogicalDAG) : Prop := {
  wf_source :
    ∃ children, adj_list dag !! SOURCE = Some children ∧ children ≠ [];
  wf_sink : adj_list dag !! SINK = Some [];
  wf_closed : ∀ u children v,
    adj_list dag !! u = Some children → v ∈ children →
    is_Some (adj_list dag !! v);
  wf_children : ∀ u children,
    adj_list dag !! u = Some children → NoDup children;
  wf_connected : ∃ p, source_sink_path dag p
}.

(** The stages of a path: its nodes other than the two sentinels. *)
Definition stages (path : list string) : list string :=
  filter (λ node, ¬ (node = SOURCE ∨ node = SINK)) path.

Definition sum_list (l : list Qc) : Qc := foldr Qcplus 0 l.

(** ** Specification vocabulary for the pipeline estimate *)

Section estimate_vocabulary.
Context (adj : gmap string (list string)).
Context (scale_factors : gmap string Qc)
        (node_configs : gmap string NodeConfig.t)
        (single_node_profiles : gmap string NodeProfile).
Context (L U C F : string → Qc).

(** [ps] lists each route from [v] to SINK once. *)
Definition paths_from (v : string) (ps : list (list string)) : Prop :=
  NoDup ps ∧ ∀ p, p ∈ ps ↔ walk adj v p.

(** Every lookup and estimate of a stage succeeds, with latency [L],
    throughput [U], cost [C] and scale factor [F]. *)
Definition stage_succeeds (node : string) : Prop :=
  ∃ prof conf,
    single_node_profiles !! node = Some prof
    ∧ node_configs !! node = Some conf
    ∧ result (estimate_performance prof conf) = Return (L node, U node, C node)
    ∧ scale_factors !! node = Some (F node)
    ∧ F node ≠ 0.

Definition scaled (node : string) : Qc := U node / F node.

(** The bottleneck variables after the stage occurrences [occ]. *)
Definition bottleneck_inv (st : loop_state) (occ : list string) : Prop :=
  match occ with
  | [] => bottleneck_thruput st = None ∧ bottleneck_node st = None
  | _ => ∃ node, bottleneck_thruput st = Some (Finite (scaled node))
           ∧ bottleneck_node st = Some node
           ∧ node ∈ occ
           ∧ ∀ s, s ∈ occ → scaled node ≤ scaled s
  end.

Definition path_latency (path : list string) : Qc :=
  sum_list (L <$> stages path).

Definition occurrences (paths : list (list string)) : list string :=
  concat (stages <$> paths).

(** The variables of the inner loop after the nodes [pre] of the current
    path, [occ0] being the stage occurrences of the earlier paths. *)
Definition node_inv (occ0 : list string) (m0 : option Qc)
    (s : loop_state * Qc) (pre : list string) : Prop :=
  total_cost s.1 = sum_list (C <$> occ0 ++ stages pre)
  ∧ bottleneck_inv s.1 (occ0 ++ stages pre)
  ∧ max_latency s.1 = m0
  ∧ s.2 = path_latency pre.

Definition latency_inv (st : loop_state) (done : list (list string)) : Prop :=
  match done with
  | [] => max_latency st = None
  | _ => ∃ p, p ∈ done
           ∧ max_latency st = Some (path_latency p)
           ∧ ∀ q, q ∈ done → path_latency q ≤ path_latency p
  end.

(** The variables of the outer loop after the paths [done]. *)
Definition path_inv (st : loop_state) (done : list (list string)) : Prop :=
  total_cost st = sum_list (C <$> occurrences done)
  ∧ bottleneck_inv st (occurrences done)
  ∧ latency_inv st done.

End estimate_vocabulary.

(** ** A concrete pipeline: the cascade of pipeline_three *)

Definition pipeline_three : LogicalDAG :=
  {| adj_list := pipeline_three_adj_list; reference_node := "alexnet" |}.

(** One profiled row per stage, at batch size 1: (throughput, p99 latency,
    cost). *)
Definition cascade_profiles : gmap string NodeProfile :=
  list_to_map
    [("alexnet", NodeProfile_init "alexnet" [example_row 1 50 10 2] "e2e");
     ("res50", NodeProfile_init "res50" [example_row 1 80 20 3] "e2e");
     ("res152", NodeProfile_init "res152" [example_row 1 30 40 5] "e2e")].

Definition cascade_configs : gmap string NodeConfig.t :=
  list_to_map
    [("alexnet", NodeConfig.mk "alexnet" 1 "none" 1 1 "aws");
     ("res50", NodeConfig.mk "res50" 1 "none" 1 1 "aws");
     ("res152", NodeConfig.mk "res152" 1 "none" 1 1 "aws")].

(** Half of the queries reach res50 and a quarter reach res152. *)
Definition cascade_scale_factors : gmap string Qc :=
  list_to_map [("alexnet", 1); ("res50", 1 / 2); ("res152", 1 / Qc_of_Z 4)].

(** A column of the per-stage estimates, by stage name. *)
Definition by_stage (alexnet res50 res152 : Qc) (node : string) : Qc :=
  if decide (node = "alexnet") then alexnet
  else if decide (node = "res50") then res50
  else if decide (node = "res152") then res152
  else 0.

(** A topological numbering of the cascade. *)
Definition cascade_rank (node : string) : nat :=
  if decide (node = SOURCE) then 4
  else if decide (node = "alexnet") then 3
  else if decide (node = "res50") then 2
  else if decide (node = "res152") then 1
  else 0.

(** [stage_succeeds] with the lookups carried out. *)
Definition stage_checks (scale_factors : gmap string Qc)
    (node_configs : gmap string NodeConfig.t)
    (single_node_profiles : gmap string NodeProfile)
    (L U C F : string → Qc) (node : string) : Prop :=
  match single_node_profiles !! node, node_configs !! node,
        scale_factors !! node with
  | Some prof, Some conf, Some factor =>
      result (estimate_performance prof conf) = Return (L node, U node, C node)
      ∧ factor = F node ∧ factor ≠ 0
  | _, _, _ => False
  end.

Global Instance stage_checks_dec sf nc snp L U C F node :
  Decision (stage_checks sf nc snp L U C F node).
Proof. unfold stage_checks. repeat case_match; apply _. Defined.

Definition cascade_latency : string → Qc :=
  by_stage (Qc_of_Z 10) (Qc_of_Z 20) (Qc_of_Z 40).
Definition cascade_throughput : string → Qc :=
  by_stage (Qc_of_Z 50) (Qc_of_Z 80) (Qc_of_Z 30).
Definition cascade_cost : string → Qc :=
  by_stage (Qc_of_Z 2) (Qc_of_Z 3) (Qc_of_Z 5).
Definition cascade_factor : string → Qc :=
  by_stage 1 (1 / 2) (1 / Qc_of_Z 4).

Global Instance Estimate_eq_dec : EqDecision Estimate.t.
Proof. solve_decision. Defined.

(** ** Specification vocabulary for the traversal *)

(** One step of the traversal: [search] follows the edges out of every node
    but SINK. *)
Definition search_step (adj : gmap string (list string)) (u v : string) : Prop :=
  u ≠ SINK ∧ edge adj u v.

(** ** LogicalDAG.nodes and NodeProfile.enumerate_configs *)

(** [l.remove(x)]: the list without the first occurrence of [x]. *)
Fixpoint list_remove_first (x : string) (l : list string)
    : outcome (list string) :=
  match l with
  | [] => Raise ValueError
  | y :: l =>
      if decide (x = y) then Return l else (y ::.) <$> list_remove_first x l
  end.

(** [LogicalDAG.nodes].  The keys come in the order of [map_to_list] where
    Python lists them in insertion order. *)
Definition nodes (self : LogicalDAG) : outcome (list string) :=
  let nodes := (map_to_list (adj_list self)).*1 in
  nodes ← list_remove_first SOURCE nodes;
  list_remove_first SINK nodes.

(** [NodeProfile.enumerate_configs]; [range(1, max_replication_factor + 1)]
    is [seqZ 1 max_replication_factor]. *)
Definition enumerate_configs (self : NodeProfile)
    (max_replication_factor : Z) : list NodeConfig.t :=
  i ← seqZ 1 max_replication_factor;
  entry ← profile self;
  [NodeConfig.mk (name self)
     (Entry.num_cpus_per_replica entry)
     (Entry.gpu_type entry)
     (Entry.mean_batch_size entry)
     i
     (Entry.cloud entry)].

(** The config with [k] times as many replicas. *)
Definition scale_replicas (k : Z) (config : NodeConfig.t) : NodeConfig.t :=
  with_num_replicas config (k * NodeConfig.num_replicas config).

(** [k * a] for a positive rational [k]. *)
Definition np_scale (k : Qc) (a : np_float) : np_float :=
  match a with
  | Finite q => Finite (k * q)
  | _ => a
  end.

(** Two runs of the estimator loops, the second with throughputs and costs
    [k] times those of the first. *)
Definition scaled_state (k : Qc) (st1 st2 : loop_state) : Prop :=
  bottleneck_thruput st2 = np_scale k <$> bottleneck_thruput st1
  ∧ bottleneck_node st2 = bottleneck_node st1
  ∧ total_cost st2 = k * total_cost st1
  ∧ max_latency st2 = max_latency st1.

(** ** get_node_scale_factors *)

(** The part of an experiment's JSON that [get_node_scale_factors] reads,
    with the shape the experiment files have: each client is a dict that
    may hold the list of trials under "all_metrics" ([None] without that
    key); a trial holds its list "counters"; a counter is a dict with one
    key, whose value holds the number "count"; of each raw node config
    only the "name" is read. *)
Definition counter : Type := string * Qc.
Definition trial : Type := list counter.
Module Experiment.
Record t := mk {
  client_metrics : list (option (list trial));
  node_configs : list string
}.
End Experiment.

(** The line it can print. *)
Inductive notice := ReferenceNodeNotInPipelineConfig.

(** How it can stop: a local variable that was never assigned, or one of
    the exceptions of the rest of the module. *)
Inductive failure :=
  | UnboundLocalError (variable : string)
  | Exception (e : exception).

(** ["model:{name}:1:num_predictions".format(name=m)] *)
Definition count_key (m : string) : string :=
  "model:" +:+ m +:+ ":1:num_predictions".

(** [for m in node_names: if ... == count_key(m): counts[m] += count] *)
Definition add_counter (node_names : list string) (counts : gmap string Qc)
    (c : counter) : gmap string Qc :=
  foldl (λ counts m,
           if decide (c.1 = count_key m)
           then alter (λ count, count + c.2) m counts
           else counts)
        counts node_names.

Definition get_node_scale_factors (exp : Experiment.t) (reference_node : string)
    : list notice * (failure + gmap string Qc) :=
  let clipper_metrics := head (omap id (Experiment.client_metrics exp)) in
  let node_names := Experiment.node_configs exp in
  let out :=
    if decide (reference_node ∈ node_names) then []
    else [ReferenceNodeNotInPipelineConfig] in
  let counts := foldl (λ counts m, <[m := 0]> counts) ∅ node_names in
  (out,
   match clipper_metrics with
   | None => inl (UnboundLocalError "clipper_metrics")
   | Some trials =>
       let counts :=
         foldl (λ counts trial, foldl (add_counter node_names) counts trial)
               counts trials in
       match counts !! reference_node with
       | None => inl (Exception (KeyError reference_node))
       | Some total_count =>
           (* the first division of the last loop raises; the dict has the
              key [reference_node], so there is one *)
           if decide (total_count = 0) then inl (Exception ZeroDivisionError)
           else inr ((λ count, count / total_count) <$> counts)
       end
   end).

(** The number of predictions the trials record for node [m]: the sum of
    the counters under its key. *)
Definition predictions (trials : list trial) (m : string) : Qc :=
  sum_list ((filter (λ c : counter, c.1 = count_key m) (concat trials)).*2).

(** How often [m] is listed among the node configs. *)
Definition multiplicity (m : string) (node_names : list string) : Z :=
  Z.of_nat (length (filter (m =.) node_names)).

(** The count the loops accumulate for [m]. *)
Definition recorded (exp : Experiment.t) (trials : list trial) (m : string) : Qc :=
  Qc_of_Z (multiplicity m (Experiment.node_configs exp)) * predictions trials m.

(** Topological numberings of the other two built-in pipelines. *)
Definition pipeline_one_rank (node : string) : nat :=
  if decide (node = SOURCE) then 3
  else if decide (node = "tf-resnet-feats") then 2
  else if decide (node = "inception") then 2
  else if decide (node = "tf-kernel-svm") then 1
  else if decide (node = "tf-log-reg") then 1
  else 0.
Definition pipeline_two_rank (node : string) : nat :=
  if decide (node = SOURCE) then 4
  else if decide (node = "tf-lang-detect") then 3
  else if decide (node = "tf-nmt") then 2
  else if decide (node = "tf-lstm") then 1
  else 0.

(** ** Further concrete inputs *)

(** The second row is worse than the first on all three columns. *)
Definition dominated_rows : DataFrame :=
  [example_row 10 100 1 2; example_row 20 90 2 3].

(** A graph with the cycle a -> b -> a. *)
Definition cyclic_dag : LogicalDAG :=
  {| adj_list := list_to_map
       [(SOURCE, ["a"]); ("a", ["b"]); ("b", ["a"; SINK]); (SINK, [])];
     reference_node := "a" |}.

(** A graph whose node a lists the child b, which is no key. *)
Definition dangling_dag : LogicalDAG :=
  {| adj_list := list_to_map [(SOURCE, ["a"]); ("a", ["b"]); (SINK, [])];
     reference_node := "a" |}.

(** A graph whose only stage has no children. *)
Definition dead_end_dag : LogicalDAG :=
  {| adj_list := list_to_map [(SOURCE, ["a"]); ("a", []); (SINK, [])];
     reference_node := "a" |}.

Definition dead_end_rank (node : string) : nat :=
  if decide (node = SOURCE) then 1 else 0.

(** The three routes through the cascade, in the order of the search. *)
Definition cascade_paths : list (list string) :=
  [[SOURCE; "alexnet"; "res50"; "res152"; SINK];
   [SOURCE; "alexnet"; "res50"; SINK];
   [SOURCE; "alexnet"; SINK]].

(** An experiment on the cascade: the first client has no metrics, the
    second recorded one trial with 4 predictions of alexnet, 2 of res50
    and 1 of res152. *)
Definition cascade_experiment : Experiment.t :=
  {| Experiment.client_metrics :=
       [None;
        Some [[(count_key "alexnet", Qc_of_Z 4);
               (count_key "res50", 2);
               (count_key "res152", 1)]]];
     Experiment.node_configs := ["alexnet"; "res50"; "res152"] |}.

(** An experiment none of whose clients has metrics. *)
Definition no_metrics_experiment : Experiment.t :=
  {| Experiment.client_metrics := [None];
     Experiment.node_configs := ["alexnet"] |}.

Global Instance notice_eq_dec : EqDecision notice.
Proof. solve_decision. Defined.
Global Instance failure_eq_dec : EqDecision failure.
Proof. solve_decision. Defined.

(** * Properties *)

(** Closed decidable goals are settled by evaluation. *)
Ltac by_compute := apply (bool_decide_unpack _); vm_compute; exact I.

(** ** Pruning: the retained rows *)

Lemma keep_mask_not_dominated row p :
  keep_mask row p ↔ ¬ strictly_dominates row p.
Proof.
  unfold keep_mask, strictly_dominates. rewrite !Qcle_ngt. split.
  - intros [H|[H|H]] (?&?&?); by apply H.
  - intros H.
    destruct (decide (Entry.throughput p < Entry.throughput row)); [|by left].
    destruct (decide (Entry.cost row < Entry.cost p)); [|by right; left].
    right; right. intros ?. by apply H.
Qed.

Lemma filter_all {A} (P : A → Prop) `{!∀ x, Decision (P x)} (l : list A) :
  Forall P l → filter P l = l.
Proof.
  induction 1 as [|x l HP _ IH]; [done|].
  by rewrite filter_cons_True, IH.
Qed.

Lemma prune_loop_filter (rows pruned : DataFrame) :
  foldl (λ pruned row, filter (keep_mask row) pruned) pruned rows
  = filter (λ p, Forall (λ row, keep_mask row p) rows) pruned.
Proof.
  revert pruned. induction rows as [|row rows IH]; intros pruned; simpl.
  - symmetry. apply filter_all, Forall_forall. intros; constructor.
  - rewrite IH, list_filter_filter. apply list_filter_iff.
    intros p. rewrite Forall_cons. tauto.
Qed.

Lemma prune_profile_filter (profile : DataFrame) :
  prune_profile profile
  = filter (λ p, Forall (λ row, keep_mask row p) profile) profile.
Proof. apply prune_loop_filter. Qed.

Lemma elem_of_prune_profile (profile : DataFrame) (i : Entry.t) :
  i ∈ prune_profile profile
  ↔ i ∈ profile ∧ ∀ j, j ∈ profile → ¬ strictly_dominates j i.
Proof.
  rewrite prune_profile_filter, list_elem_of_filter, Forall_forall.
  setoid_rewrite keep_mask_not_dominated. tauto.
Qed.

Lemma prune_profile_sublist (profile : DataFrame) :
  prune_profile profile `sublist_of` profile.
Proof. rewrite prune_profile_filter. apply sublist_filter. Qed.

(** A row that survives a first pass is not strictly dominated by any row
    of the original frame, hence by no surviving row either. *)
Lemma prune_profile_fixed (profile : DataFrame) :
  Forall (λ p, Forall (λ row, keep_mask row p) (prune_profile profile))
         (prune_profile profile).
Proof.
  apply Forall_forall. intros p Hp. apply Forall_forall. intros row Hrow.
  apply elem_of_prune_profile in Hp as [_ Hp].
  apply elem_of_prune_profile in Hrow as [Hrow _].
  apply keep_mask_not_dominated. by apply Hp.
Qed.

(** C1 (as amended).  [prune_profile] keeps, in frame order, exactly the
    rows [i] such that every row [j] of the whole table (whatever its
    resource bundle) has [j.throughput <= i.throughput] or
    [j.cost >= i.cost] or [j.latency >= i.latency]; row [i] is dropped
    exactly when some row [j] of the table has strictly higher throughput,
    strictly lower cost and strictly lower latency.  The result is a fixed
    point of this drop rule: no retained row is strictly dominated by a
    retained row. *)
Theorem prune_profile_retains (profile : DataFrame) :
  prune_profile profile
  = filter (λ i, Forall (λ j,
        Entry.throughput j ≤ Entry.throughput i
        ∨ Entry.cost i ≤ Entry.cost j
        ∨ Entry.p99_latency i ≤ Entry.p99_latency j) profile) profile
  ∧ (∀ i, i ∈ profile →
       i ∉ prune_profile profile
       ↔ ∃ j, j ∈ profile
            ∧ Entry.throughput i < Entry.throughput j
            ∧ Entry.cost j < Entry.cost i
            ∧ Entry.p99_latency j < Entry.p99_latency i)
  ∧ (∀ i j, i ∈ prune_profile profile → j ∈ prune_profile profile →
       ¬ strictly_dominates j i).
Proof.
  split_and!.
  - apply prune_profile_filter.
  - intros i Hi. rewrite elem_of_prune_profile. split.
    + intros Hdrop.
      destruct (decide (Exists (λ j, strictly_dominates j i) profile))
        as [Hex|Hnex].
      * apply Exists_exists in Hex as (j & Hj & Hdom). by exists j.
      * destruct Hdrop. split; [done|]. intros j Hj Hdom.
        apply Hnex, Exists_exists. by exists j.
    + intros (j & Hj & Hdom) [_ Hkeep]. by apply (Hkeep j).
  - intros i j Hi Hj.
    apply elem_of_prune_profile in Hi as [_ Hi].
    apply elem_of_prune_profile in Hj as [Hj _]. by apply Hi.
Qed.

(** C8.  Pruning is idempotent: a second pass over an already pruned table
    removes nothing. *)
Theorem prune_profile_idempotent (profile : DataFrame) :
  prune_profile (prune_profile profile) = prune_profile profile.
Proof.
  rewrite (prune_profile_filter (prune_profile profile)).
  apply filter_all, prune_profile_fixed.
Qed.

(** ** Sorted frames *)

Section sorted_frames.
Implicit Types (m L H P Q : DataFrame) (r : Entry.t) (x : Qc).
Local Abbreviation b := Entry.mean_batch_size.

Global Instance batch_le_trans : Transitive batch_le.
Proof. intros ???; unfold batch_le; apply Qcle_trans. Qed.
Global Instance batch_le_total : Total batch_le.
Proof. intros ??; unfold batch_le; apply Qc_le_total. Qed.

Lemma sort_values_sorted df : StronglySorted batch_le (sort_values df).
Proof. apply StronglySorted_merge_sort; apply _. Qed.
Lemma sort_values_perm df : sort_values df ≡ₚ df.
Proof. apply merge_sort_Permutation. Qed.

Lemma sorted_split_lt x m :
  StronglySorted batch_le m →
  ∃ L H, m = L ++ H ∧ Forall (λ r, b r < x) L ∧ Forall (λ r, x ≤ b r) H.
Proof.
  induction 1 as [|r m Hm IH Hr].
  - by exists [], [].
  - destruct (decide (b r < x)) as [Hlt|Hge].
    + destruct IH as (L & H & -> & HL & HH).
      exists (r :: L), H. split_and!; [done|by constructor|done].
    + apply Qcle_ngt in Hge. exists [], (r :: m). split_and!; [done|done|].
      constructor; [done|]. eapply Forall_impl; [exact Hr|].
      intros r' Hr'. by etrans.
Qed.

Lemma sorted_split_le x m :
  StronglySorted batch_le m →
  ∃ L H, m = L ++ H ∧ Forall (λ r, b r ≤ x) L ∧ Forall (λ r, x < b r) H.
Proof.
  induction 1 as [|r m Hm IH Hr].
  - by exists [], [].
  - destruct (decide (b r ≤ x)) as [Hle|Hgt].
    + destruct IH as (L & H & -> & HL & HH).
      exists (r :: L), H. split_and!; [done|by constructor|done].
    + apply Qclt_nge in Hgt. exists [], (r :: m). split_and!; [done|done|].
      constructor; [done|]. eapply Forall_impl; [exact Hr|].
      intros r' Hr'. by eapply Qclt_le_trans.
Qed.

(** A sorted frame around [x]: the rows below, at and above [x]. *)
Lemma sorted_split3 x m :
  StronglySorted batch_le m →
  ∃ L E H, m = L ++ E ++ H
    ∧ Forall (λ r, b r < x) L ∧ Forall (λ r, b r = x) E
    ∧ Forall (λ r, x < b r) H.
Proof.
  intros Hm. destruct (sorted_split_lt x m Hm) as (L & R & -> & HL & HR).
  apply StronglySorted_app_1_r in Hm.
  destruct (sorted_split_le x R Hm) as (E & H & -> & HE & HH).
  exists L, E, H. split_and!; [done..| |done].
  apply Forall_app in HR as [HR _].
  rewrite Forall_forall in HE, HR |- *.
  intros r Hr. apply Qcle_antisym; auto.
Qed.

Lemma sorted_le_last m r :
  StronglySorted batch_le m → last m = Some r → Forall (λ s, b s ≤ b r) m.
Proof.
  intros Hm Hlast. apply last_Some in Hlast as [m' ->].
  apply StronglySorted_app in Hm as (Hle & _ & _).
  apply Forall_app. split.
  - apply Forall_forall. intros s Hs. apply (Hle s r Hs). set_solver.
  - repeat constructor. apply Qcle_refl.
Qed.

(** The first row of greatest batch size of a non-empty sorted frame. *)
Lemma sorted_first_max m :
  StronglySorted batch_le m → m ≠ [] →
  ∃ P r Q, m = P ++ r :: Q
    ∧ Forall (λ s, b s < b r) P ∧ Forall (λ s, b s = b r) Q.
Proof.
  intros Hm Hne.
  destruct (last m) as [z|] eqn:Hlast; [|by apply last_None in Hlast].
  pose proof (sorted_le_last m z Hm Hlast) as Hle.
  destruct (sorted_split_lt (b z) m Hm) as (P & R & -> & HP & HR).
  destruct R as [|r Q].
  { rewrite app_nil_r in Hlast. apply last_Some_elem_of in Hlast.
    rewrite Forall_forall in HP. apply HP in Hlast.
    by apply Qclt_not_eq in Hlast. }
  apply Forall_app in Hle as [_ Hle].
  assert (Forall (λ s, b s = b z) (r :: Q)) as Heq.
  { rewrite Forall_forall in HR, Hle |- *.
    intros s Hs. apply Qcle_antisym; auto. }
  apply Forall_cons in Heq as [Hr HQ].
  exists P, r, Q. rewrite Hr. done.
Qed.

(** ** Label selection on a sorted frame *)

Lemma loc_mean_batch_size_app (mask : Entry.t → Prop)
    `{!∀ r, Decision (mask r)} k m1 m2 :
  loc_mean_batch_size mask k (m1 ++ m2)
  = loc_mean_batch_size mask k m1
    ++ loc_mean_batch_size mask (k + length m1) m2.
Proof.
  revert k. induction m1 as [|r m1 IH]; intros k; simpl.
  - by rewrite Nat.add_0_r.
  - rewrite IH, Nat.add_succ_r. by case_decide.
Qed.

Lemma loc_mean_batch_size_none (mask : Entry.t → Prop)
    `{!∀ r, Decision (mask r)} k m :
  Forall (λ r, ¬ mask r) m → loc_mean_batch_size mask k m = [].
Proof.
  intros Hm. revert k. induction Hm as [|r m Hr _ IH]; intros k; simpl.
  - done.
  - by rewrite decide_False.
Qed.

Lemma loc_mean_batch_size_values (mask : Entry.t → Prop)
    `{!∀ r, Decision (mask r)} (Φ : Qc → Prop) k m :
  Forall (λ r, Φ (b r)) m →
  Forall (λ iv, Φ iv.2) (loc_mean_batch_size mask k m).
Proof.
  intros Hm. revert k. induction Hm as [|r m Hr _ IH]; intros k; simpl.
  - constructor.
  - case_decide; [constructor|]; auto.
Qed.

Lemma sum_mask_app (mask : Entry.t → Prop)
    `{!∀ r, Decision (mask r)} m1 m2 :
  sum_mask mask (m1 ++ m2) = (sum_mask mask m1 + sum_mask mask m2)%nat.
Proof. unfold sum_mask. by rewrite filter_app, length_app. Qed.

Lemma sum_mask_none (mask : Entry.t → Prop)
    `{!∀ r, Decision (mask r)} m :
  Forall (λ r, ¬ mask r) m → sum_mask mask m = 0%nat.
Proof.
  unfold sum_mask. induction 1 as [|r m Hr _ IH]; [done|].
  by rewrite filter_cons_False.
Qed.

Lemma sum_mask_cons_True (mask : Entry.t → Prop)
    `{!∀ r, Decision (mask r)} r m :
  mask r → (0 < sum_mask mask (r :: m))%nat.
Proof. intros Hr. unfold sum_mask. rewrite filter_cons_True by done. simpl. lia. Qed.

Lemma idxmax_from_le best s :
  Forall (λ iv, iv.2 ≤ best.2) s → idxmax_from best s = best.1.
Proof.
  induction 1 as [|[i v] s Hv _ IH]; simpl; [done|].
  rewrite decide_False; [done|]. by apply Qcle_not_lt.
Qed.

Lemma idxmax_from_lt best s1 i v s2 :
  Forall (λ iv, iv.2 < v) s1 → best.2 < v →
  Forall (λ iv, iv.2 ≤ v) s2 →
  idxmax_from best (s1 ++ (i, v) :: s2) = i.
Proof.
  intros Hs1. revert best. induction Hs1 as [|[j w] s1 Hw _ IH];
    intros best Hbest Hs2; simpl.
  - rewrite decide_True by done. by apply (idxmax_from_le (i, v)).
  - case_decide; by apply IH.
Qed.

Lemma idxmin_from_ge best s :
  Forall (λ iv, best.2 ≤ iv.2) s → idxmin_from best s = best.1.
Proof.
  induction 1 as [|[i v] s Hv _ IH]; simpl; [done|].
  rewrite decide_False; [done|]. by apply Qcle_not_lt.
Qed.
End sorted_frames.

(** ** The four cases of estimate_performance *)

Section estimate_cases.
Implicit Types (m L H P Q E : DataFrame) (r : Entry.t) (x : Qc).
Local Abbreviation b := Entry.mean_batch_size.

Lemma idxmax_first_max s1 i v s2 :
  Forall (λ iv, iv.2 < v) s1 → Forall (λ iv, iv.2 ≤ v) s2 →
  idxmax (s1 ++ (i, v) :: s2) = mret i.
Proof.
  intros Hs1 Hs2. destruct Hs1 as [|j s1 Hj Hs1]; simpl.
  - by rewrite (idxmax_from_le (i, v)).
  - by rewrite idxmax_from_lt.
Qed.

(** [idx_glb] when some row has batch size at most [x]: the label of the
    first row of the group [M] of greatest batch size [g ≤ x]. *)
Lemma idx_glb_eval x g P M H :
  M ≠ [] →
  Forall (λ s, b s < g) P → Forall (λ s, b s = g) M → g ≤ x →
  Forall (λ s, x < b s) H →
  (0 < sum_mask (batch_size_le x) (P ++ M ++ H))%nat
  ∧ idxmax (loc_mean_batch_size (batch_size_le x) 0 (P ++ M ++ H))
    = mret (length P).
Proof.
  intros HM HP Hg Hgx HH. destruct M as [|r Q]; [done|].
  apply Forall_cons in Hg as [Hr HQ].
  assert (batch_size_le x r) as Hmask by (unfold batch_size_le; by rewrite Hr).
  split.
  - rewrite sum_mask_app.
    pose proof (sum_mask_cons_True (batch_size_le x) r (Q ++ H) Hmask). simpl. lia.
  - rewrite loc_mean_batch_size_app. simpl.
    rewrite decide_True by done.
    rewrite loc_mean_batch_size_app.
    rewrite (loc_mean_batch_size_none _ _ H), app_nil_r.
    + apply idxmax_first_max.
      * rewrite Hr. by apply (loc_mean_batch_size_values _ (λ v, v < g)).
      * apply (loc_mean_batch_size_values _ (λ v, v ≤ b r)).
        eapply Forall_impl; [exact HQ|]. intros s ->. rewrite Hr. apply Qcle_refl.
    + eapply Forall_impl; [exact HH|]. intros s Hs. by apply Qclt_not_le.
Qed.

Lemma idx_glb_none x m :
  Forall (λ s, x < b s) m → sum_mask (batch_size_le x) m = 0%nat.
Proof.
  intros Hm. apply sum_mask_none.
  eapply Forall_impl; [exact Hm|]. intros s Hs. by apply Qclt_not_le.
Qed.

(** [idx_lub] when some row has batch size at least [x]: the label of the
    first such row of the sorted frame. *)
Lemma idx_lub_eval x L r Q :
  Forall (λ s, b s < x) L → x ≤ b r → Forall (λ s, b r ≤ b s) Q →
  (0 < sum_mask (batch_size_ge x) (L ++ r :: Q))%nat
  ∧ idxmin (loc_mean_batch_size (batch_size_ge x) 0 (L ++ r :: Q))
    = mret (length L).
Proof.
  intros HL Hr HQ. split.
  - rewrite sum_mask_app.
    pose proof (sum_mask_cons_True (batch_size_ge x) r Q Hr). lia.
  - rewrite loc_mean_batch_size_app.
    rewrite (loc_mean_batch_size_none _ _ L); simpl.
    + rewrite decide_True by done. simpl.
      rewrite idxmin_from_ge; [done|].
      by apply (loc_mean_batch_size_values _ (λ v, b r ≤ v)).
    + eapply Forall_impl; [exact HL|]. intros s Hs. by apply Qclt_not_le.
Qed.

Lemma idx_lub_none x m :
  Forall (λ s, b s < x) m → sum_mask (batch_size_ge x) m = 0%nat.
Proof.
  intros Hm. apply sum_mask_none.
  eapply Forall_impl; [exact Hm|]. intros s Hs. by apply Qclt_not_le.
Qed.

Lemma loc_slice_middle P M r H :
  loc_slice (P ++ M ++ r :: H) (length P) (length P + length M) = M ++ [r].
Proof.
  unfold loc_slice. rewrite drop_app_length.
  replace (S (length P + length M) - length P)%nat with (length M + 1)%nat by lia.
  rewrite take_app_add'; [|done]. done.
Qed.

Lemma loc_middle P r Q : loc (P ++ r :: Q) (length P) = mret r.
Proof. unfold loc. by rewrite list_lookup_middle. Qed.

(** The exact-match case: both labels are that of the first row [e] of
    batch size [x]. *)
Lemma estimate_exact self config L e E H :
  resource_bundle_matches self config = L ++ (e :: E) ++ H →
  Forall (λ s, b s < NodeConfig.batch_size config) L →
  Forall (λ s, b s = NodeConfig.batch_size config) (e :: E) →
  Forall (λ s, NodeConfig.batch_size config < b s) H →
  estimate_performance self config
  = mret (Entry.p99_latency e,
          Entry.throughput e * Qc_of_Z (NodeConfig.num_replicas config),
          Entry.cost e * Qc_of_Z (NodeConfig.num_replicas config)).
Proof.
  intros Hm HL HE HH. unfold estimate_performance. rewrite Hm.
  cbv zeta.
  rewrite decide_False by (rewrite length_app; simpl; lia).
  destruct (idx_glb_eval (NodeConfig.batch_size config)
              (NodeConfig.batch_size config) L (e :: E) H)
    as [Hs Hi]; [done..|apply Qcle_refl|done|].
  rewrite (decide_True _ _ Hs), Hi.
  apply Forall_cons in HE as [He HE].
  destruct (idx_lub_eval (NodeConfig.batch_size config) L e (E ++ H))
    as [Hs' Hi'].
  { done. } { rewrite He. apply Qcle_refl. }
  { apply Forall_app. split.
    - eapply Forall_impl; [exact HE|]. intros s ->. rewrite He. apply Qcle_refl.
    - eapply Forall_impl; [exact HH|]. intros s Hs'. rewrite He.
      by apply Qclt_le_weak. }
  simpl in Hs', Hi' |- *.
  rewrite (decide_True _ _ Hs'), Hi'. simpl.
  assert (relevant_entries (L ++ e :: E ++ H) (length L) (length L) = [e]) as ->.
  { unfold relevant_entries, loc_slice. rewrite drop_app_length.
    by replace (S (length L) - length L)%nat with 1%nat by lia. }
  simpl. unfold np_interp. simpl.
  by destruct (decide _).
Qed.

(** Below the profiled range: the row of the least label, no message. *)
Lemma estimate_below self config r Q :
  resource_bundle_matches self config = r :: Q →
  NodeConfig.batch_size config < b r →
  Forall (λ s, b r ≤ b s) Q →
  estimate_performance self config
  = mret (Entry.p99_latency r,
          Entry.throughput r * Qc_of_Z (NodeConfig.num_replicas config),
          Entry.cost r * Qc_of_Z (NodeConfig.num_replicas config)).
Proof.
  intros Hm Hr HQ. unfold estimate_performance. rewrite Hm. cbv zeta.
  rewrite decide_False by done.
  assert (Forall (λ s, NodeConfig.batch_size config < b s) (r :: Q)) as Hall.
  { constructor; [done|]. eapply Forall_impl; [exact HQ|].
    intros s Hs. by eapply Qclt_le_trans. }
  rewrite (idx_glb_none _ _ Hall).
  rewrite (decide_False _ _ (Nat.lt_irrefl 0)).
  destruct (idx_lub_eval (NodeConfig.batch_size config) [] r Q)
    as [Hs' Hi']; [constructor|by apply Qclt_le_weak|done|].
  simpl in Hs', Hi' |- *.
  rewrite (decide_True _ _ Hs'), Hi'. done.
Qed.

(** Above the profiled range: the first row of greatest batch size, with
    the warning. *)
Lemma estimate_above self config P r Q :
  resource_bundle_matches self config = P ++ r :: Q →
  Forall (λ s, b s < b r) P → Forall (λ s, b s = b r) Q →
  b r < NodeConfig.batch_size config →
  estimate_performance self config
  = ([WarningNoHigherBatchSize config],
     Return (Entry.p99_latency r,
             Entry.throughput r * Qc_of_Z (NodeConfig.num_replicas config),
             Entry.cost r * Qc_of_Z (NodeConfig.num_replicas config))).
Proof.
  intros Hm HP HQ Hr. unfold estimate_performance. rewrite Hm. cbv zeta.
  rewrite decide_False by (rewrite length_app; simpl; lia).
  destruct (idx_glb_eval (NodeConfig.batch_size config) (b r) P (r :: Q) [])
    as [Hs Hi]; [done|done|by constructor|by apply Qclt_le_weak|constructor|].
  rewrite app_nil_r in Hs, Hi.
  rewrite (decide_True _ _ Hs), Hi.
  assert (Forall (λ s, b s < NodeConfig.batch_size config) (P ++ r :: Q))
    as Hall.
  { apply Forall_app. split; [|constructor; [done|]].
    - eapply Forall_impl; [exact HP|]. intros s Hs'. exact (Qclt_trans _ _ _ Hs' Hr).
    - eapply Forall_impl; [exact HQ|]. by intros s ->. }
  simpl. rewrite (idx_lub_none _ _ Hall).
  rewrite (decide_False _ _ (Nat.lt_irrefl 0)). simpl.
  by rewrite loc_middle.
Qed.
End estimate_cases.

Section interpolation.
Implicit Types (m L H P Q G : DataFrame) (r : Entry.t) (x : Qc).
Local Abbreviation b := Entry.mean_batch_size.

Lemma Qclt_asym (p q : Qc) : p < q → ¬ q < p.
Proof. intros Hpq. by apply Qcle_not_lt, Qclt_le_weak. Qed.

Lemma slope_form_lerp x x0 y0 x1 y1 :
  (y1 - y0) / (x1 - x0) * (x - x0) + y0 = lerp x x0 y0 x1 y1.
Proof. unfold lerp, Qcdiv. ring. Qed.

Lemma interp_scan_between (f : Entry.t → Qc) x x0 y0 G r0 r1 :
  Forall (λ s, b s < x) (G ++ [r0]) → x < b r1 →
  interp_scan x x0 y0 (zip (b <$> G ++ [r0; r1]) (f <$> G ++ [r0; r1]))
  = interp_scan x (b r0) (f r0) [(b r1, f r1)].
Proof.
  intros HG Hr1. revert x0 y0. induction G as [|g G IH]; intros x0 y0; simpl.
  - apply Forall_cons in HG as [Hr0 _].
    rewrite decide_False; [done|]. by apply Qclt_asym. 
  - apply Forall_cons in HG as [Hg HG].
    rewrite decide_False; [by apply IH|]. by apply Qclt_asym.
Qed.

Lemma np_interp_between (f : Entry.t → Qc) x G r0 r1 :
  Forall (λ s, b s < x) (G ++ [r0]) → x < b r1 →
  np_interp x (b <$> G ++ [r0; r1]) (f <$> G ++ [r0; r1])
  = mret (lerp x (b r0) (f r0) (b r1) (f r1)).
Proof.
  intros HG Hr1.
  assert (b r0 < x) as Hr0.
  { apply Forall_app in HG as [_ HG]. by apply Forall_cons in HG as [? _]. }
  assert (interp_scan x (b r0) (f r0) [(b r1, f r1)]
          = lerp x (b r0) (f r0) (b r1) (f r1)) as Hlast.
  { simpl. rewrite decide_True by done.
    rewrite decide_False by (by apply Qclt_not_eq).
    apply slope_form_lerp. }
  unfold np_interp. destruct G as [|g G]; simpl.
  - rewrite decide_False by (by apply Qclt_asym).
    simpl in Hlast. by rewrite Hlast.
  - apply Forall_cons in HG as [Hg HG].
    rewrite decide_False by (by apply Qclt_asym).
    by rewrite interp_scan_between, Hlast.
Qed.

Lemma iloc0_head (f : Entry.t → Qc) G r0 r1 :
  iloc0 (f <$> G ++ [r0; r1]) = mret (f (default r0 (head G))).
Proof. by destruct G. Qed.

(** The interpolation case: the rows handed to [np.interp] are the whole
    group of greatest batch size below [x], followed by the first row
    above [x]. *)
Lemma estimate_interp self config P G r0 r1 H g :
  resource_bundle_matches self config = P ++ (G ++ [r0]) ++ r1 :: H →
  Forall (λ s, b s < g) P → Forall (λ s, b s = g) (G ++ [r0]) →
  g < NodeConfig.batch_size config → NodeConfig.batch_size config < b r1 →
  Forall (λ s, b r1 ≤ b s) H →
  let x := NodeConfig.batch_size config in
  let n := Qc_of_Z (NodeConfig.num_replicas config) in
  estimate_performance self config
  = if decide (all_positive (np_diff (Entry.throughput <$> G ++ [r0; r1]))
               ∧ all_positive (np_diff (Entry.p99_latency <$> G ++ [r0; r1])))
    then mret
      (lerp x (b r0) (Entry.p99_latency r0) (b r1) (Entry.p99_latency r1),
       lerp x (b r0) (Entry.throughput r0) (b r1) (Entry.throughput r1) * n,
       Entry.cost (default r0 (head G)) * n)
    else raise AssertionError.
Proof.
  intros Hm HP HG Hg Hr1 HH x n. unfold estimate_performance.
  rewrite Hm. cbv zeta. fold x n.
  rewrite decide_False by (rewrite !length_app; simpl; lia).
  assert (Forall (λ s, x < b s) (r1 :: H)) as Habove.
  { constructor; [done|]. eapply Forall_impl; [exact HH|].
    intros s Hs. by eapply Qclt_le_trans. }
  assert (Forall (λ s, b s < x) (P ++ G ++ [r0])) as Hbelow.
  { apply Forall_app. split.
    - eapply Forall_impl; [exact HP|].
      intros s Hs. exact (Qclt_trans _ _ _ Hs Hg).
    - eapply Forall_impl; [exact HG|]. by intros s ->. }
  destruct (idx_glb_eval x g P (G ++ [r0]) (r1 :: H))
    as [Hs Hi]; [by destruct G|done|done|by apply Qclt_le_weak|done|].
  rewrite (decide_True _ _ Hs), Hi.
  destruct (idx_lub_eval x (P ++ G ++ [r0]) r1 H)
    as [Hs' Hi']; [done|by apply Qclt_le_weak|done|].
  rewrite <-(assoc_L (++) P) in Hs', Hi'.
  simpl. rewrite (decide_True _ _ Hs'), Hi'. simpl.
  rewrite length_app.
  unfold relevant_entries. rewrite loc_slice_middle.
  rewrite <-(assoc_L (++) G). simpl.
  apply Forall_app in Hbelow as [_ Hbelow].
  rewrite !np_interp_between, iloc0_head by done.
  unfold assert.
  destruct (decide (all_positive (np_diff (Entry.throughput <$> G ++ [r0; r1]))));
    destruct (decide (all_positive (np_diff (Entry.p99_latency <$> G ++ [r0; r1]))));
    simpl.
  - by rewrite decide_True.
  - by rewrite decide_False by tauto.
  - by rewrite decide_False by tauto.
  - by rewrite decide_False by tauto.
Qed.
End interpolation.

Section classification.
Implicit Types (m L H P Q G : DataFrame) (r : Entry.t) (x : Qc).
Local Abbreviation b := Entry.mean_batch_size.

Lemma elem_of_resource_bundle_matches self config r :
  r ∈ resource_bundle_matches self config
  ↔ r ∈ profile self ∧ bundle_mask config r.
Proof.
  unfold resource_bundle_matches.
  rewrite sort_values_perm, list_elem_of_filter. tauto.
Qed.

Lemma resource_bundle_matches_sorted self config :
  StronglySorted batch_le (resource_bundle_matches self config).
Proof. apply sort_values_sorted. Qed.

Lemma resource_bundle_matches_nonempty self config :
  resource_bundle_matches self config ≠ []
  ↔ ∃ r, r ∈ profile self ∧ bundle_mask config r.
Proof.
  split.
  - destruct (resource_bundle_matches self config) as [|r m] eqn:Hm; [done|].
    intros _. exists r. apply elem_of_resource_bundle_matches.
    rewrite Hm. by left.
  - intros (r & Hr) Hm. apply elem_of_resource_bundle_matches in Hr.
    rewrite Hm in Hr. by apply elem_of_nil in Hr.
Qed.

Lemma snoc_view {A} (a : A) (l : list A) : ∃ l' z, a :: l = l' ++ [z].
Proof.
  revert a. induction l as [|c l IH]; intros a.
  - by exists [], a.
  - destruct (IH c) as (l' & z & ->). by exists (a :: l'), z.
Qed.

Lemma sorted_bracket m x :
  StronglySorted batch_le m → m ≠ [] → bracket m x.
Proof.
  intros Hm Hne.
  destruct (sorted_split3 x m Hm) as (L & E & H & -> & HL & HE & HH).
  destruct E as [|e E].
  2: { by eapply bracket_exact. }
  simpl in *. destruct H as [|r1 H].
  - rewrite app_nil_r in *.
    destruct (sorted_first_max L Hm Hne) as (P & r & Q & -> & HP & HQ).
    eapply bracket_above; [done..|].
    apply Forall_app in HL as [_ HL]. by apply Forall_cons in HL as [? _].
  - apply Forall_cons in HH as [Hr1 HH].
    pose proof (StronglySorted_app_1_r _ _ _ Hm) as Hsr.
    apply StronglySorted_cons in Hsr as [Hle _].
    destruct L as [|l0 L].
    + by eapply bracket_below.
    + pose proof (StronglySorted_app_1_l _ _ _ Hm) as Hsl.
      destruct (sorted_first_max (l0 :: L) Hsl) as (P & r & Q & HLeq & HP & HQ);
        [done|].
      destruct (snoc_view r Q) as (G & r0 & HG).
      assert (Forall (λ s, b s = b r) (G ++ [r0])) as Hgrp.
      { rewrite <-HG. by constructor. }
      assert (b r0 = b r) as Hr0.
      { apply Forall_app in Hgrp as [_ Hgrp]. by apply Forall_cons in Hgrp as [? _]. }
      apply (bracket_between _ _ P G r0 r1 H).
      * by rewrite HLeq, HG, <-!(assoc_L (++)).
      * by rewrite Hr0.
      * by rewrite Hr0.
      * rewrite HLeq in HL. apply Forall_app in HL as [_ HL].
        apply Forall_cons in HL as [? _]. by rewrite Hr0.
      * done.
      * done.
Qed.

Lemma matches_bracket self config :
  (∃ r, r ∈ profile self ∧ bundle_mask config r) →
  bracket (resource_bundle_matches self config) (NodeConfig.batch_size config).
Proof.
  intros Hex. apply sorted_bracket.
  - apply resource_bundle_matches_sorted.
  - by apply resource_bundle_matches_nonempty.
Qed.
End classification.

(** ** Properties of estimate_performance and increase_batch_size *)

Lemma elem_of_middle {A} (x : A) l1 l2 : x ∈ l1 ++ x :: l2.
Proof. apply elem_of_app. right. by left. Qed.

Lemma elem_of_group_last {A} (r0 r1 : A) P G H :
  r0 ∈ P ++ (G ++ [r0]) ++ r1 :: H.
Proof. rewrite <-(assoc_L (++) G). simpl. rewrite (assoc_L (++) P). apply elem_of_middle. Qed.

Lemma elem_of_group_next {A} (r0 r1 : A) P G H :
  r1 ∈ P ++ (G ++ [r0]) ++ r1 :: H.
Proof. rewrite (assoc_L (++) P). apply elem_of_middle. Qed.

Lemma resource_bundle_matches_replicas self config n :
  resource_bundle_matches self (with_num_replicas config n)
  = resource_bundle_matches self config.
Proof. done. Qed.

Lemma estimate_performance_linear self config k est :
result (estimate_performance self config) = Return est →
result (estimate_performance self
          (with_num_replicas config (k * NodeConfig.num_replicas config)))
= Return (scale_estimate (Qc_of_Z k) est).
Proof.
intros Hest.
assert (∃ r, r ∈ profile self ∧ bundle_mask config r) as Hex.
{ apply resource_bundle_matches_nonempty. intros Hm.
  unfold estimate_performance in Hest. rewrite Hm in Hest. done. }
set (config' := with_num_replicas config (k * NodeConfig.num_replicas config)).
assert (Qc_of_Z (NodeConfig.num_replicas config')
        = Qc_of_Z k * Qc_of_Z (NodeConfig.num_replicas config)) as Hn.
{ simpl. apply Z2Qc_inj_mul. }
destruct (matches_bracket self config Hex) as
  [L e E H Hm HL HE HH|r Q Hm Hr HQ|P r Q Hm HP HQ Hr|P G r0 r1 H Hm HP HG Hr0 Hr1 HH].
- rewrite (estimate_exact self config L e E H) in Hest by done.
  rewrite (estimate_exact self config' L e E H) by done.
  injection Hest as <-. rewrite Hn. unfold scale_estimate; simpl.
  do 2 f_equal; [f_equal|]; ring.
- rewrite (estimate_below self config r Q) in Hest by done.
  rewrite (estimate_below self config' r Q) by done.
  injection Hest as <-. rewrite Hn. unfold scale_estimate; simpl.
  do 2 f_equal; [f_equal|]; ring.
- rewrite (estimate_above self config P r Q) in Hest by done.
  rewrite (estimate_above self config' P r Q) by done.
  injection Hest as <-. rewrite Hn. unfold scale_estimate; simpl.
  do 2 f_equal; [f_equal|]; ring.
- rewrite (estimate_interp self config P G r0 r1 H (Entry.mean_batch_size r0)) in Hest by done.
  rewrite (estimate_interp self config' P G r0 r1 H (Entry.mean_batch_size r0)) by done.
  destruct (decide _); [|done].
  injection Hest as <-. rewrite Hn. unfold scale_estimate; simpl.
  do 2 f_equal; [f_equal|]; ring.
Qed.

Section bracket_facts.
Implicit Types (m L H P Q G : DataFrame) (r : Entry.t) (x : Qc).
Local Abbreviation b := Entry.mean_batch_size.

Lemma below_all x r Q :
  x < b r → Forall (λ s, b r ≤ b s) Q → Forall (λ s, x < b s) (r :: Q).
Proof.
  intros Hr HQ. constructor; [done|]. eapply Forall_impl; [exact HQ|].
  intros s Hs. by eapply Qclt_le_trans.
Qed.

Lemma above_all x P r Q :
  Forall (λ s, b s < b r) P → Forall (λ s, b s = b r) Q → b r < x →
  Forall (λ s, b s < x) (P ++ r :: Q).
Proof.
  intros HP HQ Hr. apply Forall_app. split; [|constructor; [done|]].
  - eapply Forall_impl; [exact HP|]. intros s Hs. exact (Qclt_trans _ _ _ Hs Hr).
  - eapply Forall_impl; [exact HQ|]. by intros s ->.
Qed.

Lemma between_low x g P M :
  Forall (λ s, b s < g) P → Forall (λ s, b s = g) M → g < x →
  Forall (λ s, b s < x) (P ++ M).
Proof.
  intros HP HM Hg. apply Forall_app. split.
  - eapply Forall_impl; [exact HP|]. intros s Hs. exact (Qclt_trans _ _ _ Hs Hg).
  - eapply Forall_impl; [exact HM|]. by intros s ->.
Qed.

Lemma Forall_lt_ne x m r :
  Forall (λ s, b s < x) m → r ∈ m → b r ≠ x.
Proof. rewrite Forall_forall. intros Hm Hr. by apply Qclt_not_eq, Hm. Qed.

Lemma Forall_gt_ne x m r :
  Forall (λ s, x < b s) m → r ∈ m → b r ≠ x.
Proof.
  rewrite Forall_forall. intros Hm Hr Heq.
  apply (Qclt_not_eq x (b r)); [by apply Hm|done].
Qed.

Lemma Forall_lt_not_ge x m r :
  Forall (λ s, b s < x) m → r ∈ m → ¬ x ≤ b r.
Proof. rewrite Forall_forall. intros Hm Hr. by apply Qclt_not_le, Hm. Qed.

Lemma Forall_gt_not_le x m r :
  Forall (λ s, x < b s) m → r ∈ m → ¬ b r ≤ x.
Proof. rewrite Forall_forall. intros Hm Hr. by apply Qclt_not_le, Hm. Qed.
End bracket_facts.

Lemma estimate_performance_exact_row self config r :
  bundle_row self config r →
  Entry.mean_batch_size r = NodeConfig.batch_size config →
  ∃ e, bundle_row self config e
    ∧ Entry.mean_batch_size e = NodeConfig.batch_size config
    ∧ estimate_performance self config
      = mret (Entry.p99_latency e,
              Entry.throughput e * Qc_of_Z (NodeConfig.num_replicas config),
              Entry.cost e * Qc_of_Z (NodeConfig.num_replicas config)).
Proof.
  intros Hr Hbr.
  assert (r ∈ resource_bundle_matches self config) as Hin
    by by apply elem_of_resource_bundle_matches.
  destruct (matches_bracket self config (ex_intro _ r Hr)) as
    [L e E H Hm HL HE HH|r' Q Hm Hr' HQ|P r' Q Hm HP HQ Hr'
    |P G r0 r1 H Hm HP HG Hr0 Hr1 HH].
  - exists e. split_and!.
    + apply elem_of_resource_bundle_matches. rewrite Hm. apply elem_of_middle.
    + by apply Forall_cons in HE as [? _].
    + by apply (estimate_exact self config L e E H).
  - rewrite Hm in Hin. by destruct (Forall_gt_ne _ _ _ (below_all _ _ _ Hr' HQ) Hin).
  - rewrite Hm in Hin. by destruct (Forall_lt_ne _ _ _ (above_all _ _ _ _ HP HQ Hr') Hin).
  - rewrite Hm, (assoc_L (++)) in Hin. apply elem_of_app in Hin as [Hin|Hin].
    + by destruct (Forall_lt_ne _ _ _ (between_low _ _ _ _ HP HG Hr0) Hin).
    + by destruct (Forall_gt_ne _ _ _ (below_all _ _ _ Hr1 HH) Hin).
Qed.

Lemma estimate_performance_between self config g l :
  is_glb self config g → is_lub self config l → g ≠ l →
  ∃ P G r0 r1 H,
    resource_bundle_matches self config = P ++ (G ++ [r0]) ++ r1 :: H
    ∧ Forall (λ s, Entry.mean_batch_size s < g) P
    ∧ Forall (λ s, Entry.mean_batch_size s = g) (G ++ [r0])
    ∧ g < NodeConfig.batch_size config < l
    ∧ Entry.mean_batch_size r1 = l
    ∧ Forall (λ s, l ≤ Entry.mean_batch_size s) H.
Proof.
  intros ((rg & Hrg & Hbg) & Hgx & Hglb) ((rl & Hrl & Hbl) & Hxl & Hlub) Hne.
  assert (∀ r, r ∈ resource_bundle_matches self config → bundle_row self config r)
    as Hrow by (intros r; apply elem_of_resource_bundle_matches).
  apply elem_of_resource_bundle_matches in Hrg as Hing.
  apply elem_of_resource_bundle_matches in Hrl as Hinl.
  destruct (matches_bracket self config (ex_intro _ rg Hrg)) as
    [L e E H Hm HL HE HH|r' Q Hm Hr' HQ|P r' Q Hm HP HQ Hr'
    |P G r0 r1 H Hm HP HG Hr0 Hr1 HH].
  - (* a row sits exactly at the batch size: then g = x = l *)
    assert (e ∈ resource_bundle_matches self config) as Hine
      by (rewrite Hm; apply elem_of_middle).
    apply Forall_cons in HE as [He _].
    destruct Hne. apply Qcle_antisym; [by etrans|].
    etrans; [apply (Hlub e (Hrow e Hine)); rewrite He; apply Qcle_refl|].
    apply (Hglb e (Hrow e Hine)). rewrite He. apply Qcle_refl.
  - rewrite Hm in Hing.
    destruct (Forall_gt_not_le _ _ _ (below_all _ _ _ Hr' HQ) Hing).
    by rewrite Hbg.
  - rewrite Hm in Hinl.
    destruct (Forall_lt_not_ge _ _ _ (above_all _ _ _ _ HP HQ Hr') Hinl).
    by rewrite Hbl.
  - pose proof (between_low _ _ _ _ HP HG Hr0) as Hlow.
    pose proof (below_all _ _ _ Hr1 HH) as Hhigh.
    assert (r0 ∈ resource_bundle_matches self config) as Hin0
      by (rewrite Hm; apply elem_of_group_last).
    assert (r1 ∈ resource_bundle_matches self config) as Hin1
      by (rewrite Hm; apply elem_of_group_next).
    assert (g = Entry.mean_batch_size r0) as Hg.
    { apply Qcle_antisym; [|by apply Hglb; [apply Hrow|apply Qclt_le_weak]].
      rewrite Hm, (assoc_L (++)) in Hing. apply elem_of_app in Hing as [Hing|Hing].
      - apply elem_of_app in Hing as [Hing|Hing].
        + rewrite Forall_forall in HP. rewrite <-Hbg. by apply Qclt_le_weak, HP.
        + rewrite Forall_forall in HG. rewrite <-Hbg, (HG _ Hing). apply Qcle_refl.
      - destruct (Forall_gt_not_le _ _ _ Hhigh Hing). by rewrite Hbg. }
    assert (l = Entry.mean_batch_size r1) as Hl.
    { apply Qcle_antisym; [by apply Hlub; [apply Hrow|apply Qclt_le_weak]|].
      rewrite Hm, (assoc_L (++)) in Hinl. apply elem_of_app in Hinl as [Hinl|Hinl].
      - destruct (Forall_lt_not_ge _ _ _ Hlow Hinl). by rewrite Hbl.
      - apply elem_of_cons in Hinl as [->|Hinl]; [rewrite Hbl; apply Qcle_refl|].
        rewrite Forall_forall in HH. rewrite <-Hbl. by apply HH. }
    exists P, G, r0, r1, H. rewrite Hg, Hl. done.
Qed.

Lemma all_positive_np_diff l : all_positive (np_diff l) ↔ strictly_increasing l.
Proof.
  unfold all_positive, np_diff, strictly_increasing.
  induction l as [|a l IH]; simpl.
  - split; [by intros _ i a c ?|constructor].
  - destruct l as [|c l]; simpl in *.
    + split; [by intros _ [|i] ?? ??|constructor].
    + rewrite Forall_cons, IH. unfold Qcminus. rewrite <-Qclt_minus_iff. split.
      * intros [Hac Hl] [|i] a' c' Ha Hc; simplify_eq/=; [done|].
        by apply (Hl i).
      * intros Hl. split.
        -- by apply (Hl 0%nat).
        -- intros i a' c' Ha Hc. by apply (Hl (S i)).
Qed.

Lemma estimate_interp_increasing self config P G r0 r1 H :
  resource_bundle_matches self config = P ++ (G ++ [r0]) ++ r1 :: H →
  Forall (λ s, Entry.mean_batch_size s < Entry.mean_batch_size r0) P →
  Forall (λ s, Entry.mean_batch_size s = Entry.mean_batch_size r0) (G ++ [r0]) →
  Entry.mean_batch_size r0 < NodeConfig.batch_size config →
  NodeConfig.batch_size config < Entry.mean_batch_size r1 →
  let x := NodeConfig.batch_size config in
  let n := Qc_of_Z (NodeConfig.num_replicas config) in
  (strictly_increasing (Entry.throughput <$> G ++ [r0; r1])
   ∧ strictly_increasing (Entry.p99_latency <$> G ++ [r0; r1]) →
   estimate_performance self config
   = mret
       (lerp x (Entry.mean_batch_size r0) (Entry.p99_latency r0)
               (Entry.mean_batch_size r1) (Entry.p99_latency r1),
        lerp x (Entry.mean_batch_size r0) (Entry.throughput r0)
               (Entry.mean_batch_size r1) (Entry.throughput r1) * n,
        Entry.cost (default r0 (head G)) * n))
  ∧ (¬ (strictly_increasing (Entry.throughput <$> G ++ [r0; r1])
        ∧ strictly_increasing (Entry.p99_latency <$> G ++ [r0; r1])) →
     estimate_performance self config = raise AssertionError).
Proof.
  intros Hm HP HG Hr0 Hr1 x n.
  assert (Forall (λ s, Entry.mean_batch_size r1 ≤ Entry.mean_batch_size s) H) as HH.
  { pose proof (resource_bundle_matches_sorted self config) as Hs.
    rewrite Hm, (assoc_L (++)) in Hs. apply StronglySorted_app_1_r in Hs.
    by apply StronglySorted_cons in Hs as [? _]. }
  rewrite (estimate_interp self config P G r0 r1 H (Entry.mean_batch_size r0))
    by done.
  rewrite <-!all_positive_np_diff. fold x n.
  split; intros Hinc.
  - by rewrite decide_True.
  - by rewrite decide_False.
Qed.

(** ** Bundles with pairwise distinct batch sizes *)

Section distinct.
Implicit Types (m P G H Q : DataFrame) (r : Entry.t).
Local Abbreviation b := Entry.mean_batch_size.

Lemma NoDup_fmap_elem_inj {A B} (f : A → B) (l : list A) x y :
  NoDup (f <$> l) → x ∈ l → y ∈ l → f x = f y → x = y.
Proof.
  induction l as [|a l IH]; intros Hnd Hx Hy Hf; [by apply elem_of_nil in Hx|].
  rewrite fmap_cons in Hnd. apply NoDup_cons in Hnd as [Ha Hnd].
  apply elem_of_cons in Hx as [->|Hx]; apply elem_of_cons in Hy as [->|Hy].
  - done.
  - destruct Ha. rewrite Hf. by apply list_elem_of_fmap_2.
  - destruct Ha. rewrite <-Hf. by apply list_elem_of_fmap_2.
  - by apply IH.
Qed.

(** Two sorted arrangements of the same rows are equal when the batch
    sizes are pairwise distinct. *)
Lemma sorted_unique (l1 l2 : DataFrame) :
  NoDup (b <$> l1) →
  StronglySorted batch_le l1 → StronglySorted batch_le l2 →
  l1 ≡ₚ l2 → l1 = l2.
Proof.
  revert l2. induction l1 as [|a l1 IH]; intros l2 Hnd Hs1 Hs2 Hperm.
  { by apply Permutation_nil_l in Hperm. }
  destruct l2 as [|c l2]; [by apply Permutation_nil_r in Hperm|].
  apply StronglySorted_cons in Hs1 as [Ha Hs1].
  apply StronglySorted_cons in Hs2 as [Hc Hs2].
  rewrite Forall_forall in Ha, Hc.
  assert (c ∈ a :: l1) as Hc1 by (rewrite Hperm; by left).
  assert (a ∈ c :: l2) as Ha2 by (rewrite <-Hperm; by left).
  assert (b a ≤ b c) as Hac.
  { apply elem_of_cons in Hc1 as [->|Hc1]; [apply Qcle_refl|by apply Ha]. }
  assert (b c ≤ b a) as Hca.
  { apply elem_of_cons in Ha2 as [->|Ha2]; [apply Qcle_refl|by apply Hc]. }
  assert (a = c) as <-.
  { apply (NoDup_fmap_elem_inj b (a :: l1)); [done|by left|done|].
    by apply Qcle_antisym. }
  f_equal. apply IH; [|done|done|by apply Permutation_cons_inv in Hperm].
  rewrite fmap_cons in Hnd. by apply NoDup_cons in Hnd as [_ ?].
Qed.

(** On a frame with pairwise distinct batch sizes every sorting algorithm
    gives the frame of [sort_values]. *)
Lemma sort_values_unique (df df' : DataFrame) :
  NoDup (b <$> df) → df' ≡ₚ df → StronglySorted batch_le df' →
  df' = sort_values df.
Proof.
  intros Hnd Hperm Hs. apply sorted_unique; [by rewrite Hperm|done| |].
  - apply sort_values_sorted.
  - by rewrite sort_values_perm.
Qed.

Lemma distinct_matches self config :
  distinct_batch_sizes self config →
  NoDup (b <$> resource_bundle_matches self config).
Proof.
  unfold distinct_batch_sizes, resource_bundle_matches.
  by rewrite sort_values_perm.
Qed.

Lemma group_distinct m P G r0 Q :
  m = P ++ (G ++ [r0]) ++ Q →
  Forall (λ s, b s = b r0) (G ++ [r0]) →
  NoDup (b <$> m) → G = [].
Proof.
  intros -> HG Hnd. destruct G as [|g G]; [done|].
  rewrite !fmap_app in Hnd. apply NoDup_app in Hnd as (_ & _ & Hnd).
  apply NoDup_app in Hnd as (Hnd & _ & _).
  rewrite <-fmap_app in Hnd. simpl in Hnd.
  apply NoDup_cons in Hnd as [Hg _]. destruct Hg.
  apply Forall_cons in HG as [-> _].
  apply list_elem_of_fmap_2, elem_of_app. right. by left.
Qed.

Lemma strictly_increasing_pair (a c : Qc) : strictly_increasing [a; c] ↔ a < c.
Proof.
  unfold strictly_increasing. split.
  - intros Hinc. by apply (Hinc 0%nat a c).
  - intros Hac [|[|i]] a' c' Ha Hc; by simplify_eq/=.
Qed.

(** Between two profiled batch sizes of a bundle with pairwise distinct
    batch sizes: the interpolation between the two rows, or the failed
    assertion. *)
Lemma estimate_performance_between_distinct self config r0 r1 :
  distinct_batch_sizes self config →
  bundle_row self config r0 → bundle_row self config r1 →
  is_glb self config (b r0) → is_lub self config (b r1) →
  b r0 < NodeConfig.batch_size config < b r1 →
  (Entry.throughput r0 < Entry.throughput r1
   ∧ Entry.p99_latency r0 < Entry.p99_latency r1 →
   estimate_performance self config
   = mret
       (lerp (NodeConfig.batch_size config)
             (b r0) (Entry.p99_latency r0) (b r1) (Entry.p99_latency r1),
        lerp (NodeConfig.batch_size config)
             (b r0) (Entry.throughput r0) (b r1) (Entry.throughput r1)
        * Qc_of_Z (NodeConfig.num_replicas config),
        Entry.cost r0 * Qc_of_Z (NodeConfig.num_replicas config)))
  ∧ (¬ (Entry.throughput r0 < Entry.throughput r1
        ∧ Entry.p99_latency r0 < Entry.p99_latency r1) →
     estimate_performance self config = raise AssertionError).
Proof.
  intros Hnd%distinct_matches Hr0 Hr1 Hg Hl [Hgx Hxl].
  destruct (estimate_performance_between self config (b r0) (b r1) Hg Hl)
    as (P & G & r0' & r1' & H & Hm & HP & HG & _ & Hb1 & HH).
  { intros Heq. rewrite Heq in Hgx. by apply (Qclt_asym _ _ Hgx). }
  assert (b r0' = b r0) as Hb0.
  { apply Forall_app in HG as [_ HG]. by apply Forall_cons in HG as [? _]. }
  assert (G = []) as ->.
  { apply (group_distinct _ P G r0' (r1' :: H) Hm); [|done].
    by rewrite Hb0. }
  apply elem_of_resource_bundle_matches in Hr0, Hr1.
  assert (r0' = r0) as ->.
  { apply (NoDup_fmap_elem_inj b _ _ _ Hnd); [|done|done].
    rewrite Hm. apply elem_of_group_last. }
  assert (r1' = r1) as ->.
  { apply (NoDup_fmap_elem_inj b _ _ _ Hnd); [|done|done].
    rewrite Hm. apply elem_of_group_next. }
  pose proof (estimate_interp_increasing self config P [] r0 r1 H Hm HP HG
                Hgx Hxl) as Hest.
  simpl in Hest. by rewrite !strictly_increasing_pair in Hest.
Qed.

End distinct.

(** ** check_monotonicity *)

Section monotonicity.
Implicit Types (m : DataFrame) (r : Entry.t).
Local Abbreviation b := Entry.mean_batch_size.











End monotonicity.

(** C3 (as amended).  For a config whose resource bundle matches at least
    one profiled row:
    - when the profiled batch sizes of the bundle are pairwise distinct and
      the batch size [x] of the config lies strictly between the batch size
      of the row [r0] of greatest batch size [<= x] and that of the row
      [r1] of least batch size [>= x]: if throughput and p99 latency are
      both strictly greater in [r1] than in [r0], [estimate_performance]
      returns the latency and the throughput linearly interpolated between
      [r0] and [r1] at [x] (throughput times the replica count) and the
      cost of [r0] times the replica count; if not, it raises
      AssertionError;
    - if [x] equals a profiled batch size of the bundle, it returns the
      latency, the throughput times the replica count and the cost times the
      replica count of a row of that batch size. *)
Theorem estimate_performance_interpolation self config :
  (∃ r, bundle_row self config r) →
  (distinct_batch_sizes self config →
   ∀ r0 r1, bundle_row self config r0 → bundle_row self config r1 →
     is_glb self config (Entry.mean_batch_size r0) →
     is_lub self config (Entry.mean_batch_size r1) →
     Entry.mean_batch_size r0 < NodeConfig.batch_size config
       < Entry.mean_batch_size r1 →
     (Entry.throughput r0 < Entry.throughput r1
      ∧ Entry.p99_latency r0 < Entry.p99_latency r1 →
      estimate_performance self config
      = mret
          (lerp (NodeConfig.batch_size config)
                (Entry.mean_batch_size r0) (Entry.p99_latency r0)
                (Entry.mean_batch_size r1) (Entry.p99_latency r1),
           lerp (NodeConfig.batch_size config)
                (Entry.mean_batch_size r0) (Entry.throughput r0)
                (Entry.mean_batch_size r1) (Entry.throughput r1)
           * Qc_of_Z (NodeConfig.num_replicas config),
           Entry.cost r0 * Qc_of_Z (NodeConfig.num_replicas config)))
     ∧ (¬ (Entry.throughput r0 < Entry.throughput r1
           ∧ Entry.p99_latency r0 < Entry.p99_latency r1) →
        estimate_performance self config = raise AssertionError))
  ∧ (∀ r, bundle_row self config r →
     Entry.mean_batch_size r = NodeConfig.batch_size config →
     ∃ e, bundle_row self config e
       ∧ Entry.mean_batch_size e = NodeConfig.batch_size config
       ∧ estimate_performance self config
         = mret (Entry.p99_latency e,
                 Entry.throughput e * Qc_of_Z (NodeConfig.num_replicas config),
                 Entry.cost e * Qc_of_Z (NodeConfig.num_replicas config))).
Proof.
  intros _. split.
  - intros Hnd r0 r1 Hr0 Hr1 Hg Hl Hx.
    by apply estimate_performance_between_distinct.
  - apply estimate_performance_exact_row.
Qed.

(** C5.  Below the smallest profiled batch size of the bundle the estimate
    is that of a row of smallest batch size (throughput and cost times the
    replica count), and nothing is printed: the source prints its warning
    only on the branch above the largest profiled batch size. *)
Theorem estimate_performance_below_minimum self config :
  (∃ r, bundle_row self config r) →
  (∀ r, bundle_row self config r →
     NodeConfig.batch_size config < Entry.mean_batch_size r) →
  ∃ r0, bundle_row self config r0
    ∧ (∀ r, bundle_row self config r →
         Entry.mean_batch_size r0 ≤ Entry.mean_batch_size r)
    ∧ estimate_performance self config
      = ([], Return
          (Entry.p99_latency r0,
           Entry.throughput r0 * Qc_of_Z (NodeConfig.num_replicas config),
           Entry.cost r0 * Qc_of_Z (NodeConfig.num_replicas config))).
Proof.
  intros Hex Hall.
  assert (∀ r, r ∈ resource_bundle_matches self config →
               NodeConfig.batch_size config < Entry.mean_batch_size r) as Hall'.
  { intros r Hr. by apply Hall, elem_of_resource_bundle_matches. }
  destruct (matches_bracket self config Hex) as
    [L e E H Hm HL HE HH|r' Q Hm Hr' HQ|P r' Q Hm HP HQ Hr'
    |P G r0 r1 H Hm HP HG Hr0 Hr1 HH].
  - apply Forall_cons in HE as [He _].
    assert (e ∈ resource_bundle_matches self config) as Hine
      by (rewrite Hm; apply elem_of_middle).
    by destruct (Qclt_not_eq _ _ (Hall' e Hine)).
  - exists r'. split_and!.
    + apply elem_of_resource_bundle_matches. rewrite Hm. by left.
    + intros r Hr. apply elem_of_resource_bundle_matches in Hr.
      rewrite Hm in Hr. apply elem_of_cons in Hr as [->|Hr]; [apply Qcle_refl|].
      rewrite Forall_forall in HQ. by apply HQ.
    + by apply (estimate_below self config r' Q).
  - destruct (Qclt_asym _ _ Hr'). apply Hall'. rewrite Hm. apply elem_of_middle.
  - destruct (Qclt_asym _ _ Hr0). apply Hall'. rewrite Hm.
    apply elem_of_group_last.
Qed.


(** C9 (as amended).  [estimate_performance] raises its "No profiles for
    node" exception if and only if no profiled row matches the resource
    bundle of the config (gpu type, cpus per replica, cloud); with at least
    one matching row the only exception it can raise is the AssertionError
    of the interpolation branch. *)
Theorem estimate_performance_no_profiles self config :
  (result (estimate_performance self config) = Raise NoProfiles
   ↔ ¬ ∃ r, r ∈ profile self ∧ bundle_mask config r)
  ∧ ((∃ r, r ∈ profile self ∧ bundle_mask config r) →
     ∀ e, result (estimate_performance self config) = Raise e →
          e = AssertionError).
Proof.
  assert ((∃ r, r ∈ profile self ∧ bundle_mask config r) →
          ∀ e, result (estimate_performance self config) = Raise e →
               e = AssertionError) as Hmatch.
  { intros Hex e He.
    destruct (matches_bracket self config Hex) as
      [L e' E H Hm HL HE HH|r' Q Hm Hr' HQ|P r' Q Hm HP HQ Hr'
      |P G r0 r1 H Hm HP HG Hr0 Hr1 HH].
    - by rewrite (estimate_exact self config L e' E H) in He.
    - by rewrite (estimate_below self config r' Q) in He.
    - by rewrite (estimate_above self config P r' Q) in He.
    - rewrite (estimate_interp self config P G r0 r1 H
                 (Entry.mean_batch_size r0)) in He by done.
      destruct (decide _); [done|]. by injection He. }
  split; [split|done].
  - intros Hres Hex. by specialize (Hmatch Hex _ Hres).
  - intros Hnex. unfold estimate_performance.
    rewrite decide_True; [done|].
    destruct (resource_bundle_matches self config) eqn:Hm; [done|].
    destruct Hnex. apply resource_bundle_matches_nonempty. by rewrite Hm.
Qed.

(** C7.  When [estimate_performance] succeeds on a config, doubling the
    replica count doubles the returned throughput and cost and leaves the
    latency unchanged; more generally multiplying the replica count by [k]
    multiplies throughput and cost by [k]. *)
Theorem estimate_performance_replica_scaling self config lat thru cost :
  result (estimate_performance self config) = Return (lat, thru, cost) →
  result (estimate_performance self
            (with_num_replicas config (2 * NodeConfig.num_replicas config)))
  = Return (lat, 2 * thru, 2 * cost)
  ∧ ∀ k : Z,
      result (estimate_performance self
                (with_num_replicas config (k * NodeConfig.num_replicas config)))
      = Return (lat, Qc_of_Z k * thru, Qc_of_Z k * cost).
Proof.
  intros Hest. split.
  - rewrite (estimate_performance_linear self config 2 _ Hest).
    unfold scale_estimate. by rewrite Z2Qc_inj_2.
  - intros k. by rewrite (estimate_performance_linear self config k _ Hest).
Qed.

(** C4 (as amended).  [increase_batch_size] returns without raising.  It
    returns a copy of the config whose batch size is the smallest batch size
    profiled in the same resource bundle that is greater than or equal to
    [floor(config.batch_size) + 1], all other fields unchanged; it returns
    the failure value when no profiled batch size of the bundle reaches
    [floor(config.batch_size) + 1]. *)
Theorem increase_batch_size_next self config :
  ∃ res, increase_batch_size self config = mret res ∧
    match res with
    | None =>
        ∀ r, bundle_row self config r →
          Entry.mean_batch_size r
          < Qc_of_Z (floor (NodeConfig.batch_size config) + 1)
    | Some new_config =>
        (∃ r, bundle_row self config r
           ∧ NodeConfig.batch_size new_config = Entry.mean_batch_size r
           ∧ Qc_of_Z (floor (NodeConfig.batch_size config) + 1)
             ≤ Entry.mean_batch_size r
           ∧ ∀ r', bundle_row self config r' →
               Qc_of_Z (floor (NodeConfig.batch_size config) + 1)
               ≤ Entry.mean_batch_size r' →
               Entry.mean_batch_size r ≤ Entry.mean_batch_size r')
        ∧ NodeConfig.name new_config = NodeConfig.name config
        ∧ NodeConfig.num_cpus new_config = NodeConfig.num_cpus config
        ∧ NodeConfig.gpu_type new_config = NodeConfig.gpu_type config
        ∧ NodeConfig.num_replicas new_config = NodeConfig.num_replicas config
        ∧ NodeConfig.cloud new_config = NodeConfig.cloud config
    end.
Proof.
  set (t := Qc_of_Z (floor (NodeConfig.batch_size config) + 1)).
  unfold increase_batch_size. cbv zeta. fold t.
  pose proof (resource_bundle_matches_sorted self config) as Hs.
  assert (∀ r, bundle_row self config r ↔ r ∈ resource_bundle_matches self config)
    as Hrow by (intros r; symmetry; apply elem_of_resource_bundle_matches).
  destruct (sorted_split_lt t _ Hs) as (L & R & Hm & HL & HR).
  rewrite Hm in *. destruct R as [|r Q].
  - rewrite app_nil_r in *. rewrite (idx_lub_none _ _ HL).
    rewrite decide_True by done. exists None. split; [done|].
    intros r Hr. rewrite Forall_forall in HL. by apply HL, Hrow.
  - apply Forall_cons in HR as [Hr HQ].
    apply StronglySorted_app_1_r, StronglySorted_cons in Hs as [Hle _].
    destruct (idx_lub_eval t L r Q HL Hr Hle) as [Hsum Hidx].
    rewrite decide_False by lia. rewrite Hidx. simpl.
    rewrite loc_middle. simpl.
    exists (Some (with_batch_size config (Entry.mean_batch_size r))).
    split; [done|]. split_and!; try done.
    exists r. split_and!; [apply Hrow, elem_of_middle|done|done|].
    intros r' Hr' Ht. apply Hrow in Hr'.
    apply elem_of_app in Hr' as [Hr'|Hr'].
    + by destruct (Forall_lt_not_ge _ _ _ HL Hr').
    + apply elem_of_cons in Hr' as [->|Hr']; [apply Qcle_refl|].
      rewrite Forall_forall in Hle. by apply Hle.
Qed.

(** ** Examples, counterexamples and instances *)

Lemma is_glb_Forall self config g :
  Exists (λ r, bundle_mask config r ∧ Entry.mean_batch_size r = g) (profile self) →
  g ≤ NodeConfig.batch_size config →
  Forall (λ r, bundle_mask config r →
               Entry.mean_batch_size r ≤ NodeConfig.batch_size config →
               Entry.mean_batch_size r ≤ g) (profile self) →
  is_glb self config g.
Proof.
  rewrite Exists_exists, Forall_forall. intros (r & Hr & Hm & Hb) Hg Hall.
  split_and!; [by exists r|done|]. intros r' [Hr' Hm']. by apply Hall.
Qed.

Lemma is_lub_Forall self config l :
  Exists (λ r, bundle_mask config r ∧ Entry.mean_batch_size r = l) (profile self) →
  NodeConfig.batch_size config ≤ l →
  Forall (λ r, bundle_mask config r →
               NodeConfig.batch_size config ≤ Entry.mean_batch_size r →
               l ≤ Entry.mean_batch_size r) (profile self) →
  is_lub self config l.
Proof.
  rewrite Exists_exists, Forall_forall. intros (r & Hr & Hm & Hb) Hg Hall.
  split_and!; [by exists r|done|]. intros r' [Hr' Hm']. by apply Hall.
Qed.

(** The examples of the specification: interpolation at the midpoint, an
    exact match, and the range boundaries. *)
Example estimate_midpoint :
  estimate_performance rising_profile (example_config 15 1)
  = mret (Qc_of_Z 3 / 2, Qc_of_Z 150, Qc_of_Z 2).
Proof. by_compute. Qed.

Example estimate_exact_match :
  estimate_performance rising_profile (example_config 20 3)
  = mret (Qc_of_Z 2, Qc_of_Z 600, Qc_of_Z 6).
Proof. by_compute. Qed.

Example estimate_above_range :
  estimate_performance rising_profile (example_config 25 1)
  = ([WarningNoHigherBatchSize (example_config 25 1)],
     Return (Qc_of_Z 2, Qc_of_Z 200, Qc_of_Z 2)).
Proof. by_compute. Qed.

(** C1, counterexample to the rule as stated: row [i] is retained although
    another row [j] has throughput at least, cost at most and latency at
    most that of [i]. *)
Lemma prune_profile_keeps_tied_row :
  prune_profile [example_row 1 10 1 2; example_row 2 10 1 1]
  = [example_row 1 10 1 2; example_row 2 10 1 1]
  ∧ example_row 2 10 1 1 ≠ example_row 1 10 1 2
  ∧ Entry.throughput (example_row 1 10 1 2) ≤ Entry.throughput (example_row 2 10 1 1)
  ∧ Entry.cost (example_row 2 10 1 1) ≤ Entry.cost (example_row 1 10 1 2)
  ∧ Entry.p99_latency (example_row 2 10 1 1) ≤ Entry.p99_latency (example_row 1 10 1 2).
Proof. by_compute. Qed.

(** C3, counterexample: the batch size 15 lies strictly between the
    profiled batch sizes 10 and 20, yet no interpolated estimate is
    returned. *)
Lemma estimate_performance_plateau_raises :
  profile plateau_profile = [example_row 10 100 1 2; example_row 20 100 2 2]
  ∧ bundle_mask (example_config 15 1) (example_row 10 100 1 2)
  ∧ bundle_mask (example_config 15 1) (example_row 20 100 2 2)
  ∧ Qc_of_Z 10 < NodeConfig.batch_size (example_config 15 1) < Qc_of_Z 20
  ∧ result (estimate_performance plateau_profile (example_config 15 1))
    = Raise AssertionError.
Proof. by_compute. Qed.


(** C9, counterexample: two profiled rows match the bundle of the config and
    an exception is raised all the same. *)
Lemma estimate_performance_raises_with_matches :
  bundle_row falling_throughput_profile (example_config 12 1)
    (example_row 10 100 1 2)
  ∧ bundle_row falling_throughput_profile (example_config 12 1)
      (example_row 20 90 2 2)
  ∧ ∃ e, result (estimate_performance falling_throughput_profile
                   (example_config 12 1)) = Raise e.
Proof. split_and!; [by_compute..|]. exists AssertionError. by_compute. Qed.

(** C4, counterexample: the only profiled batch size, 3, is not strictly
    greater than [floor(2) + 1 = 3], and the batch size is increased to it
    all the same. *)
Lemma increase_batch_size_reaches_floor_plus_one :
  increase_batch_size single_profile (example_config 2 1)
  = mret (Some (with_batch_size (example_config 2 1) (Qc_of_Z 3)))
  ∧ Forall (λ r, ¬ Qc_of_Z (floor (NodeConfig.batch_size (example_config 2 1)) + 1)
                   < Entry.mean_batch_size r)
      (profile single_profile).
Proof. by_compute. Qed.

(** C3, instance: batch size 15 between the profiled batch sizes 10 and 20
    of [rising_profile], with three replicas. *)
Lemma estimate_performance_interpolation_witness :
  (∃ r, bundle_row rising_profile (example_config 15 3) r)
  ∧ distinct_batch_sizes rising_profile (example_config 15 3)
  ∧ is_glb rising_profile (example_config 15 3) (Qc_of_Z 10)
  ∧ is_lub rising_profile (example_config 15 3) (Qc_of_Z 20)
  ∧ estimate_performance rising_profile (example_config 15 3)
    = mret (lerp (Qc_of_Z 15) (Qc_of_Z 10) 1 (Qc_of_Z 20) 2,
            lerp (Qc_of_Z 15) (Qc_of_Z 10) (Qc_of_Z 100)
                 (Qc_of_Z 20) (Qc_of_Z 200) * Qc_of_Z 3,
            2 * Qc_of_Z 3).
Proof.
  assert (∃ r, bundle_row rising_profile (example_config 15 3) r) as Hex.
  { exists (example_row 10 100 1 2). by_compute. }
  assert (distinct_batch_sizes rising_profile (example_config 15 3)) as Hnd
    by by_compute.
  assert (is_glb rising_profile (example_config 15 3) (Qc_of_Z 10)) as Hg.
  { apply is_glb_Forall; by_compute. }
  assert (is_lub rising_profile (example_config 15 3) (Qc_of_Z 20)) as Hl.
  { apply is_lub_Forall; by_compute. }
  split_and!; [done..|].
  refine (proj1 (proj1 (estimate_performance_interpolation rising_profile
                          (example_config 15 3) Hex)
                   Hnd (example_row 10 100 1 2) (example_row 20 200 2 2)
                   _ _ Hg Hl _) _); by_compute.
Defined.

(** C5, instance: batch size 2 below the only profiled batch size 3. *)
Lemma estimate_performance_below_minimum_witness :
  (∃ r, bundle_row single_profile (example_config 2 1) r)
  ∧ (∀ r, bundle_row single_profile (example_config 2 1) r →
       NodeConfig.batch_size (example_config 2 1) < Entry.mean_batch_size r)
  ∧ ∃ r0, bundle_row single_profile (example_config 2 1) r0
      ∧ (∀ r, bundle_row single_profile (example_config 2 1) r →
           Entry.mean_batch_size r0 ≤ Entry.mean_batch_size r)
      ∧ estimate_performance single_profile (example_config 2 1)
        = ([], Return
            (Entry.p99_latency r0,
             Entry.throughput r0
             * Qc_of_Z (NodeConfig.num_replicas (example_config 2 1)),
             Entry.cost r0
             * Qc_of_Z (NodeConfig.num_replicas (example_config 2 1)))).
Proof.
  assert (∃ r, bundle_row single_profile (example_config 2 1) r) as Hex.
  { exists (example_row 3 30 1 2). by_compute. }
  assert (∀ r, bundle_row single_profile (example_config 2 1) r →
            NodeConfig.batch_size (example_config 2 1) < Entry.mean_batch_size r)
    as Hall.
  { intros r [Hr _]. revert r Hr. apply Forall_forall. by_compute. }
  split_and!; [done..|].
  exact (estimate_performance_below_minimum single_profile
           (example_config 2 1) Hex Hall).
Defined.

Example estimate_below_range_silent :
  estimate_performance single_profile (example_config 2 1)
  = ([], Return (Qc_of_Z 1, Qc_of_Z 30, Qc_of_Z 2)).
Proof. by_compute. Qed.


(** C7, instance: three replicas doubled to six. *)
Lemma estimate_performance_replica_scaling_witness :
  result (estimate_performance rising_profile (example_config 15 3))
  = Return (Qc_of_Z 3 / 2, Qc_of_Z 450, Qc_of_Z 6)
  ∧ result (estimate_performance rising_profile
              (with_num_replicas (example_config 15 3) (2 * 3)))
    = Return (Qc_of_Z 3 / 2, 2 * Qc_of_Z 450, 2 * Qc_of_Z 6).
Proof.
  assert (result (estimate_performance rising_profile (example_config 15 3))
          = Return (Qc_of_Z 3 / 2, Qc_of_Z 450, Qc_of_Z 6)) as Hest
    by by_compute.
  split; [done|].
  exact (proj1 (estimate_performance_replica_scaling rising_profile
                  (example_config 15 3) _ _ _ Hest)).
Defined.

(** ** Path enumeration *)

Section graph.
Context (adj : gmap string (list string)).
Implicit Types (u v : string) (p : list string) (ps : list (list string)).
Local Abbreviation paths_from := (paths_from adj).

Lemma walk_head u p : walk adj u p → head p = Some u.
Proof. by destruct 1. Qed.

Lemma walk_sink_inv p : walk adj SINK p ↔ p = [SINK].
Proof.
  split; [|intros ->; constructor]. by inversion 1.
Qed.

Lemma walk_step_inv u p children :
  u ≠ SINK → adj !! u = Some children →
  walk adj u p ↔ ∃ v p', p = u :: p' ∧ v ∈ children ∧ walk adj v p'.
Proof.
  intros Hu Hadj. split.
  - inversion 1 as [|u' v cs p' _ Hcs Hv Hw]; simplify_eq. by exists v, p'.
  - intros (v & p' & -> & Hv & Hw). by econstructor.
Qed.

Lemma keys_length (l : list string) :
  NoDup l → (∀ x, x ∈ l → is_Some (adj !! x)) → (length l ≤ size adj)%nat.
Proof.
  intros Hnd Hkeys. rewrite <-length_map_to_list.
  rewrite <-(length_fmap fst (map_to_list adj)).
  apply submseteq_length, NoDup_submseteq; [done|].
  intros x Hx. destruct (Hkeys x Hx) as [cs Hcs].
  apply list_elem_of_fmap. exists (x, cs). split; [done|].
  by apply elem_of_map_to_list.
Qed.

Lemma tc_edge_key u v : tc (edge adj) u v → is_Some (adj !! u).
Proof. destruct 1 as [?? (cs & -> & _)|??? (cs & -> & _)]; by eexists. Qed.

Lemma for_each_paths (body : string → outcome (list (list string)))
    (f : list string → list string) children :
  (∀ v, v ∈ children → ∃ ps, body v = Return (f <$> ps) ∧ paths_from v ps) →
  ∃ pss, for_each body children = Return (f <$> concat pss)
       ∧ Forall2 paths_from children pss.
Proof.
  induction children as [|v children IH]; intros Hbody; simpl.
  - by exists [].
  - destruct (Hbody v) as (ps & Hps & Hfrom); [by left|].
    destruct IH as (pss & Hpss & Hall).
    { intros v' Hv'. apply Hbody. by right. }
    exists (ps :: pss). rewrite Hps, Hpss. simpl.
    split; [by rewrite fmap_app|by constructor].
Qed.

Lemma concat_paths children pss :
  Forall2 paths_from children pss → NoDup children →
  NoDup (concat pss) ∧ ∀ p, p ∈ concat pss ↔ ∃ v, v ∈ children ∧ walk adj v p.
Proof.
  induction 1 as [|v ps children pss [Hnd Hps] _ IH]; intros Hcs; simpl.
  - split; [constructor|]. intros p. split; [by intros ?%elem_of_nil|].
    by intros (v & ?%elem_of_nil & _).
  - apply NoDup_cons in Hcs as [Hv Hcs]. destruct (IH Hcs) as [IHnd IHps].
    split.
    + apply NoDup_app. split_and!; [done| |done].
      intros p Hp Hp'. apply Hps in Hp. apply IHps in Hp' as (v' & Hv' & Hw').
      apply walk_head in Hp, Hw'. by simplify_eq.
    + intros p. rewrite elem_of_app, Hps, IHps. split.
      * intros [Hw|(v' & Hv' & Hw)]; [exists v|exists v']; split; auto; by constructor.
      * intros (v' & [->|Hv']%elem_of_cons & Hw); [by left|right; by exists v'].
Qed.

Lemma search_paths limit anc current_path u :
  acyclic adj →
  (∀ w children v, adj !! w = Some children → v ∈ children → is_Some (adj !! v)) →
  (∀ w children, adj !! w = Some children → NoDup children) →
  NoDup anc → Forall (λ a, tc (edge adj) a u) anc → is_Some (adj !! u) →
  (size adj ≤ length anc + limit)%nat →
  ∃ ps, search limit adj current_path u = Return ((current_path ++.) <$> ps)
      ∧ paths_from u ps.
Proof.
  intros Hacyc Hclosed Hchildren.
  revert anc current_path u.
  induction limit as [|limit IH]; intros anc current_path u Hnd Hanc Hu Hsize.
  - exfalso.
    assert (NoDup (anc ++ [u])) as Hnd'.
    { apply NoDup_app. split_and!; [done| |apply NoDup_singleton].
      intros a Ha ->%list_elem_of_singleton.
      rewrite Forall_forall in Hanc. by apply (Hacyc u), Hanc. }
    apply keys_length in Hnd'.
    + rewrite length_app in Hnd'. simpl in Hnd'. lia.
    + intros x [Hx| ->%list_elem_of_singleton]%elem_of_app; [|done].
      rewrite Forall_forall in Hanc. by eapply tc_edge_key, Hanc.
  - simpl. destruct (decide (u = SINK)) as [->|Hne].
    + exists [[SINK]]. split; [done|]. split; [apply NoDup_singleton|].
      intros p. by rewrite list_elem_of_singleton, walk_sink_inv.
    + destruct Hu as [children Hcs]. unfold getitem. rewrite Hcs. simpl.
      destruct (for_each_paths
                  (λ next_node, search limit adj (current_path ++ [u]) next_node)
                  ((current_path ++ [u]) ++.) children) as (pss & Hpss & Hall).
      { intros v Hv. apply (IH (anc ++ [u])).
        - apply NoDup_app. split_and!; [done| |apply NoDup_singleton].
          intros a Ha ->%list_elem_of_singleton.
          rewrite Forall_forall in Hanc. by apply (Hacyc u), Hanc.
        - apply Forall_app. split.
          + eapply Forall_impl; [exact Hanc|]. intros a Ha.
            eapply tc_r; [exact Ha|]. by exists children.
          + repeat constructor. by exists children.
        - by eapply Hclosed.
        - rewrite length_app. simpl. lia. }
      destruct (concat_paths children pss Hall (Hchildren _ _ Hcs)) as [Hnd' Hps].
      exists ((u ::.) <$> concat pss). split; [|split].
      * rewrite Hpss. f_equal. rewrite <-list_fmap_compose.
        apply list_fmap_ext. intros _ p _. simpl. by rewrite <-(assoc_L (++)).
      * apply NoDup_fmap_2; [|done]. by intros ?? [=].
      * intros p. rewrite (walk_step_inv u p children Hne Hcs).
        rewrite list_elem_of_fmap. split.
        -- intros (p' & -> & Hp'). apply Hps in Hp' as (v & Hv & Hw).
           by exists v, p'.
        -- intros (v & p' & -> & Hv & Hw). exists p'. split; [done|].
           apply Hps. by exists v.
Qed.
End graph.

(** With a recursion limit of at least the number of keys of the adjacency
    map, [enumerate_paths] lists each SOURCE-to-SINK path once. *)
Lemma enumerate_paths_complete limit dag :
  well_formed dag → acyclic (adj_list dag) →
  (size (adj_list dag) ≤ limit)%nat →
  ∃ paths, enumerate_paths limit dag = Return paths
    ∧ NoDup paths ∧ paths ≠ []
    ∧ ∀ p, p ∈ paths ↔ source_sink_path dag p.
Proof.
  intros [Hsrc Hsink Hclosed Hchildren Hconn] Hacyc Hlimit.
  destruct (search_paths (adj_list dag) limit [] [] SOURCE)
    as (ps & Hsearch & Hnd & Hps); try done.
  { constructor. }
  { destruct Hsrc as (cs & -> & _). by eexists. }
  unfold enumerate_paths. rewrite Hsearch. simpl.
  rewrite list_fmap_id.
  destruct Hconn as [p0 Hp0]. apply Hps in Hp0.
  destruct ps as [|p ps]; [by apply elem_of_nil in Hp0|].
  exists (p :: ps). rewrite decide_True by (simpl; lia). done.
Qed.

(** ** The io monad and loops *)

Lemma result_bind {A B} (m : io A) (k : A → io B) :
  result (m ≫= k) = result m ≫= (λ a, result (k a)).
Proof.
  destruct m as [out [a|e]]; simpl; [|done].
  unfold result, mbind, io_bind, outcome_bind. simpl. by destruct (k a).
Qed.

Lemma result_lift {A} (m : outcome A) : result (lift m) = m.
Proof. done. Qed.

Lemma io_bind_return {A B} (a : A) (k : A → io B) :
  lift (Return a) ≫= k = k a.
Proof. unfold mbind, io_bind, lift. by destruct (k a). Qed.

Lemma outcome_bind_return {A B} (a : A) (k : A → outcome B) :
  Return a ≫= k = k a.
Proof. done. Qed.

Lemma io_bind_raise {A B} (e : exception) (k : A → io B) :
  lift (Raise e) ≫= k = lift (Raise e).
Proof. done. Qed.

(** A loop invariant [I s pre], over the variables [s] and the elements
    [pre] already visited, holds at the end of a loop that does not raise. *)
Lemma for_loop_invariant {S A} (body : S → A → io S)
    (I : S → list A → Prop) (l : list A) (s : S) (pre : list A) :
  I s pre →
  (∀ s pre a, a ∈ l → I s pre →
     ∃ s', result (body s a) = Return s' ∧ I s' (pre ++ [a])) →
  ∃ s', result (for_loop body s l) = Return s' ∧ I s' (pre ++ l).
Proof.
  revert s pre. induction l as [|a l IH]; intros s pre Hs Hbody; simpl.
  - exists s. by rewrite app_nil_r.
  - destruct (Hbody s pre a) as (s' & Hs' & HI); [by left|done|].
    destruct (IH s' (pre ++ [a])) as (s'' & Hs'' & HI'); [done| |].
    { intros ??? Ha. apply Hbody. by right. }
    exists s''. rewrite result_bind, Hs'. simpl.
    by rewrite <-(assoc_L (++)) in HI'.
Qed.

Lemma sum_list_snoc l x : sum_list (l ++ [x]) = sum_list l + x.
Proof.
  unfold sum_list. induction l as [|y l IH]; simpl.
  - ring.
  - rewrite IH. ring.
Qed.

Lemma sum_list_app l k : sum_list (l ++ k) = sum_list l + sum_list k.
Proof.
  unfold sum_list. induction l as [|y l IH]; simpl.
  - ring.
  - rewrite IH. ring.
Qed.

Lemma stages_snoc path node :
  stages (path ++ [node])
  = stages path ++ (if decide (node = SOURCE ∨ node = SINK) then [] else [node]).
Proof.
  unfold stages. rewrite filter_app. f_equal.
  destruct (decide (node = SOURCE ∨ node = SINK)).
  - by rewrite filter_cons_False by tauto.
  - by rewrite filter_cons_True.
Qed.

(** ** The loops of the pipeline estimate *)

Section estimator.
Context (scale_factors : gmap string Qc)
        (node_configs : gmap string NodeConfig.t)
        (single_node_profiles : gmap string NodeProfile).
Context (L U C F : string → Qc).
Local Abbreviation stage_succeeds :=
  (stage_succeeds scale_factors node_configs single_node_profiles L U C F).
Local Abbreviation scaled := (scaled U F).
Local Abbreviation bottleneck_inv := (bottleneck_inv U F).

Lemma estimate_stage_succeeds node :
  stage_succeeds node →
  result (estimate_stage scale_factors node_configs single_node_profiles node)
  = Return (L node, Finite (scaled node), C node).
Proof.
  intros (prof & conf & Hprof & Hconf & Hest & Hsf & HF).
  unfold estimate_stage, getitem. rewrite Hprof, Hconf, Hsf.
  rewrite !io_bind_return, result_bind, Hest, outcome_bind_return.
  cbv beta iota. rewrite io_bind_return. unfold divide.
  by rewrite decide_False.
Qed.

Lemma update_bottleneck_inv st occ node :
  bottleneck_inv st occ →
  ∀ st', (bottleneck_thruput st', bottleneck_node st')
         = update_bottleneck st (Finite (scaled node)) node →
  bottleneck_inv st' (occ ++ [node]).
Proof.
  intros Hinv st' Hst'.
  assert (∃ n, bottleneck_thruput st' = Some (Finite (scaled n))
           ∧ bottleneck_node st' = Some n
           ∧ n ∈ occ ++ [node]
           ∧ ∀ s, s ∈ occ ++ [node] → scaled n ≤ scaled s) as Hgoal.
  { unfold update_bottleneck in Hst'. destruct occ as [|o occ]; simpl in Hinv.
    - destruct Hinv as [Hbt Hbn]. rewrite Hbt in Hst'.
      rewrite decide_False in Hst' by apply (irreflexivity Qclt).
      injection Hst' as -> ->. exists node. split_and!; [done|done|by left|].
      intros s ->%list_elem_of_singleton. apply Qcle_refl.
    - destruct Hinv as (n & Hbt & Hbn & Hn & Hmin). rewrite Hbt, Hbn in Hst'.
      destruct (decide (np_gt (Finite (scaled n)) (Finite (scaled node))))
        as [Hlt|Hge]; [simpl in Hlt|simpl in Hge]; injection Hst' as -> ->.
      + exists node. split_and!; [done|done|apply elem_of_app; right; by left|].
        intros s [Hs| ->%list_elem_of_singleton]%elem_of_app; [|apply Qcle_refl].
        apply Qclt_le_weak. eapply Qclt_le_trans; [exact Hlt|by apply Hmin].
      + exists n. split_and!; [done|done|apply elem_of_app; by left|].
        intros s [Hs| ->%list_elem_of_singleton]%elem_of_app; [by apply Hmin|].
        by apply Qcle_ngt. }
  by destruct occ.
Qed.
End estimator.

Section loops.
Context (scale_factors : gmap string Qc)
        (node_configs : gmap string NodeConfig.t)
        (single_node_profiles : gmap string NodeProfile).
Context (L U C F : string → Qc).

Local Abbreviation succeeds :=
  (stage_succeeds scale_factors node_configs single_node_profiles L U C F).
Local Abbreviation binv := (bottleneck_inv U F).
Local Abbreviation path_latency := (path_latency L).
Local Abbreviation node_inv := (node_inv L U C F).
Local Abbreviation latency_inv := (latency_inv L).
Local Abbreviation path_inv := (path_inv L U C F).

Lemma visit_node_inv occ0 m0 s pre node :
  (node ∈ stages [node] → succeeds node) →
  node_inv occ0 m0 s pre →
  ∃ s', result (visit_node scale_factors node_configs single_node_profiles
                  s node) = Return s'
      ∧ node_inv occ0 m0 s' (pre ++ [node]).
Proof.
  intros Hnode (Hcost & Hbn & Hmax & Hlat). destruct s as [st pl].
  unfold visit_node, node_inv, path_latency. rewrite stages_snoc.
  simpl in *. destruct (decide (node = SOURCE ∨ node = SINK)) as [Hs|Hs].
  - exists (st, pl). rewrite !app_nil_r. done.
  - rewrite result_bind, (estimate_stage_succeeds _ _ _ L U C F).
    2:{ apply Hnode. unfold stages. rewrite filter_cons_True by done. by left. }
    rewrite outcome_bind_return. cbv beta iota.
    destruct (update_bottleneck st (Finite (scaled U F node)) node)
      as [bt bn] eqn:Hup.
    eexists. split; [done|]. simpl. rewrite (assoc_L (++)). split_and!.
    + rewrite fmap_app. simpl. by rewrite sum_list_snoc, Hcost.
    + by apply (update_bottleneck_inv U F st).
    + done.
    + rewrite fmap_app. simpl. by rewrite sum_list_snoc, Hlat.
Qed.

Lemma occurrences_snoc done path :
  occurrences (done ++ [path]) = occurrences done ++ stages path.
Proof.
  unfold occurrences. rewrite fmap_app, concat_app. simpl.
  by rewrite app_nil_r.
Qed.

Lemma latency_inv_snoc st st' done path :
  latency_inv st done →
  max_latency st'
  = Some (py_max (default (path_latency path) (max_latency st))
                 (path_latency path)) →
  latency_inv st' (done ++ [path]).
Proof.
  intros Hinv Hst'.
  assert (∃ p, p ∈ done ++ [path]
           ∧ max_latency st' = Some (path_latency p)
           ∧ ∀ q, q ∈ done ++ [path] → path_latency q ≤ path_latency p)
    as Hgoal.
  { unfold py_max in Hst'. destruct done as [|d done]; simpl in Hinv.
    - rewrite Hinv in Hst'. simpl in Hst'.
      rewrite decide_False in Hst' by apply (irreflexivity Qclt).
      exists path. split_and!; [by left|done|].
      intros q ->%list_elem_of_singleton. apply Qcle_refl.
    - destruct Hinv as (p & Hp & Hmax & Hle). rewrite Hmax in Hst'.
      simpl in Hst'.
      destruct (decide (path_latency p < path_latency path)) as [Hlt|Hge].
      + exists path. split_and!; [apply elem_of_app; right; by left|done|].
        intros q [Hq| ->%list_elem_of_singleton]%elem_of_app; [|apply Qcle_refl].
        apply Qclt_le_weak. eapply Qcle_lt_trans; [by apply Hle|done].
      + exists p. split_and!; [apply elem_of_app; by left|done|].
        intros q [Hq| ->%list_elem_of_singleton]%elem_of_app; [by apply Hle|].
        by apply Qcle_ngt. }
  by destruct done.
Qed.

Lemma visit_path_inv st done path :
  (∀ node, node ∈ stages path → succeeds node) →
  path_inv st done →
  ∃ st', result (visit_path scale_factors node_configs single_node_profiles
                   st path) = Return st'
       ∧ path_inv st' (done ++ [path]).
Proof.
  intros Hpath (Hcost & Hbn & Hlat).
  destruct (for_loop_invariant
              (visit_node scale_factors node_configs single_node_profiles)
              (node_inv (occurrences done) (max_latency st))
              path (st, 0) [])
    as ([st1 pl] & Hloop & Hcost1 & Hbn1 & Hmax1 & Hpl).
  { unfold node_inv, path_latency. simpl. by rewrite app_nil_r. }
  { intros s pre node Hin Hs. apply visit_node_inv; [|done].
    intros Hst. apply Hpath. unfold stages in *.
    apply list_elem_of_filter in Hst as [Hst _].
    apply list_elem_of_filter. split; [done|done]. }
  simpl in *. unfold visit_path.
  rewrite result_bind, Hloop, outcome_bind_return. cbv beta iota.
  eexists. split; [done|]. unfold path_inv. rewrite occurrences_snoc. simpl.
  split_and!; [done|done|].
  eapply latency_inv_snoc; [done|]. simpl. rewrite Hmax1, Hpl.
  by destruct (max_latency st).
Qed.
End loops.

(** C2.  For a well-formed acyclic pipeline graph whose number of nodes
    does not exceed the recursion limit, and maps under which the lookups
    and the estimate of every stage on a SOURCE-to-SINK path succeed (with
    latency [L], throughput [U], cost [C] and a non-zero scale factor [F]),
    [estimate_pipeline_performance_for_config] returns: as latency the
    maximum over all SOURCE-to-SINK paths of the sum of [L] over the stages
    of the path; as cost the sum of [C] over every stage occurrence on every
    path; as throughput the minimum of [U / F] over all stage occurrences,
    with a bottleneck stage attaining it (both are None when no path has a
    stage). *)
Theorem estimate_pipeline_performance limit dag scale_factors node_configs
    single_node_profiles (L U C F : string → Qc) :
  well_formed dag → acyclic (adj_list dag) →
  (size (adj_list dag) ≤ limit)%nat →
  (∀ p node, source_sink_path dag p → node ∈ stages p →
     stage_succeeds scale_factors node_configs single_node_profiles
       L U C F node) →
  ∃ paths perf bottleneck,
    enumerate_paths limit dag = Return paths
    ∧ NoDup paths
    ∧ (∀ p, p ∈ paths ↔ source_sink_path dag p)
    ∧ result (estimate_pipeline_performance_for_config limit dag
                scale_factors node_configs single_node_profiles)
      = Return (perf, bottleneck)
    ∧ (∃ p, p ∈ paths
         ∧ Estimate.latency perf = Some (sum_list (L <$> stages p))
         ∧ ∀ q, q ∈ paths →
             sum_list (L <$> stages q) ≤ sum_list (L <$> stages p))
    ∧ Estimate.cost perf = sum_list (C <$> concat (stages <$> paths))
    ∧ match concat (stages <$> paths) with
      | [] => Estimate.throughput perf = None ∧ bottleneck = None
      | _ => ∃ node,
          bottleneck = Some node
          ∧ node ∈ concat (stages <$> paths)
          ∧ Estimate.throughput perf = Some (Finite (U node / F node))
          ∧ ∀ s, s ∈ concat (stages <$> paths) →
              U node / F node ≤ U s / F s
      end.
Proof.
  intros Hwf Hacyc Hlimit Hstages.
  destruct (enumerate_paths_complete limit dag Hwf Hacyc Hlimit)
    as (paths & Hpaths & Hnd & Hne & Hin).
  destruct (for_loop_invariant
              (visit_path scale_factors node_configs single_node_profiles)
              (path_inv L U C F) paths
              {| bottleneck_thruput := None; bottleneck_node := None;
                 total_cost := 0; max_latency := None |} [])
    as (st & Hloop & Hcost & Hbn & Hlat).
  { by split_and!. }
  { intros st done path Hpath Hinv.
    apply visit_path_inv; [|done].
    intros node Hnode. apply (Hstages path); [by apply Hin|done]. }
  simpl in *.
  exists paths, {| Estimate.latency := max_latency st;
                   Estimate.throughput := bottleneck_thruput st;
                   Estimate.cost := total_cost st |}, (bottleneck_node st).
  split_and!; [done|done|done| | |done|].
  - unfold estimate_pipeline_performance_for_config.
    rewrite Hpaths, io_bind_return, result_bind, Hloop. done.
  - unfold latency_inv in Hlat. by destruct paths.
  - unfold bottleneck_inv, occurrences in Hbn. simpl.
    destruct (concat (stages <$> paths)) as [|o occ]; [done|].
    destruct Hbn as (node & Hbt & Hnode & Hocc & Hmin). by exists node.
Qed.

(** ** is_valid_pipeline_config *)

Lemma is_valid_clouds_spec clouds :
  clouds ≠ [] →
  ∃ b, is_valid_clouds clouds = Return b
     ∧ (b = true ↔ ∀ x y, x ∈ clouds → y ∈ clouds → x = y).
Proof.
  destruct clouds as [|first clouds]; [done|]. intros _.
  eexists. split; [done|].
  rewrite <-Is_true_true, forallb_True, Forall_forall. split.
  - intros Hall x y Hx Hy.
    assert (∀ z, z ∈ first :: clouds → first = z) as Hfirst.
    { intros z [->|Hz]%elem_of_cons; [done|].
      by apply (bool_decide_unpack _), Hall. }
    by rewrite <-(Hfirst x Hx), <-(Hfirst y Hy).
  - intros Hall z Hz. apply bool_decide_pack.
    apply Hall; [by left|by right].
Qed.

Lemma is_valid_clouds_perm clouds clouds' :
  clouds ≡ₚ clouds' → is_valid_clouds clouds = is_valid_clouds clouds'.
Proof.
  intros Hperm. destruct clouds as [|c clouds].
  { by apply Permutation_nil_l in Hperm as ->. }
  assert (clouds' ≠ []) as Hne'.
  { intros ->. by apply Permutation_nil_r in Hperm. }
  destruct (is_valid_clouds_spec (c :: clouds)) as (b & -> & Hb); [done|].
  destruct (is_valid_clouds_spec clouds' Hne') as (b' & -> & Hb').
  f_equal. apply eq_true_iff_eq. rewrite Hb, Hb'.
  by setoid_rewrite Hperm.
Qed.

(** C10.  On an empty configuration map [is_valid_pipeline_config] raises
    StopIteration instead of returning a boolean; it raises only then, and
    on a map with at least one stage config it returns whether all configs
    name the same cloud. *)
Theorem is_valid_pipeline_config_empty :
  is_valid_pipeline_config ∅ = Raise StopIteration
  ∧ ∀ node_configs : gmap string NodeConfig.t,
      (is_valid_pipeline_config node_configs = Raise StopIteration
       ↔ node_configs = ∅)
      ∧ (node_configs ≠ ∅ →
         ∃ b, is_valid_pipeline_config node_configs = Return b
            ∧ (b = true ↔
               ∀ n1 n2 c1 c2,
                 node_configs !! n1 = Some c1 → node_configs !! n2 = Some c2 →
                 NodeConfig.cloud c1 = NodeConfig.cloud c2)).
Proof.
  assert (∀ node_configs : gmap string NodeConfig.t,
    node_configs ≠ ∅ →
    ∃ b, is_valid_pipeline_config node_configs = Return b
       ∧ (b = true ↔
          ∀ n1 n2 c1 c2,
            node_configs !! n1 = Some c1 → node_configs !! n2 = Some c2 →
            NodeConfig.cloud c1 = NodeConfig.cloud c2)) as Hnonempty.
  { intros node_configs Hne. unfold is_valid_pipeline_config.
    destruct (is_valid_clouds_spec
                ((λ nc, NodeConfig.cloud nc.2) <$> map_to_list node_configs))
      as (b & Hb & Hiff).
    { intros Hnil%fmap_nil_inv. by apply map_to_list_empty_iff in Hnil. }
    exists b. split; [done|]. rewrite Hiff. split.
    - intros Hall n1 n2 c1 c2 H1 H2.
      apply Hall; apply list_elem_of_fmap.
      + exists (n1, c1). split; [done|]. by apply elem_of_map_to_list.
      + exists (n2, c2). split; [done|]. by apply elem_of_map_to_list.
    - intros Hall x y [[n1 c1] [-> H1]]%list_elem_of_fmap
                      [[n2 c2] [-> H2]]%list_elem_of_fmap.
      apply elem_of_map_to_list in H1, H2. by apply (Hall n1 n2). }
  assert (is_valid_pipeline_config ∅ = Raise StopIteration) as Hempty.
  { unfold is_valid_pipeline_config. by rewrite map_to_list_empty. }
  split; [done|]. intros node_configs. split; [|by apply Hnonempty].
  split.
  - intros Hraise. destruct (decide (node_configs = ∅)) as [|Hne]; [done|].
    destruct (Hnonempty node_configs Hne) as (b & Hb & _). congruence.
  - by intros ->.
Qed.

(** ** Checking the hypotheses of the pipeline estimate on a concrete graph *)

Lemma ranked_acyclic (adj : gmap string (list string)) (rank : string → nat) :
  map_Forall (λ u children, Forall (λ v, (rank v < rank u)%nat) children) adj →
  acyclic adj.
Proof.
  intros Hrank.
  assert (∀ u v, edge adj u v → (rank v < rank u)%nat) as Hedge.
  { intros u v (children & Hu & Hv). specialize (Hrank u children Hu).
    rewrite Forall_forall in Hrank. by apply Hrank. }
  assert (∀ u v, tc (edge adj) u v → (rank v < rank u)%nat) as Htc.
  { induction 1 as [u v Huv|u w v Huw _ IH].
    - by apply Hedge.
    - apply Hedge in Huw. lia. }
  intros u Hu. apply Htc in Hu. lia.
Qed.

Lemma walk_nodes (adj : gmap string (list string)) u p node :
  walk adj u p → node ∈ p → node = SINK ∨ is_Some (adj !! node).
Proof.
  induction 1 as [|u v children p Hu Hadj Hv Hw IH].
  - intros ->%list_elem_of_singleton. by left.
  - intros [->|Hin]%elem_of_cons; [right; by eexists|by apply IH].
Qed.

Lemma stage_checks_succeeds sf nc snp L U C F node :
  stage_checks sf nc snp L U C F node → stage_succeeds sf nc snp L U C F node.
Proof.
  unfold stage_checks. intros Hcheck.
  destruct (snp !! node) as [prof|] eqn:Hprof; [|done].
  destruct (nc !! node) as [conf|] eqn:Hconf; [|done].
  destruct (sf !! node) as [factor|] eqn:Hsf; [|done].
  destruct Hcheck as (Hest & -> & HF). by exists prof, conf.
Qed.

Lemma stages_checked dag sf nc snp L U C F :
  map_Forall (λ node _, node = SOURCE ∨ node = SINK
                        ∨ stage_checks sf nc snp L U C F node)
             (adj_list dag) →
  ∀ p node, source_sink_path dag p → node ∈ stages p →
    stage_succeeds sf nc snp L U C F node.
Proof.
  intros Hall p node Hp [Hns Hin]%list_elem_of_filter.
  destruct (walk_nodes _ _ _ _ Hp Hin) as [->|[children Hnode]]; [tauto|].
  destruct (Hall node children Hnode) as [?|[?|Hcheck]]; [tauto..|].
  by apply stage_checks_succeeds.
Qed.

Lemma well_formed_checks dag :
  (∃ children, adj_list dag !! SOURCE = Some children ∧ children ≠ []) →
  adj_list dag !! SINK = Some [] →
  map_Forall (λ _ children,
      Forall (λ v, is_Some (adj_list dag !! v)) children ∧ NoDup children)
    (adj_list dag) →
  (∃ p, source_sink_path dag p) →
  well_formed dag.
Proof.
  intros Hsrc Hsink Hall Hconn. split; [done|done| | |done].
  - intros u children v Hu Hv. destruct (Hall u children Hu) as [Hkeys _].
    rewrite Forall_forall in Hkeys. by apply Hkeys.
  - intros u children Hu. by destruct (Hall u children Hu).
Qed.

Example get_pipeline_three :
  get_logical_pipeline "pipeline_three" = Return (Some pipeline_three).
Proof. by_compute. Qed.

Lemma pipeline_three_well_formed : well_formed pipeline_three.
Proof.
  apply well_formed_checks.
  - exists ["alexnet"]. by_compute.
  - by_compute.
  - by_compute.
  - exists [SOURCE; "alexnet"; SINK]. unfold source_sink_path.
    apply (walk_step _ SOURCE "alexnet" ["alexnet"]);
      [done|by_compute|by left|].
    apply (walk_step _ "alexnet" SINK ["res50"; SINK]);
      [done|by_compute|by right; left|].
    constructor.
Qed.

Lemma pipeline_three_acyclic : acyclic (adj_list pipeline_three).
Proof. apply (ranked_acyclic _ cascade_rank). by_compute. Qed.

(** The cascade, evaluated: the longest path costs 10 + 20 + 40, alexnet is
    the bottleneck, and the cost counts alexnet three times and res50
    twice. *)
Example estimate_cascade :
  result (estimate_pipeline_performance_for_config 5 pipeline_three
            cascade_scale_factors cascade_configs cascade_profiles)
  = Return ({| Estimate.latency := Some (Qc_of_Z 70);
               Estimate.throughput := Some (Finite (Qc_of_Z 50));
               Estimate.cost := Qc_of_Z 17 |}, Some "alexnet").
Proof. by_compute. Qed.

(** C2, instance: the cascade of pipeline_three with a recursion limit of
    5. *)
Lemma estimate_pipeline_performance_witness :
  ∃ paths perf bottleneck,
    enumerate_paths 5 pipeline_three = Return paths
    ∧ NoDup paths
    ∧ (∀ p, p ∈ paths ↔ source_sink_path pipeline_three p)
    ∧ result (estimate_pipeline_performance_for_config 5 pipeline_three
                cascade_scale_factors cascade_configs cascade_profiles)
      = Return (perf, bottleneck)
    ∧ (∃ p, p ∈ paths
         ∧ Estimate.latency perf = Some (sum_list (cascade_latency <$> stages p))
         ∧ ∀ q, q ∈ paths →
             sum_list (cascade_latency <$> stages q)
             ≤ sum_list (cascade_latency <$> stages p))
    ∧ Estimate.cost perf
      = sum_list (cascade_cost <$> concat (stages <$> paths))
    ∧ match concat (stages <$> paths) with
      | [] => Estimate.throughput perf = None ∧ bottleneck = None
      | _ => ∃ node,
          bottleneck = Some node
          ∧ node ∈ concat (stages <$> paths)
          ∧ Estimate.throughput perf
            = Some (Finite (cascade_throughput node / cascade_factor node))
          ∧ ∀ s, s ∈ concat (stages <$> paths) →
              cascade_throughput node / cascade_factor node
              ≤ cascade_throughput s / cascade_factor s
      end.
Proof.
  apply (estimate_pipeline_performance 5 pipeline_three
           cascade_scale_factors cascade_configs cascade_profiles
           cascade_latency cascade_throughput cascade_cost cascade_factor).
  - apply pipeline_three_well_formed.
  - apply pipeline_three_acyclic.
  - by_compute.
  - apply stages_checked. by_compute.
Defined.

Section prune_order.
Implicit Types (i j k : Entry.t) (l : DataFrame).

Lemma strictly_dominates_irrefl i : ¬ strictly_dominates i i.
Proof. intros (H & _). by apply (irreflexivity Qclt) in H. Qed.

Lemma strictly_dominates_trans k j i :
  strictly_dominates k j → strictly_dominates j i → strictly_dominates k i.
Proof.
  intros (?&?&?) (?&?&?). split_and!; by eapply Qclt_trans.
Qed.

(** A non-empty table has a row that no row of the table strictly
    dominates. *)
Lemma undominated_row l :
  l ≠ [] → ∃ r, r ∈ l ∧ ∀ j, j ∈ l → ¬ strictly_dominates j r.
Proof.
  induction l as [|a l IH]; [done|]. intros _.
  destruct l as [|b l].
  { exists a. split; [by left|].
    intros j ->%list_elem_of_singleton. apply strictly_dominates_irrefl. }
  destruct IH as (r & Hr & Hmax); [done|].
  destruct (decide (strictly_dominates a r)) as [Har|Har].
  - exists a. split; [by left|].
    intros j [->|Hj]%elem_of_cons; [apply strictly_dominates_irrefl|].
    intros Hja. apply (Hmax j Hj). by eapply strictly_dominates_trans.
  - exists r. split; [by right|].
    intros j [->|Hj]%elem_of_cons; [done|by apply Hmax].
Qed.
End prune_order.

(** X1.  Pruning never empties a profile: a frame with at least one row
    keeps at least one row. *)
Theorem prune_profile_nonempty (profile : DataFrame) :
  profile ≠ [] → prune_profile profile ≠ [].
Proof.
  intros Hne Hnil. destruct (undominated_row profile Hne) as (r & Hr & Hmax).
  assert (r ∈ prune_profile profile) as Hin
    by by apply elem_of_prune_profile.
  rewrite Hnil in Hin. by apply elem_of_nil in Hin.
Qed.

(** X2.  Every row that pruning drops is strictly dominated (more
    throughput, less cost and less p99 latency) by a row that pruning
    keeps. *)
Theorem prune_profile_dropped_dominated (profile : DataFrame) (i : Entry.t) :
  i ∈ profile → i ∉ prune_profile profile →
  ∃ j, j ∈ prune_profile profile ∧ strictly_dominates j i.
Proof.
  intros Hi Hdrop.
  set (D := filter (λ j, strictly_dominates j i) profile).
  assert (D ≠ []) as HD.
  { intros HD. apply Hdrop, elem_of_prune_profile. split; [done|].
    intros j Hj Hdom.
    assert (j ∈ D) as HjD by by apply list_elem_of_filter.
    rewrite HD in HjD. by apply elem_of_nil in HjD. }
  destruct (undominated_row D HD) as (j & [Hji Hj]%list_elem_of_filter & Hmax).
  exists j. split; [|done]. apply elem_of_prune_profile. split; [done|].
  intros k Hk Hkj. apply (Hmax k); [|done].
  apply list_elem_of_filter. split; [|done].
  by eapply strictly_dominates_trans.
Qed.

(** X3.  Pruning does not depend on the order of the rows: frames with the
    same rows in another order are pruned to the same rows, again up to
    their order. *)
Theorem prune_profile_perm (profile profile' : DataFrame) :
  profile ≡ₚ profile' → prune_profile profile ≡ₚ prune_profile profile'.
Proof.
  intros Hperm. rewrite !prune_profile_filter.
  rewrite (list_filter_iff _ (λ p, Forall (λ row, keep_mask row p) profile')).
  - by rewrite Hperm.
  - intros p. by rewrite Hperm.
Qed.

(** ** Shape of the enumerated paths *)

Section walks.
Context (adj : gmap string (list string)).
Implicit Types (u v : string) (p : list string).

Lemma walk_tc u p v : walk adj u p → v ∈ tail p → tc (edge adj) u v.
Proof.
  induction 1 as [|u w children p Hu Hadj Hw Hwalk IH]; simpl.
  - by intros ?%elem_of_nil.
  - intros Hv. assert (edge adj u w) as Huw by by exists children.
    destruct Hwalk as [|w w' children' p' Hw' Hadj' Hw'' Hwalk'].
    + apply list_elem_of_singleton in Hv as ->. by apply tc_once.
    + apply elem_of_cons in Hv as [->|Hv]; [by apply tc_once|].
      eapply tc_l; [exact Huw|]. by apply IH.
Qed.

Lemma walk_NoDup u p : acyclic adj → walk adj u p → NoDup p.
Proof.
  intros Hacyc. induction 1 as [|u w children p Hu Hadj Hw Hwalk IH].
  - apply NoDup_singleton.
  - apply NoDup_cons. split; [|done].
    intros Hin. apply (Hacyc u).
    apply (walk_tc u (u :: p)); [by econstructor|done].
Qed.

(** A walk is a run of nodes other than SINK followed by SINK. *)
Lemma walk_snoc u p :
  walk adj u p → ∃ q, p = q ++ [SINK] ∧ SINK ∉ q.
Proof.
  induction 1 as [|u w children p Hu Hadj Hw Hwalk (q & -> & Hq)].
  - exists []. split; [done|]. by intros ?%elem_of_nil.
  - exists (u :: q). split; [done|].
    intros [?|?]%elem_of_cons; [by subst|done].
Qed.
End walks.

Lemma SOURCE_ne_SINK : SOURCE ≠ SINK.
Proof. done. Qed.

Lemma stages_middle q :
  SOURCE ∉ q → SINK ∉ q → stages (SOURCE :: q ++ [SINK]) = q.
Proof.
  intros Hsrc Hsink. unfold stages.
  rewrite filter_cons_False by (intros H; apply H; by left).
  rewrite filter_app, filter_cons_False by (intros H; apply H; by right).
  rewrite filter_nil, app_nil_r. apply filter_all, Forall_forall.
  intros x Hx [->| ->]; done.
Qed.

(** X4.  On a well-formed acyclic graph, with a recursion limit of at least
    the number of keys, [enumerate_paths] returns, and each returned path
    is SOURCE, then stages only, then SINK; it repeats no node, is no
    longer than the number of keys, and each of its stages is a key of the
    adjacency list. *)
Theorem enumerate_paths_shape limit dag :
  well_formed dag → acyclic (adj_list dag) →
  (size (adj_list dag) ≤ limit)%nat →
  ∃ paths, enumerate_paths limit dag = Return paths
    ∧ ∀ p, p ∈ paths →
        p = SOURCE :: stages p ++ [SINK]
        ∧ NoDup p
        ∧ (length p ≤ size (adj_list dag))%nat
        ∧ ∀ node, node ∈ stages p → is_Some (adj_list dag !! node).
Proof.
  intros Hwf Hacyc Hlimit.
  destruct (enumerate_paths_complete limit dag Hwf Hacyc Hlimit)
    as (paths & Hpaths & _ & _ & Hin).
  exists paths. split; [done|]. intros p Hp%Hin.
  pose proof (walk_NoDup _ _ _ Hacyc Hp) as Hnd.
  assert (∀ node, node ∈ p → is_Some (adj_list dag !! node)) as Hkeys.
  { intros node Hnode. destruct (walk_nodes _ _ _ _ Hp Hnode) as [->|?]; [|done].
    rewrite (wf_sink _ Hwf). by eexists. }
  destruct (walk_snoc _ _ _ Hp) as (q & -> & Hq).
  pose proof (walk_head _ _ _ Hp) as Hhead.
  destruct q as [|s q]; simplify_eq/=.
  apply not_elem_of_cons in Hq as [_ Hq].
  apply NoDup_cons in Hnd as Hnd'. destruct Hnd' as [Hsrc _].
  rewrite not_elem_of_app in Hsrc. destruct Hsrc as [Hsrc _].
  rewrite (stages_middle q Hsrc Hq). split_and!; [done|done| |].
  - by apply (keys_length _ (SOURCE :: q ++ [SINK])).
  - intros node Hnode. apply Hkeys. right. apply elem_of_app. by left.
Qed.

(** ** What the traversal needs in order to return *)

Section traversal.
Context (adj : gmap string (list string)).
Implicit Types (u v : string) (p : list string).

Lemma for_each_Return_inv {A B} (body : A → outcome (list B)) l bs :
  for_each body l = Return bs →
  ∀ a, a ∈ l → ∃ bs', body a = Return bs'.
Proof.
  revert bs. induction l as [|a l IH]; intros bs Hret x Hx.
  { by apply elem_of_nil in Hx. }
  simpl in Hret. destruct (body a) as [bs1|] eqn:Ha; [|done].
  simpl in Hret. destruct (for_each body l) as [bs2|] eqn:Hl; [|done].
  apply elem_of_cons in Hx as [->|Hx]; [by eexists|by eapply IH].
Qed.

Lemma for_each_ext_Return {A B} (body body' : A → outcome (list B)) l bs :
  (∀ a bs', a ∈ l → body a = Return bs' → body' a = Return bs') →
  for_each body l = Return bs → for_each body' l = Return bs.
Proof.
  revert bs. induction l as [|a l IH]; intros bs Hext Hret; [done|].
  simpl in *. destruct (body a) as [bs1|] eqn:Ha; [|done].
  rewrite (Hext a bs1) by (done || by left). simpl in *.
  destruct (for_each body l) as [bs2|] eqn:Hl; [|done].
  rewrite (IH bs2); [done| |done].
  intros a' bs' Ha'. apply Hext. by right.
Qed.

(** If [search] returns, every node within reach lies at a depth below the
    limit and is SINK or a key of the adjacency map. *)
Lemma search_Return_inv limit current_path u ps n v :
  search limit adj current_path u = Return ps →
  nsteps (search_step adj) n u v →
  (n < limit)%nat ∧ (v = SINK ∨ is_Some (adj !! v)).
Proof.
  revert current_path u ps n.
  induction limit as [|limit IH]; intros current_path u ps n Hret Hsteps;
    [done|].
  simpl in Hret. destruct (decide (u = SINK)) as [->|Hu].
  { inversion Hsteps as [|m x w z [Hne _] Hrest]; simplify_eq.
    split; [lia|by left]. }
  unfold getitem in Hret.
  destruct (adj !! u) as [children|] eqn:Hadj; [|done]. simpl in Hret.
  inversion Hsteps as [|m x w z [_ (children' & Hadj' & Hw)] Hrest];
    simplify_eq.
  { split; [lia|right; by eexists]. }
  destruct (for_each_Return_inv _ _ _ Hret w Hw) as [ps' Hps'].
  destruct (IH _ _ _ _ Hps' Hrest) as [Hm Hv]. split; [lia|done].
Qed.

Lemma search_limit_mono limit limit' current_path u ps :
  (limit ≤ limit')%nat →
  search limit adj current_path u = Return ps →
  search limit' adj current_path u = Return ps.
Proof.
  revert limit' current_path u ps.
  induction limit as [|limit IH]; intros limit' current_path u ps Hle Hret;
    [done|].
  destruct limit' as [|limit']; [lia|]. simpl in *.
  destruct (decide (u = SINK)); [done|].
  destruct (getitem adj u) as [children|]; [|done]. simpl in *.
  eapply for_each_ext_Return; [|done].
  intros a bs' _. apply IH. lia.
Qed.

Lemma for_each_Raise_inv {A B} (body : A → outcome (list B)) l e :
  for_each body l = Raise e → ∃ a, a ∈ l ∧ body a = Raise e.
Proof.
  induction l as [|a l IH]; intros Hraise; [done|]. simpl in Hraise.
  destruct (body a) as [bs|e'] eqn:Ha.
  - destruct (for_each body l) as [bs'|e'] eqn:Hl; [done|].
    simpl in Hraise. injection Hraise as ->.
    destruct IH as (a' & Ha' & Hbody); [done|]. exists a'. split; [by right|done].
  - simpl in Hraise. injection Hraise as ->. exists a. split; [by left|done].
Qed.

(** [search] raises RecursionError, or KeyError for a node within reach
    that is not a key. *)
Lemma search_Raise_inv limit current_path u e :
  search limit adj current_path u = Raise e →
  e = RecursionError
  ∨ ∃ v, e = KeyError v ∧ rtc (search_step adj) u v
       ∧ v ≠ SINK ∧ adj !! v = None.
Proof.
  revert current_path u.
  induction limit as [|limit IH]; intros current_path u Hraise; simpl in *.
  { injection Hraise as <-. by left. }
  destruct (decide (u = SINK)) as [|Hu]; [done|]. unfold getitem in Hraise.
  destruct (adj !! u) as [children|] eqn:Hadj; simpl in Hraise.
  - apply for_each_Raise_inv in Hraise as (a & Ha & Hraise).
    apply IH in Hraise as [->|(v & -> & Hreach & Hv & Hnone)]; [by left|].
    right. exists v. split_and!; [done| |done|done].
    eapply rtc_l; [|done]. split; [done|]. by exists children.
  - injection Hraise as <-. right. by exists u.
Qed.

Lemma nsteps_cycle n1 n2 u v (j : nat) :
  nsteps (search_step adj) n1 u v → nsteps (search_step adj) n2 v v →
  nsteps (search_step adj) (n1 + j * n2) u v.
Proof.
  intros H1 H2. induction j as [|j IH]; simpl.
  - by rewrite Nat.add_0_r.
  - replace (n1 + (n2 + j * n2))%nat with ((n1 + j * n2) + n2)%nat by lia.
    by eapply nsteps_trans.
Qed.
End traversal.

(** X5.  If the traversal from SOURCE, which does not leave SINK, reaches
    a node that lies on a cycle, [enumerate_paths] raises, whatever the
    recursion limit: RecursionError, or else KeyError for a node within
    reach, other than SINK, that is not a key of the adjacency list.  So
    when every node within reach is a key it is the recursion limit that
    is hit. *)
Theorem enumerate_paths_cycle limit dag u :
  rtc (search_step (adj_list dag)) SOURCE u →
  tc (search_step (adj_list dag)) u u →
  enumerate_paths limit dag = Raise RecursionError
  ∨ ∃ v, rtc (search_step (adj_list dag)) SOURCE v
       ∧ v ≠ SINK ∧ adj_list dag !! v = None
       ∧ enumerate_paths limit dag = Raise (KeyError v).
Proof.
  intros [n1 H1]%rtc_nsteps (n2 & Hpos & H2)%tc_nsteps.
  unfold enumerate_paths.
  destruct (search limit (adj_list dag) [] SOURCE) as [ps|e] eqn:Hsearch.
  - pose proof (nsteps_cycle _ n1 n2 SOURCE u limit H1 H2) as Hlong.
    destruct (search_Return_inv _ _ _ _ _ _ _ Hsearch Hlong) as [Hlt _].
    nia.
  - apply search_Raise_inv in Hsearch as [->|(v & -> & ? & ? & ?)];
      [by left|].
    right. by exists v.
Qed.

(** X6.  If the traversal from SOURCE reaches a node other than SINK that
    is not a key of the adjacency list, [enumerate_paths] raises, whatever
    the recursion limit. *)
Theorem enumerate_paths_missing_key limit dag v :
  rtc (search_step (adj_list dag)) SOURCE v →
  v ≠ SINK → adj_list dag !! v = None →
  ∃ e, enumerate_paths limit dag = Raise e.
Proof.
  intros [n Hn]%rtc_nsteps Hv Hnone. unfold enumerate_paths.
  destruct (search limit (adj_list dag) [] SOURCE) as [ps|e] eqn:Hsearch;
    [|by exists e].
  destruct (search_Return_inv _ _ _ _ _ _ _ Hsearch Hn) as [_ [?|[? ?]]];
    [done|congruence].
Qed.

(** X7.  A larger recursion limit does not change the paths that
    [enumerate_paths] returns. *)
Theorem enumerate_paths_limit_mono limit limit' dag paths :
  (limit ≤ limit')%nat →
  enumerate_paths limit dag = Return paths →
  enumerate_paths limit' dag = Return paths.
Proof.
  intros Hle. unfold enumerate_paths.
  destruct (search limit (adj_list dag) [] SOURCE) as [ps|] eqn:Hsearch;
    [|done].
  by rewrite (search_limit_mono _ _ _ _ _ _ Hle Hsearch).
Qed.

(** X8.  On an acyclic graph with a SOURCE key, whose children are all
    keys and listed once, and with enough recursion depth,
    [enumerate_paths] fails its final assertion when SINK cannot be reached
    from SOURCE. *)
Theorem enumerate_paths_unreachable_sink limit dag :
  acyclic (adj_list dag) →
  is_Some (adj_list dag !! SOURCE) →
  (∀ u children v, adj_list dag !! u = Some children → v ∈ children →
     is_Some (adj_list dag !! v)) →
  (∀ u children, adj_list dag !! u = Some children → NoDup children) →
  (size (adj_list dag) ≤ limit)%nat →
  (∀ p, ¬ source_sink_path dag p) →
  enumerate_paths limit dag = Raise AssertionError.
Proof.
  intros Hacyc Hsrc Hclosed Hchildren Hlimit Hnone.
  destruct (search_paths (adj_list dag) limit [] [] SOURCE)
    as (ps & Hsearch & Hnd & Hps); try done.
  { constructor. }
  unfold enumerate_paths. rewrite Hsearch. simpl.
  destruct ps as [|p ps]; [done|].
  destruct (Hnone p). apply Hps. by left.
Qed.

(** ** LogicalDAG.nodes *)

Lemma list_remove_first_elem x l :
  NoDup l → x ∈ l →
  ∃ l', list_remove_first x l = Return l'
      ∧ NoDup l' ∧ ∀ y, y ∈ l' ↔ y ∈ l ∧ y ≠ x.
Proof.
  induction l as [|z l IH]; intros Hnd Hx; [by apply elem_of_nil in Hx|].
  apply NoDup_cons in Hnd as [Hz Hnd]. simpl.
  destruct (decide (x = z)) as [->|Hne].
  - exists l. split_and!; [done..|]. intros y. rewrite elem_of_cons. split.
    + intros Hy. split; [by right|]. by intros ->.
    + by intros [[->|Hy] Hne].
  - apply elem_of_cons in Hx as [->|Hx]; [done|].
    destruct (IH Hnd Hx) as (l' & -> & Hnd' & Hl').
    exists (z :: l'). split_and!; [done| |].
    + apply NoDup_cons. split; [|done]. rewrite Hl'. tauto.
    + intros y. rewrite !elem_of_cons, Hl'. split.
      * intros [->|[Hy Hyx]]; [split; [by left|congruence]|split; [by right|done]].
      * intros [[->|Hy] Hyx]; [by left|right; done].
Qed.

Lemma list_remove_first_absent x l :
  x ∉ l → list_remove_first x l = Raise ValueError.
Proof.
  induction l as [|z l IH]; [done|].
  intros [Hne Hx]%not_elem_of_cons. simpl.
  rewrite decide_False by done. by rewrite IH.
Qed.

Lemma elem_of_keys (adj : gmap string (list string)) x :
  x ∈ (map_to_list adj).*1 ↔ is_Some (adj !! x).
Proof.
  rewrite list_elem_of_fmap. split.
  - intros ([k v] & -> & Hkv%elem_of_map_to_list). by eexists.
  - intros [v Hv]. exists (x, v). split; [done|]. by apply elem_of_map_to_list.
Qed.

(** X9.  When SOURCE and SINK are both keys, [nodes] returns the keys
    other than SOURCE and SINK, each once, and every stage of every path
    from SOURCE to SINK is among them; when one of the two is not a key,
    it raises ValueError. *)
Theorem nodes_keys (self : LogicalDAG) :
  (is_Some (adj_list self !! SOURCE) → is_Some (adj_list self !! SINK) →
   ∃ l, nodes self = Return l
      ∧ NoDup l
      ∧ (∀ x, x ∈ l ↔
           is_Some (adj_list self !! x) ∧ x ≠ SOURCE ∧ x ≠ SINK)
      ∧ ∀ p node, source_sink_path self p → node ∈ stages p → node ∈ l)
  ∧ (adj_list self !! SOURCE = None ∨ adj_list self !! SINK = None →
     nodes self = Raise ValueError).
Proof.
  unfold nodes. split.
  - intros Hsrc Hsink.
    destruct (list_remove_first_elem SOURCE (map_to_list (adj_list self)).*1)
      as (l1 & -> & Hnd1 & Hl1);
      [apply NoDup_fst_map_to_list|by apply elem_of_keys|].
    destruct (list_remove_first_elem SINK l1) as (l2 & Hrm & Hnd2 & Hl2);
      [done|apply Hl1; split; [by apply elem_of_keys|done]|].
    exists l2. split_and!; [done|done| |].
    + intros x. rewrite Hl2, Hl1, elem_of_keys. tauto.
    + intros p node Hp [Hns Hin]%list_elem_of_filter.
      rewrite Hl2, Hl1, elem_of_keys.
      destruct (walk_nodes _ _ _ _ Hp Hin) as [->|?]; tauto.
  - intros [Hnone|Hnone].
    + rewrite list_remove_first_absent; [done|].
      rewrite elem_of_keys, Hnone. by intros [? ?].
    + destruct (list_remove_first SOURCE (map_to_list (adj_list self)).*1)
        as [l1|e] eqn:Hl1; simpl.
      * destruct (decide (SOURCE ∈ (map_to_list (adj_list self)).*1)) as [Hin|Hout].
        -- destruct (list_remove_first_elem SOURCE _
                       (NoDup_fst_map_to_list _) Hin) as (l1' & Heq & _ & Hl1').
           rewrite Hl1 in Heq. injection Heq as <-.
           apply list_remove_first_absent. rewrite Hl1', elem_of_keys, Hnone.
           by intros [[? ?] _].
        -- by rewrite list_remove_first_absent in Hl1.
      * destruct (decide (SOURCE ∈ (map_to_list (adj_list self)).*1)) as [Hin|Hout].
        -- destruct (list_remove_first_elem SOURCE _
                       (NoDup_fst_map_to_list _) Hin) as (l1' & Heq & _).
           congruence.
        -- rewrite list_remove_first_absent in Hl1 by done. congruence.
Qed.

(** ** enumerate_configs and increase_batch_size *)

Lemma elem_of_enumerate_configs self max_replication_factor c :
  c ∈ enumerate_configs self max_replication_factor
  ↔ ∃ i entry, (1 ≤ i ≤ max_replication_factor)%Z ∧ entry ∈ profile self
      ∧ c = NodeConfig.mk (name self)
              (Entry.num_cpus_per_replica entry) (Entry.gpu_type entry)
              (Entry.mean_batch_size entry) i (Entry.cloud entry).
Proof.
  unfold enumerate_configs. rewrite list_elem_of_bind. split.
  - intros (i & (entry & ->%list_elem_of_singleton & Hentry)%list_elem_of_bind
              & Hi%elem_of_seqZ).
    exists i, entry. split_and!; [lia..|done|done].
  - intros (i & entry & Hi & Hentry & ->). exists i. split.
    + apply list_elem_of_bind. exists entry. split; [by left|done].
    + apply elem_of_seqZ. lia.
Qed.

Lemma length_bind_singleton {A B} (f : A → B) (l : list A) :
  length (l ≫= λ a, [f a]) = length l.
Proof.
  induction l as [|a l IH]; [done|]. by rewrite bind_cons, length_app, IH.
Qed.

Lemma length_enumerate_configs self max_replication_factor :
  length (enumerate_configs self max_replication_factor)
  = (Z.to_nat max_replication_factor * length (profile self))%nat.
Proof.
  unfold enumerate_configs.
  rewrite <-(length_seqZ 1 max_replication_factor).
  induction (seqZ 1 max_replication_factor) as [|i l IH]; [done|].
  rewrite bind_cons, length_app, IH. simpl. f_equal.
  apply (length_bind_singleton (λ entry, NodeConfig.mk _ _ _ _ _ _)).
Qed.

Lemma bind_singleton_fmap {A B} (f : A → B) (l : list A) :
  (l ≫= λ a, [f a]) = f <$> l.
Proof. induction l as [|a l IH]; [done|]. by rewrite bind_cons, IH. Qed.

(** The element [j] of block [i] in a list of blocks of length [n]. *)
Lemma lookup_bind_blocks {A B} (g : A → list B) (n : nat) (l : list A) i j x :
  (∀ a, a ∈ l → length (g a) = n) → l !! i = Some x → (j < n)%nat →
  (l ≫= g) !! (i * n + j)%nat = g x !! j.
Proof.
  revert i. induction l as [|a l IH]; intros i Hlen Hi Hj; [done|].
  rewrite bind_cons.
  assert (length (g a) = n) as Ha by (apply Hlen; by left).
  destruct i as [|i]; simpl in Hi.
  - injection Hi as ->. rewrite lookup_app_l by (simpl; lia). done.
  - rewrite lookup_app_r by (simpl; lia). rewrite Ha.
    replace (S i * n + j - n)%nat with (i * n + j)%nat by lia.
    apply IH; [|done|done]. intros a' Ha'. apply Hlen. by right.
Qed.

Lemma lookup_enumerate_configs self max_replication_factor (i j : nat) entry :
  (Z.of_nat i < max_replication_factor)%Z →
  profile self !! j = Some entry →
  enumerate_configs self max_replication_factor
    !! (i * length (profile self) + j)%nat
  = Some (NodeConfig.mk (name self)
            (Entry.num_cpus_per_replica entry) (Entry.gpu_type entry)
            (Entry.mean_batch_size entry) (Z.of_nat i + 1) (Entry.cloud entry)).
Proof.
  intros Hi Hj. unfold enumerate_configs.
  rewrite (lookup_bind_blocks _ (length (profile self)) _ i j (1 + Z.of_nat i)%Z).
  - rewrite bind_singleton_fmap, list_lookup_fmap, Hj. simpl.
    by rewrite (Z.add_comm 1).
  - intros a _. apply (length_bind_singleton (λ entry, NodeConfig.mk _ _ _ _ _ _)).
  - by apply lookup_seqZ.
  - by apply lookup_lt_Some in Hj.
Qed.

(** X10.  [enumerate_configs] lists exactly one config per row of the
    pruned profile and per replication factor from 1 to
    [max_replication_factor], the factors in the outer loop: the list has
    that many entries, and the config of row [j] with factor [i + 1] stands
    at position [i * rows + j].  Each config carries the name of the node,
    and [estimate_performance] on it returns, without printing, the values
    of a profiled row of its bundle at its batch size, with throughput and
    cost multiplied by its number of replicas. *)
Theorem enumerate_configs_estimable self max_replication_factor :
  length (enumerate_configs self max_replication_factor)
  = (Z.to_nat max_replication_factor * length (profile self))%nat
  ∧ (∀ (i j : nat) entry,
       (Z.of_nat i < max_replication_factor)%Z →
       profile self !! j = Some entry →
       enumerate_configs self max_replication_factor
         !! (i * length (profile self) + j)%nat
       = Some (NodeConfig.mk (name self)
                 (Entry.num_cpus_per_replica entry) (Entry.gpu_type entry)
                 (Entry.mean_batch_size entry) (Z.of_nat i + 1)
                 (Entry.cloud entry)))
  ∧ ∀ c, c ∈ enumerate_configs self max_replication_factor →
      NodeConfig.name c = name self
      ∧ (1 ≤ NodeConfig.num_replicas c ≤ max_replication_factor)%Z
      ∧ ∃ e, bundle_row self c e
          ∧ Entry.mean_batch_size e = NodeConfig.batch_size c
          ∧ estimate_performance self c
            = mret (Entry.p99_latency e,
                    Entry.throughput e * Qc_of_Z (NodeConfig.num_replicas c),
                    Entry.cost e * Qc_of_Z (NodeConfig.num_replicas c)).
Proof.
  split_and!.
  - apply length_enumerate_configs.
  - apply lookup_enumerate_configs.
  - intros c (i & entry & Hi & Hentry & ->)%elem_of_enumerate_configs.
    split_and!; [done|simpl; lia..|].
    by apply (estimate_performance_exact_row self _ entry).
Qed.

Lemma Qclt_floor_succ (x : Qc) : x < Qc_of_Z (floor x + 1).
Proof. unfold Qclt, floor. simpl. apply Qlt_floor. Qed.

(** The two outcomes of [increase_batch_size]. *)
Lemma increase_batch_size_eval self config :
  (increase_batch_size self config = mret None)
  ∨ ∃ r, bundle_row self config r
      ∧ Qc_of_Z (floor (NodeConfig.batch_size config) + 1)
        ≤ Entry.mean_batch_size r
      ∧ increase_batch_size self config
        = mret (Some (with_batch_size config (Entry.mean_batch_size r))).
Proof.
  set (t := Qc_of_Z (floor (NodeConfig.batch_size config) + 1)).
  unfold increase_batch_size. cbv zeta. fold t.
  pose proof (resource_bundle_matches_sorted self config) as Hs.
  assert (∀ r, bundle_row self config r ↔ r ∈ resource_bundle_matches self config)
    as Hrow by (intros r; symmetry; apply elem_of_resource_bundle_matches).
  destruct (sorted_split_lt t _ Hs) as (L & R & Hm & HL & HR).
  rewrite Hm in *. destruct R as [|r Q].
  - left. rewrite app_nil_r in *. rewrite (idx_lub_none _ _ HL).
    by rewrite decide_True.
  - right. apply Forall_cons in HR as [Hr HQ].
    apply StronglySorted_app_1_r, StronglySorted_cons in Hs as [Hle _].
    destruct (idx_lub_eval t L r Q HL Hr Hle) as [Hsum Hidx].
    rewrite decide_False by lia. rewrite Hidx. simpl.
    rewrite loc_middle. simpl.
    exists r. split_and!; [apply Hrow, elem_of_middle|done|done].
Qed.

(** X11.  A config returned by [increase_batch_size] has a strictly larger
    batch size, which is the batch size of a profiled row of the bundle,
    and [estimate_performance] on it returns, without printing, the values
    of such a row, with throughput and cost multiplied by the number of
    replicas. *)
Theorem increase_batch_size_increases self config new_config :
  increase_batch_size self config = mret (Some new_config) →
  NodeConfig.batch_size config < NodeConfig.batch_size new_config
  ∧ ∃ e, bundle_row self config e
      ∧ Entry.mean_batch_size e = NodeConfig.batch_size new_config
      ∧ estimate_performance self new_config
        = mret (Entry.p99_latency e,
                Entry.throughput e
                * Qc_of_Z (NodeConfig.num_replicas config),
                Entry.cost e * Qc_of_Z (NodeConfig.num_replicas config)).
Proof.
  intros Hinc.
  destruct (increase_batch_size_eval self config)
    as [Hnone|(r & Hr & Ht & Hsome)]; [by rewrite Hnone in Hinc|].
  rewrite Hsome in Hinc. injection Hinc as <-. simpl. split.
  - eapply Qclt_le_trans; [apply Qclt_floor_succ|done].
  - destruct (estimate_performance_exact_row self
                (with_batch_size config (Entry.mean_batch_size r)) r)
      as (e & He & Hbe & Hest); [done|done|].
    by exists e.
Qed.

(** ** The warning and the range of estimate_performance *)

(** X12.  [estimate_performance] prints its warning exactly when the
    bundle has rows and all of them are below the batch size of the
    config: it then prints that one line and returns the values of a row of
    greatest batch size, scaled by the number of replicas; in every other
    case, also when it raises, it prints nothing. *)
Theorem estimate_performance_warning self config :
  ((∃ r, bundle_row self config r)
   ∧ (∀ r, bundle_row self config r →
        Entry.mean_batch_size r < NodeConfig.batch_size config) →
   ∃ r0, bundle_row self config r0
     ∧ (∀ r, bundle_row self config r →
          Entry.mean_batch_size r ≤ Entry.mean_batch_size r0)
     ∧ estimate_performance self config
       = ([WarningNoHigherBatchSize config],
          Return (Entry.p99_latency r0,
                  Entry.throughput r0
                  * Qc_of_Z (NodeConfig.num_replicas config),
                  Entry.cost r0 * Qc_of_Z (NodeConfig.num_replicas config))))
  ∧ (¬ ((∃ r, bundle_row self config r)
        ∧ (∀ r, bundle_row self config r →
             Entry.mean_batch_size r < NodeConfig.batch_size config)) →
     printed (estimate_performance self config) = []).
Proof.
  assert (∀ r, r ∈ resource_bundle_matches self config ↔ bundle_row self config r)
    as Hrow by (intros r; apply elem_of_resource_bundle_matches).
  split.
  - intros [Hex Hall].
    destruct (matches_bracket self config Hex) as
      [L e E H Hm HL HE HH|r' Q Hm Hr' HQ|P r' Q Hm HP HQ Hr'
      |P G r0 r1 H Hm HP HG Hr0 Hr1 HH].
    + apply Forall_cons in HE as [He _].
      destruct (Qclt_not_eq _ _ (Hall e ltac:(apply Hrow; rewrite Hm;
                                               apply elem_of_middle))). done.
    + destruct (Qclt_asym _ _ Hr'). apply Hall, Hrow. rewrite Hm. by left.
    + exists r'. split_and!.
      * apply Hrow. rewrite Hm. apply elem_of_middle.
      * intros r Hr%Hrow. rewrite Hm in Hr.
        apply elem_of_app in Hr as [Hr|Hr].
        -- rewrite Forall_forall in HP. by apply Qclt_le_weak, HP.
        -- apply elem_of_cons in Hr as [->|Hr]; [apply Qcle_refl|].
           rewrite Forall_forall in HQ. rewrite (HQ _ Hr). apply Qcle_refl.
      * by apply (estimate_above self config P r' Q).
    + destruct (Qclt_asym _ _ Hr1). apply Hall, Hrow. rewrite Hm.
      apply elem_of_group_next.
  - intros Hnot.
    destruct (decide (resource_bundle_matches self config = [])) as [Hnil|Hne].
    { unfold estimate_performance. by rewrite Hnil. }
    apply resource_bundle_matches_nonempty in Hne as Hex.
    destruct (matches_bracket self config Hex) as
      [L e E H Hm HL HE HH|r' Q Hm Hr' HQ|P r' Q Hm HP HQ Hr'
      |P G r0 r1 H Hm HP HG Hr0 Hr1 HH].
    + by rewrite (estimate_exact self config L e E H).
    + by rewrite (estimate_below self config r' Q).
    + destruct Hnot. split; [done|]. intros r Hr%Hrow. rewrite Hm in Hr.
      pose proof (above_all _ _ _ _ HP HQ Hr') as Hall.
      rewrite Forall_forall in Hall. by apply Hall.
    + rewrite (estimate_interp self config P G r0 r1 H
                 (Entry.mean_batch_size r0)) by done.
      by destruct (decide _).
Qed.

Lemma lerp_between (x x0 y0 x1 y1 : Qc) :
  x0 < x → x < x1 → y0 < y1 →
  y0 ≤ lerp x x0 y0 x1 y1 ∧ lerp x x0 y0 x1 y1 ≤ y1.
Proof.
  intros Hx0 Hx1 Hy.
  assert (0 < x1 - x0) as Hd.
  { unfold Qcminus. rewrite <-Qclt_minus_iff. by eapply Qclt_trans. }
  assert (0 ≤ x - x0) as Ha.
  { apply Qclt_le_weak. unfold Qcminus. by rewrite <-Qclt_minus_iff. }
  assert (0 ≤ y1 - y0) as Hw.
  { apply Qclt_le_weak. unfold Qcminus. by rewrite <-Qclt_minus_iff. }
  assert (0 ≤ / (x1 - x0)) as Hinv by by apply Qclt_le_weak, Qcinv_pos.
  assert (x1 - x0 ≠ 0) as Hne by (by apply not_symmetry, Qclt_not_eq).
  assert ((x - x0) * / (x1 - x0) ≤ 1) as Hfrac.
  { rewrite <-(Qcmult_inv_r (x1 - x0)) by done.
    apply Qcmult_le_mono_nonneg_r; [done|].
    apply Qclt_le_weak in Hx1.
    by apply (Qcplus_le_mono_r x x1 (- x0)). }
  assert (0 ≤ (x - x0) * / (x1 - x0)) as Hfrac0
    by by apply Qcmult_nonneg_nonneg.
  assert (lerp x x0 y0 x1 y1
          = y0 + (y1 - y0) * ((x - x0) * / (x1 - x0))) as ->
    by (unfold lerp, Qcdiv; ring).
  split.
  - rewrite <-(Qcplus_0_r y0) at 1. apply Qcplus_le_mono_l.
    by apply Qcmult_nonneg_nonneg.
  - replace y1 with (y0 + (y1 - y0) * 1) at 2 by ring.
    apply Qcplus_le_mono_l. by apply Qcmult_le_mono_nonneg_l.
Qed.

Lemma strictly_increasing_last (f : Entry.t → Qc) (G : DataFrame) r0 r1 :
  strictly_increasing (f <$> G ++ [r0; r1]) → f r0 < f r1.
Proof.
  intros Hinc. apply (Hinc (length G)).
  - rewrite list_lookup_fmap, lookup_app_r, Nat.sub_diag by done. done.
  - rewrite list_lookup_fmap, lookup_app_r by lia.
    by replace (S (length G) - length G)%nat with 1%nat by lia.
Qed.

(** X13.  Whenever [estimate_performance] returns, the latency lies between
    the p99 latencies of two rows of the bundle, the throughput per replica
    between the throughputs of the same two rows, and the cost is the cost
    of a row of the bundle times the number of replicas. *)
Theorem estimate_performance_within_profile self config lat thru cost :
  result (estimate_performance self config) = Return (lat, thru, cost) →
  ∃ r r' rc t,
    bundle_row self config r ∧ bundle_row self config r'
    ∧ bundle_row self config rc
    ∧ Entry.p99_latency r ≤ lat ≤ Entry.p99_latency r'
    ∧ Entry.throughput r ≤ t ≤ Entry.throughput r'
    ∧ thru = t * Qc_of_Z (NodeConfig.num_replicas config)
    ∧ cost = Entry.cost rc * Qc_of_Z (NodeConfig.num_replicas config).
Proof.
  intros Hest.
  assert (∀ r, r ∈ resource_bundle_matches self config → bundle_row self config r)
    as Hrow by (intros r; apply elem_of_resource_bundle_matches).
  assert (∃ r, bundle_row self config r) as Hex.
  { apply resource_bundle_matches_nonempty. intros Hm.
    unfold estimate_performance in Hest. by rewrite Hm in Hest. }
  assert (∀ r, bundle_row self config r →
    result (estimate_performance self config)
    = Return (Entry.p99_latency r,
              Entry.throughput r * Qc_of_Z (NodeConfig.num_replicas config),
              Entry.cost r * Qc_of_Z (NodeConfig.num_replicas config)) →
    ∃ r r' rc t,
      bundle_row self config r ∧ bundle_row self config r'
      ∧ bundle_row self config rc
      ∧ Entry.p99_latency r ≤ lat ≤ Entry.p99_latency r'
      ∧ Entry.throughput r ≤ t ≤ Entry.throughput r'
      ∧ thru = t * Qc_of_Z (NodeConfig.num_replicas config)
      ∧ cost = Entry.cost rc * Qc_of_Z (NodeConfig.num_replicas config))
    as Hrowcase.
  { intros r Hr Heq. rewrite Heq in Hest. injection Hest as <- <- <-.
    exists r, r, r, (Entry.throughput r).
    split_and!; try done; apply Qcle_refl. }
  destruct (matches_bracket self config Hex) as
    [L e E H Hm HL HE HH|r' Q Hm Hr' HQ|P r' Q Hm HP HQ Hr'
    |P G r0 r1 H Hm HP HG Hr0 Hr1 HH].
  - apply (Hrowcase e).
    + apply Hrow. rewrite Hm. apply elem_of_middle.
    + by rewrite (estimate_exact self config L e E H).
  - apply (Hrowcase r').
    + apply Hrow. rewrite Hm. by left.
    + by rewrite (estimate_below self config r' Q).
  - apply (Hrowcase r').
    + apply Hrow. rewrite Hm. apply elem_of_middle.
    + by rewrite (estimate_above self config P r' Q).
  - rewrite (estimate_interp self config P G r0 r1 H
               (Entry.mean_batch_size r0)) in Hest by done.
    destruct (decide _) as [[Hthru Hlat]|]; [|done].
    injection Hest as <- <- <-.
    apply all_positive_np_diff, strictly_increasing_last in Hthru, Hlat.
    exists r0, r1, (default r0 (head G)), 
      (lerp (NodeConfig.batch_size config)
            (Entry.mean_batch_size r0) (Entry.throughput r0)
            (Entry.mean_batch_size r1) (Entry.throughput r1)).
    split_and!; try done.
    + apply Hrow. rewrite Hm. apply elem_of_group_last.
    + apply Hrow. rewrite Hm. apply elem_of_group_next.
    + apply Hrow. rewrite Hm. destruct G as [|g G].
      * apply (elem_of_group_last r0 r1 P [] H).
      * apply elem_of_app. right. simpl. by left.
    + by apply lerp_between.
    + by apply lerp_between.
    + by apply lerp_between.
    + by apply lerp_between.
Qed.

(** ** When the pipeline estimate returns *)

Lemma result_Return_bind {A B} (m : io A) (k : A → io B) b :
  result (m ≫= k) = Return b →
  ∃ a, result m = Return a ∧ result (k a) = Return b.
Proof.
  rewrite result_bind. destruct (result m) as [a|]; [|done].
  intros Hk. by exists a.
Qed.

Lemma for_loop_Return_inv {S A} (body : S → A → io S) l s s' :
  result (for_loop body s l) = Return s' →
  ∀ a, a ∈ l → ∃ s0 s1, result (body s0 a) = Return s1.
Proof.
  revert s. induction l as [|a l IH]; intros s Hret x Hx.
  { by apply elem_of_nil in Hx. }
  simpl in Hret. apply result_Return_bind in Hret as (s1 & Hs1 & Hrest).
  apply elem_of_cons in Hx as [->|Hx]; [by exists s, s1|by eapply IH].
Qed.

Lemma for_loop_returns {S A} (body : S → A → io S) l s :
  (∀ s a, a ∈ l → ∃ s', result (body s a) = Return s') →
  ∃ s', result (for_loop body s l) = Return s'.
Proof.
  revert s. induction l as [|a l IH]; intros s Hbody; simpl.
  { by exists s. }
  destruct (Hbody s a) as [s1 Hs1]; [by left|].
  destruct (IH s1) as [s' Hs'].
  { intros s0 a0 Ha0. apply Hbody. by right. }
  exists s'. by rewrite result_bind, Hs1.
Qed.

(** Two loops over the same list that keep a relation between their
    variables. *)
Lemma for_loop_sim {S1 S2 A} (body1 : S1 → A → io S1)
    (body2 : S2 → A → io S2) (R : S1 → S2 → Prop) l s1 s2 s1' :
  R s1 s2 →
  (∀ a s1 s2 s1', a ∈ l → R s1 s2 → result (body1 s1 a) = Return s1' →
     ∃ s2', result (body2 s2 a) = Return s2' ∧ R s1' s2') →
  result (for_loop body1 s1 l) = Return s1' →
  ∃ s2', result (for_loop body2 s2 l) = Return s2' ∧ R s1' s2'.
Proof.
  revert s1 s2. induction l as [|a l IH]; intros s1 s2 HR Hbody Hret; simpl in *.
  - injection Hret as <-. by exists s2.
  - apply result_Return_bind in Hret as (t1 & Ht1 & Hrest).
    destruct (Hbody a s1 s2 t1) as (t2 & Ht2 & HR'); [by left|done|done|].
    destruct (IH t1 t2 HR') as (s2' & Hs2' & HR''); [|done|].
    { intros ???? Hin. apply Hbody. by right. }
    exists s2'. by rewrite result_bind, Ht2.
Qed.

Section stage.
Context (scale_factors : gmap string Qc)
        (node_configs : gmap string NodeConfig.t)
        (single_node_profiles : gmap string NodeProfile).

Local Abbreviation stage :=
  (estimate_stage scale_factors node_configs single_node_profiles).
Local Abbreviation node_body :=
  (visit_node scale_factors node_configs single_node_profiles).
Local Abbreviation path_body :=
  (visit_path scale_factors node_configs single_node_profiles).

Lemma estimate_stage_Return_inv node lat scaled_thru cost :
  result (stage node) = Return (lat, scaled_thru, cost) →
  ∃ prof conf factor thru,
    single_node_profiles !! node = Some prof
    ∧ node_configs !! node = Some conf
    ∧ scale_factors !! node = Some factor
    ∧ result (estimate_performance prof conf) = Return (lat, thru, cost)
    ∧ scaled_thru = divide thru factor.
Proof.
  unfold estimate_stage, getitem. intros Hret.
  destruct (single_node_profiles !! node) as [prof|]; [|done].
  rewrite io_bind_return in Hret.
  destruct (node_configs !! node) as [conf|]; [|done].
  rewrite io_bind_return in Hret.
  apply result_Return_bind in Hret as ([[l u] c] & Hest & Hret).
  destruct (scale_factors !! node) as [factor|]; [|done].
  rewrite io_bind_return in Hret. injection Hret as <- <- <-.
  by exists prof, conf, factor, u.
Qed.

Lemma estimate_stage_eval node prof conf factor lat thru cost :
  single_node_profiles !! node = Some prof →
  node_configs !! node = Some conf →
  scale_factors !! node = Some factor →
  result (estimate_performance prof conf) = Return (lat, thru, cost) →
  result (stage node) = Return (lat, divide thru factor, cost).
Proof.
  intros Hprof Hconf Hsf Hest.
  unfold estimate_stage, getitem. rewrite Hprof, Hconf, Hsf.
  rewrite !io_bind_return, result_bind, Hest, outcome_bind_return.
  cbv beta iota. by rewrite io_bind_return.
Qed.

Lemma visit_node_Return_inv s node s' :
  result (node_body s node) = Return s' →
  node ∈ stages [node] →
  ∃ est, result (stage node) = Return est.
Proof.
  destruct s as [st pl]. unfold visit_node. intros Hret Hstage.
  rewrite decide_False in Hret.
  - apply result_Return_bind in Hret as (est & Hest & _). by exists est.
  - by apply list_elem_of_filter in Hstage as [? _].
Qed.

Lemma visit_node_returns s node :
  (node ∈ stages [node] → ∃ est, result (stage node) = Return est) →
  ∃ s', result (node_body s node) = Return s'.
Proof.
  destruct s as [st pl]. unfold visit_node. intros Hstage.
  destruct (decide (node = SOURCE ∨ node = SINK)) as [|Hns]; [by eexists|].
  destruct Hstage as [[[l t] c] Hest].
  { unfold stages. rewrite filter_cons_True by done. by left. }
  rewrite result_bind, Hest, outcome_bind_return. cbv beta iota.
  destruct (update_bottleneck st t node). by eexists.
Qed.

Lemma visit_path_returns st path :
  (∀ node, node ∈ stages path →
     ∃ est, result (stage node) = Return est) →
  ∃ st', result (path_body st path) = Return st'.
Proof.
  intros Hpath. unfold visit_path.
  destruct (for_loop_returns node_body path (st, 0)) as [[st1 pl] Hloop].
  { intros s node Hin. apply visit_node_returns.
    intros [Hns _]%list_elem_of_filter. apply Hpath.
    by apply list_elem_of_filter. }
  rewrite result_bind, Hloop, outcome_bind_return. by eexists.
Qed.
End stage.

(** The estimate of the pipeline is returned exactly when the paths are
    enumerated and each stage on each of them is estimated. *)
Lemma estimate_pipeline_Return_iff limit dag scale_factors node_configs
    single_node_profiles :
  (∃ r, result (estimate_pipeline_performance_for_config limit dag
                  scale_factors node_configs single_node_profiles)
        = Return r)
  ↔ ∃ paths, enumerate_paths limit dag = Return paths
      ∧ ∀ p node, p ∈ paths → node ∈ stages p →
          ∃ est, result (estimate_stage scale_factors node_configs
                           single_node_profiles node) = Return est.
Proof.
  unfold estimate_pipeline_performance_for_config. split.
  - intros [r Hret].
    apply result_Return_bind in Hret as (paths & Hpaths & Hret).
    rewrite result_lift in Hpaths. exists paths. split; [done|].
    apply result_Return_bind in Hret as (st & Hloop & _).
    intros p node Hp Hnode.
    destruct (for_loop_Return_inv _ _ _ _ Hloop p Hp) as (st0 & st1 & Hpath).
    unfold visit_path in Hpath.
    apply result_Return_bind in Hpath as (s' & Hnodes & _).
    apply list_elem_of_filter in Hnode as [Hns Hin].
    destruct (for_loop_Return_inv _ _ _ _ Hnodes node Hin)
      as (s0 & s1 & Hvisit).
    apply (visit_node_Return_inv _ _ _ _ _ _ Hvisit).
    unfold stages. rewrite filter_cons_True by done. by left.
  - intros (paths & Hpaths & Hstages).
    destruct (for_loop_returns
      (visit_path scale_factors node_configs single_node_profiles) paths
      {| bottleneck_thruput := None; bottleneck_node := None;
         total_cost := 0; max_latency := None |}) as [st Hloop].
    { intros st0 p Hp. apply visit_path_returns. intros node.
      by apply Hstages. }
    rewrite Hpaths, io_bind_return, result_bind, Hloop, outcome_bind_return.
    by eexists.
Qed.

(** X14.  [estimate_pipeline_performance_for_config] returns exactly when
    the paths can be enumerated and every stage on them has a profile, a
    config, a scale factor, and an estimate that [estimate_performance]
    returns.  A scale factor of zero does not stop it: the division gives
    inf, -inf or nan. *)
Theorem estimate_pipeline_returns_iff limit dag scale_factors
    node_configs single_node_profiles :
  (∃ r, result (estimate_pipeline_performance_for_config limit dag
                  scale_factors node_configs single_node_profiles)
        = Return r)
  ↔ ∃ paths, enumerate_paths limit dag = Return paths
      ∧ ∀ p node, p ∈ paths → node ∈ stages p →
          ∃ prof conf factor est,
            single_node_profiles !! node = Some prof
            ∧ node_configs !! node = Some conf
            ∧ scale_factors !! node = Some factor
            ∧ result (estimate_performance prof conf) = Return est.
Proof.
  rewrite estimate_pipeline_Return_iff. split.
  - intros (paths & Hpaths & Hstages). exists paths. split; [done|].
    intros p node Hp Hnode.
    destruct (Hstages p node Hp Hnode) as [[[l t] c] Hest].
    apply estimate_stage_Return_inv in Hest
      as (prof & conf & factor & thru & ? & ? & ? & ? & _).
    by exists prof, conf, factor, (l, thru, c).
  - intros (paths & Hpaths & Hstages). exists paths. split; [done|].
    intros p node Hp Hnode.
    destruct (Hstages p node Hp Hnode)
      as (prof & conf & factor & [[l t] c] & Hprof & Hconf & Hsf & Hest).
    eexists. by apply (estimate_stage_eval _ _ _ node prof conf factor).
Qed.

(** ** Replica scaling of the pipeline estimate *)

Section scaling.
Context (scale_factors : gmap string Qc)
        (node_configs : gmap string NodeConfig.t)
        (single_node_profiles : gmap string NodeProfile)
        (k : Z).
Hypothesis k_pos : (0 < k)%Z.

Local Abbreviation configs' := (scale_replicas k <$> node_configs).

Lemma Qc_of_Z_pos : 0 < Qc_of_Z k.
Proof. by apply (Z2Qc_inj_lt 0 k). Qed.

Lemma divide_scaled thru factor :
  divide (Qc_of_Z k * thru) factor = np_scale (Qc_of_Z k) (divide thru factor).
Proof.
  pose proof Qc_of_Z_pos as Hk. unfold divide.
  assert (∀ a : Qc, 0 < a ↔ 0 < Qc_of_Z k * a) as Hpos.
  { intros a. rewrite (Qcmult_lt_mono_pos_l 0 a (Qc_of_Z k) Hk).
    by replace (Qc_of_Z k * 0) with (0 : Qc) by ring. }
  assert (∀ a : Qc, a < 0 ↔ Qc_of_Z k * a < 0) as Hneg.
  { intros a. rewrite (Qcmult_lt_mono_pos_l a 0 (Qc_of_Z k) Hk).
    by replace (Qc_of_Z k * 0) with (0 : Qc) by ring. }
  destruct (decide (factor = 0)) as [|Hne].
  - destruct (decide (0 < thru)) as [Hp|Hnp].
    { by rewrite (decide_True _ _ (proj1 (Hpos thru) Hp)). }
    rewrite (decide_False _ _ (λ H, Hnp (proj2 (Hpos thru) H))).
    destruct (decide (thru < 0)) as [Hn|Hnn].
    { by rewrite (decide_True _ _ (proj1 (Hneg thru) Hn)). }
    by rewrite (decide_False _ _ (λ H, Hnn (proj2 (Hneg thru) H))).
  - simpl. f_equal. unfold Qcdiv. ring.
Qed.

Lemma np_gt_scaled a b :
  np_gt (np_scale (Qc_of_Z k) a) (np_scale (Qc_of_Z k) b) ↔ np_gt a b.
Proof.
  destruct a, b; simpl; try done. symmetry.
  apply Qcmult_lt_mono_pos_l, Qc_of_Z_pos.
Qed.

Lemma np_gt_irrefl a : ¬ np_gt a a.
Proof.
  destruct a as [q| | |]; simpl; [|tauto..].
  intros Hq. apply Qclt_not_le in Hq. apply Hq, Qcle_refl.
Qed.

Lemma estimate_stage_scaled node lat thru cost :
  result (estimate_stage scale_factors node_configs single_node_profiles node)
  = Return (lat, thru, cost) →
  result (estimate_stage scale_factors configs' single_node_profiles node)
  = Return (lat, np_scale (Qc_of_Z k) thru, Qc_of_Z k * cost).
Proof.
  intros Hest. apply estimate_stage_Return_inv in Hest
    as (prof & conf & factor & u & Hprof & Hconf & Hsf & Hest & ->).
  apply (estimate_performance_linear _ _ k) in Hest.
  rewrite <-divide_scaled.
  apply (estimate_stage_eval scale_factors configs' single_node_profiles
           node prof (scale_replicas k conf) factor); try done.
  by rewrite lookup_fmap, Hconf.
Qed.

Lemma update_bottleneck_scaled st1 st2 thru node :
  scaled_state (Qc_of_Z k) st1 st2 →
  update_bottleneck st2 (np_scale (Qc_of_Z k) thru) node
  = (np_scale (Qc_of_Z k) <$> (update_bottleneck st1 thru node).1,
     (update_bottleneck st1 thru node).2).
Proof.
  intros (Hbt & Hbn & _). unfold update_bottleneck. rewrite Hbt, Hbn.
  destruct (bottleneck_thruput st1) as [t|]; simpl.
  - destruct (decide (np_gt t thru)) as [Hgt|Hngt].
    + rewrite decide_True; [done|]. by apply np_gt_scaled.
    + rewrite decide_False; [done|]. by rewrite np_gt_scaled.
  - by rewrite !decide_False by apply np_gt_irrefl.
Qed.

Lemma visit_node_scaled s1 s2 node s1' :
  scaled_state (Qc_of_Z k) s1.1 s2.1 → s1.2 = s2.2 →
  result (visit_node scale_factors node_configs single_node_profiles s1 node)
  = Return s1' →
  ∃ s2', result (visit_node scale_factors configs' single_node_profiles
                   s2 node) = Return s2'
    ∧ scaled_state (Qc_of_Z k) s1'.1 s2'.1 ∧ s1'.2 = s2'.2.
Proof.
  destruct s1 as [st1 pl1], s2 as [st2 pl2]. simpl. intros Hst <-.
  unfold visit_node. destruct (decide _) as [|Hstage].
  { intros [= <-]. by exists (st2, pl1). }
  intros Hret. apply result_Return_bind in Hret as ([[l t] c] & Hest & Hret).
  rewrite result_bind, (estimate_stage_scaled _ _ _ _ Hest), outcome_bind_return.
  cbv beta iota. rewrite (update_bottleneck_scaled st1 st2 t node Hst).
  destruct (update_bottleneck st1 t node) as [bt bn]. simpl in *.
  injection Hret as <-. eexists; split; [done|]. simpl.
  destruct Hst as (_ & _ & Hcost & Hlat). split; [|done].
  split_and!; simpl; [done|done| |done]. rewrite Hcost. ring.
Qed.

Lemma visit_path_scaled st1 st2 path st1' :
  scaled_state (Qc_of_Z k) st1 st2 →
  result (visit_path scale_factors node_configs single_node_profiles st1 path)
  = Return st1' →
  ∃ st2', result (visit_path scale_factors configs' single_node_profiles
                    st2 path) = Return st2'
    ∧ scaled_state (Qc_of_Z k) st1' st2'.
Proof.
  intros Hst Hret. unfold visit_path in *.
  apply result_Return_bind in Hret as ([t1 pl1] & Hloop & Hret).
  destruct (for_loop_sim
    (visit_node scale_factors node_configs single_node_profiles)
    (visit_node scale_factors configs' single_node_profiles)
    (λ s1 s2, scaled_state (Qc_of_Z k) s1.1 s2.1 ∧ s1.2 = s2.2)
    path (st1, 0) (st2, 0) (t1, pl1)) as ([t2 pl2] & Hloop2 & Ht & Hpl);
    [done| |done|].
  { intros a s1 s2 s1' _ [??]. by apply visit_node_scaled. }
  simpl in Hpl. subst pl2.
  rewrite result_bind, Hloop2, outcome_bind_return. cbv beta iota.
  injection Hret as <-. eexists; split; [done|].
  destruct Ht as (Hbt & Hbn & Hcost & Hlat). simpl in *.
  split_and!; simpl; [done|done|done|]. by rewrite Hlat.
Qed.
End scaling.

(** X15.  Multiplying the number of replicas of every config by the same
    positive integer [k] multiplies the throughput and the cost of the
    pipeline estimate by [k] and leaves its latency and its bottleneck node
    unchanged. *)
Theorem estimate_pipeline_replica_scaling limit dag scale_factors
    node_configs single_node_profiles k perf bottleneck :
  (0 < k)%Z →
  result (estimate_pipeline_performance_for_config limit dag scale_factors
            node_configs single_node_profiles) = Return (perf, bottleneck) →
  result (estimate_pipeline_performance_for_config limit dag scale_factors
            (scale_replicas k <$> node_configs) single_node_profiles)
  = Return ({| Estimate.latency := Estimate.latency perf;
               Estimate.throughput :=
                 np_scale (Qc_of_Z k) <$> Estimate.throughput perf;
               Estimate.cost := Qc_of_Z k * Estimate.cost perf |},
            bottleneck).
Proof.
  intros Hk Hret. unfold estimate_pipeline_performance_for_config in *.
  apply result_Return_bind in Hret as (paths & Hpaths & Hret).
  rewrite result_bind, Hpaths, outcome_bind_return. cbv beta iota.
  apply result_Return_bind in Hret as (st1 & Hloop & Hret).
  destruct (for_loop_sim
    (visit_path scale_factors node_configs single_node_profiles)
    (visit_path scale_factors (scale_replicas k <$> node_configs)
       single_node_profiles)
    (scaled_state (Qc_of_Z k)) paths
    {| bottleneck_thruput := None; bottleneck_node := None;
       total_cost := 0; max_latency := None |}
    {| bottleneck_thruput := None; bottleneck_node := None;
       total_cost := 0; max_latency := None |} st1)
    as (st2 & Hloop2 & Hbt & Hbn & Hcost & Hlat); [| |exact Hloop|].
  { split_and!; simpl; [done|done|ring|done]. }
  { intros a s1 s2 s1' _. by apply visit_path_scaled. }
  rewrite result_bind, Hloop2, outcome_bind_return. cbv beta iota.
  injection Hret as <- <-. simpl. by rewrite Hbt, Hbn, Hcost, Hlat.
Qed.

(** ** The built-in pipelines *)

Lemma pipeline_one_well_formed :
  well_formed {| adj_list := pipeline_one_adj_list;
                 reference_node := "inception" |}.
Proof.
  apply well_formed_checks.
  - exists ["tf-resnet-feats"; "inception"]. by_compute.
  - by_compute.
  - by_compute.
  - exists [SOURCE; "inception"; "tf-log-reg"; SINK]. unfold source_sink_path.
    apply (walk_step _ SOURCE "inception" ["tf-resnet-feats"; "inception"]);
      [done|by_compute|by right; left|].
    apply (walk_step _ "inception" "tf-log-reg" ["tf-log-reg"]);
      [done|by_compute|by left|].
    apply (walk_step _ "tf-log-reg" SINK [SINK]); [done|by_compute|by left|].
    constructor.
Qed.

Lemma pipeline_two_well_formed :
  well_formed {| adj_list := pipeline_two_adj_list;
                 reference_node := "tf-lang-detect" |}.
Proof.
  apply well_formed_checks.
  - exists ["tf-lang-detect"]. by_compute.
  - by_compute.
  - by_compute.
  - exists [SOURCE; "tf-lang-detect"; SINK]. unfold source_sink_path.
    apply (walk_step _ SOURCE "tf-lang-detect" ["tf-lang-detect"]);
      [done|by_compute|by left|].
    apply (walk_step _ "tf-lang-detect" SINK ["tf-lstm"; "tf-nmt"; SINK]);
      [done|by_compute|by do 2 right; left|].
    constructor.
Qed.

(** X16.  [get_logical_pipeline] never raises: the assertions of the
    constructor hold for the three built-in graphs.  It returns [None]
    exactly for the names other than the three it knows, and each graph it
    returns is well formed, acyclic, has at most six keys, and has a
    reference node that is one of its stages. *)
Theorem get_logical_pipeline_well_formed pipeline_name :
  ∃ r, get_logical_pipeline pipeline_name = Return r
    ∧ (r = None ↔
       pipeline_name ∉ ["pipeline_one"; "pipeline_two"; "pipeline_three"])
    ∧ ∀ dag, r = Some dag →
        well_formed dag
        ∧ acyclic (adj_list dag)
        ∧ (size (adj_list dag) ≤ 6)%nat
        ∧ is_Some (adj_list dag !! reference_node dag)
        ∧ reference_node dag ≠ SOURCE ∧ reference_node dag ≠ SINK.
Proof.
  unfold get_logical_pipeline.
  destruct (decide (pipeline_name = "pipeline_one")) as [->|H1];
    [|destruct (decide (pipeline_name = "pipeline_two")) as [->|H2];
      [|destruct (decide (pipeline_name = "pipeline_three")) as [->|H3]]].
  - exists (Some {| adj_list := pipeline_one_adj_list;
                    reference_node := "inception" |}).
    split; [by_compute|]. split.
    { split; [done|]. intros Hnin. destruct Hnin. by left. }
    intros dag [= <-]. split_and!; [|..|done|done].
    + apply pipeline_one_well_formed.
    + apply (ranked_acyclic _ pipeline_one_rank). by_compute.
    + by_compute.
    + by_compute.
  - exists (Some {| adj_list := pipeline_two_adj_list;
                    reference_node := "tf-lang-detect" |}).
    split; [by_compute|]. split.
    { split; [done|]. intros Hnin. destruct Hnin. by right; left. }
    intros dag [= <-]. split_and!; [|..|done|done].
    + apply pipeline_two_well_formed.
    + apply (ranked_acyclic _ pipeline_two_rank). by_compute.
    + by_compute.
    + by_compute.
  - exists (Some pipeline_three).
    split; [by_compute|]. split.
    { split; [done|]. intros Hnin. destruct Hnin. by do 2 right; left. }
    intros dag [= <-]. split_and!; [|..|done|done].
    + apply pipeline_three_well_formed.
    + apply pipeline_three_acyclic.
    + by_compute.
    + by_compute.
  - exists None. split; [done|]. split; [|done].
    split; [|done]. intros _.
    by intros [?|[?|[?|?%elem_of_nil]%elem_of_cons]%elem_of_cons]%elem_of_cons.
Qed.

(** ** Scale factors *)

Section scale_factors.
Implicit Types (counts : gmap string Qc) (c : counter) (m : string).

Lemma init_counts_lookup node_names counts m :
  foldl (λ counts m, <[m := 0]> counts) counts node_names !! m
  = if decide (m ∈ node_names) then Some 0 else counts !! m.
Proof.
  revert counts. induction node_names as [|n names IH]; intros counts.
  { destruct (decide (m ∈ [])) as [Hin|]; [by apply elem_of_nil in Hin|done]. }
  cbn [foldl]. rewrite IH.
  destruct (decide (m ∈ names)) as [Hin|Hnin],
    (decide (m ∈ n :: names)) as [Hin'|Hnin']; try done.
  - destruct Hnin'. by right.
  - apply elem_of_cons in Hin' as [->|?]; [|done]. by rewrite lookup_insert_eq.
  - rewrite lookup_insert_ne; [done|]. intros ->. apply Hnin'. by left.
Qed.

Lemma multiplicity_cons_eq m names :
  multiplicity m (m :: names) = (1 + multiplicity m names)%Z.
Proof. unfold multiplicity. rewrite filter_cons_True by done. simpl. lia. Qed.

Lemma multiplicity_cons_ne m n names :
  m ≠ n → multiplicity m (n :: names) = multiplicity m names.
Proof. intros Hne. unfold multiplicity. by rewrite filter_cons_False. Qed.

Lemma add_counter_lookup names counts c m :
  add_counter names counts c !! m
  = (λ count, count + (if decide (c.1 = count_key m)
                       then Qc_of_Z (multiplicity m names) * c.2 else 0))
    <$> counts !! m.
Proof.
  unfold add_counter. revert counts.
  induction names as [|n names IH]; intros counts; simpl.
  { destruct (counts !! m) as [x|]; [|done]. simpl. apply (f_equal Some).
    change (multiplicity m []) with 0%Z. rewrite Z2Qc_inj_0.
    destruct (decide _); ring. }
  rewrite IH. destruct (decide (m = n)) as [<-|Hne].
  - rewrite multiplicity_cons_eq, Z2Qc_inj_add, Z2Qc_inj_1.
    destruct (decide (c.1 = count_key m)).
    + rewrite lookup_alter_eq. destruct (counts !! m) as [x|]; [|done].
      simpl. apply (f_equal Some). ring.
    + done.
  - rewrite multiplicity_cons_ne by done.
    destruct (decide (c.1 = count_key n)); [|done].
    by rewrite lookup_alter_ne.
Qed.

Lemma sum_list_cons x l : sum_list (x :: l) = x + sum_list l.
Proof. done. Qed.

Lemma add_counters_lookup names (cs : list counter) counts m :
  foldl (add_counter names) counts cs !! m
  = (λ count, count + Qc_of_Z (multiplicity m names)
                      * sum_list ((filter (λ c : counter, c.1 = count_key m) cs).*2))
    <$> counts !! m.
Proof.
  revert counts. induction cs as [|c cs IH]; intros counts; simpl.
  { destruct (counts !! m) as [x|]; [|done]. simpl. apply (f_equal Some).
    unfold sum_list. simpl. ring. }
  rewrite IH, add_counter_lookup.
  destruct (counts !! m) as [x|]; [|done]. simpl. apply (f_equal Some).
  destruct (decide (c.1 = count_key m)) as [Hc|Hc].
  - rewrite filter_cons_True by done. rewrite fmap_cons, sum_list_cons. ring.
  - rewrite filter_cons_False by done. ring.
Qed.

Lemma add_trials_lookup names (trials : list trial) counts m :
  foldl (λ counts trial, foldl (add_counter names) counts trial) counts trials !! m
  = (λ count, count + Qc_of_Z (multiplicity m names) * predictions trials m)
    <$> counts !! m.
Proof.
  unfold predictions. revert counts.
  induction trials as [|t trials IH]; intros counts; simpl.
  { destruct (counts !! m) as [x|]; [|done]. simpl. apply (f_equal Some).
    unfold sum_list. simpl. ring. }
  rewrite IH, add_counters_lookup.
  destruct (counts !! m) as [x|]; [|done]. simpl. apply (f_equal Some).
  rewrite filter_app, fmap_app, sum_list_app. ring.
Qed.

(** The counts after the loops over the trials. *)
Lemma counts_lookup exp (trials : list trial) m :
  foldl (λ counts trial, foldl (add_counter (Experiment.node_configs exp)) counts trial)
        (foldl (λ counts m, <[m := 0]> counts) ∅ (Experiment.node_configs exp))
        trials !! m
  = if decide (m ∈ Experiment.node_configs exp) then Some (recorded exp trials m)
    else None.
Proof.
  rewrite add_trials_lookup, init_counts_lookup, lookup_empty.
  destruct (decide _); [|done]. simpl. apply (f_equal Some). unfold recorded. ring.
Qed.

(** The three outcomes, by the inputs. *)
Lemma get_node_scale_factors_eval exp reference_node :
  (get_node_scale_factors exp reference_node).2
  = match head (omap id (Experiment.client_metrics exp)) with
    | None => inl (UnboundLocalError "clipper_metrics")
    | Some trials =>
        if decide (reference_node ∈ Experiment.node_configs exp) then
          if decide (recorded exp trials reference_node = 0)
          then inl (Exception ZeroDivisionError)
          else inr ((λ count, count / recorded exp trials reference_node) <$>
                    foldl (λ counts trial,
                             foldl (add_counter (Experiment.node_configs exp)) counts trial)
                          (foldl (λ counts m, <[m := 0]> counts) ∅
                                 (Experiment.node_configs exp))
                          trials)
        else inl (Exception (KeyError reference_node))
    end.
Proof.
  unfold get_node_scale_factors. simpl.
  destruct (head _) as [trials|]; [|done].
  rewrite counts_lookup. by destruct (decide (_ ∈ _)).
Qed.
End scale_factors.

(** X17.  When [get_node_scale_factors] returns, it has printed nothing,
    the reference node is among the node configs and has scale factor 1,
    its recorded count is not zero, and the keys of the result are the
    names of the node configs, each with its recorded count divided by
    that of the reference node. *)
Theorem get_node_scale_factors_reference exp reference_node factors :
  (get_node_scale_factors exp reference_node).2 = inr factors →
  (get_node_scale_factors exp reference_node).1 = []
  ∧ reference_node ∈ Experiment.node_configs exp
  ∧ factors !! reference_node = Some 1
  ∧ ∃ trials,
      head (omap id (Experiment.client_metrics exp)) = Some trials
      ∧ recorded exp trials reference_node ≠ 0
      ∧ ∀ m, factors !! m
             = if decide (m ∈ Experiment.node_configs exp)
               then Some (recorded exp trials m
                          / recorded exp trials reference_node)
               else None.
Proof.
  rewrite get_node_scale_factors_eval.
  destruct (head _) as [trials|] eqn:Htrials; [|done].
  destruct (decide (reference_node ∈ _)) as [Hin|]; [|done].
  destruct (decide (recorded _ _ _ = 0)) as [|Hne]; [done|].
  intros [= <-].
  assert (∀ m, ((λ count, count / recorded exp trials reference_node) <$>
      foldl (λ counts trial,
               foldl (add_counter (Experiment.node_configs exp)) counts trial)
            (foldl (λ counts m, <[m := 0]> counts) ∅ (Experiment.node_configs exp))
            trials) !! m
    = if decide (m ∈ Experiment.node_configs exp)
      then Some (recorded exp trials m / recorded exp trials reference_node)
      else None) as Hlookup.
  { intros m. rewrite lookup_fmap, counts_lookup. by destruct (decide _). }
  split_and!.
  - unfold get_node_scale_factors. simpl. by rewrite decide_True.
  - done.
  - rewrite Hlookup, decide_True by done. f_equal.
    unfold Qcdiv. by apply Qcmult_inv_r.
  - by exists trials.
Qed.

(** X18.  [get_node_scale_factors] raises UnboundLocalError when no client
    has metrics; with metrics, it prints its line and raises KeyError when
    the reference node is not among the node configs, and raises
    ZeroDivisionError, printing nothing, when the reference node is
    among them with a recorded count of zero. *)
Theorem get_node_scale_factors_raises exp reference_node :
  (head (omap id (Experiment.client_metrics exp)) = None →
   (get_node_scale_factors exp reference_node).2
   = inl (UnboundLocalError "clipper_metrics"))
  ∧ (∀ trials, head (omap id (Experiment.client_metrics exp)) = Some trials →
     (reference_node ∉ Experiment.node_configs exp →
      get_node_scale_factors exp reference_node
      = ([ReferenceNodeNotInPipelineConfig],
         inl (Exception (KeyError reference_node))))
     ∧ (reference_node ∈ Experiment.node_configs exp →
        recorded exp trials reference_node = 0 →
        get_node_scale_factors exp reference_node
        = ([], inl (Exception ZeroDivisionError)))).
Proof.
  split; [|intros trials Htrials; split].
  - intros Hnone. by rewrite get_node_scale_factors_eval, Hnone.
  - intros Hnin.
    rewrite (surjective_pairing (get_node_scale_factors exp reference_node)).
    rewrite get_node_scale_factors_eval, Htrials, decide_False by done.
    f_equal. unfold get_node_scale_factors. simpl. by rewrite decide_False.
  - intros Hin Hzero.
    rewrite (surjective_pairing (get_node_scale_factors exp reference_node)).
    rewrite get_node_scale_factors_eval, Htrials, decide_True by done.
    rewrite decide_True by done.
    f_equal. unfold get_node_scale_factors. simpl. by rewrite decide_True.
Qed.

(** X19.  With the scale factors that [get_node_scale_factors] returns for
    the reference node of the graph, the pipeline estimate returns exactly
    when the paths can be enumerated and every stage on them is among the
    node configs of the experiment and has a profile, a config and an
    estimate that [estimate_performance] returns.  A stage without
    recorded predictions, whose scale factor is zero, does not stop it. *)
Theorem estimate_pipeline_with_scale_factors limit dag exp factors
    node_configs single_node_profiles :
  (get_node_scale_factors exp (reference_node dag)).2 = inr factors →
  (∃ r, result (estimate_pipeline_performance_for_config limit dag factors
                  node_configs single_node_profiles) = Return r)
  ↔ ∃ paths, enumerate_paths limit dag = Return paths
      ∧ ∀ p node, p ∈ paths → node ∈ stages p →
          node ∈ Experiment.node_configs exp
          ∧ ∃ prof conf est,
              single_node_profiles !! node = Some prof
              ∧ node_configs !! node = Some conf
              ∧ result (estimate_performance prof conf) = Return est.
Proof.
  rewrite get_node_scale_factors_eval.
  destruct (head _) as [trials|] eqn:Htrials; [|done].
  destruct (decide (reference_node dag ∈ _)) as [Hin|]; [|done].
  destruct (decide (recorded _ _ _ = 0)) as [|Hne]; [done|].
  intros [= <-]. rewrite estimate_pipeline_Return_iff. split.
  - intros (paths & Hpaths & Hstages). exists paths. split; [done|].
    intros p node Hp Hnode.
    destruct (Hstages p node Hp Hnode) as [[[l t] c] Hest].
    apply estimate_stage_Return_inv in Hest
      as (prof & conf & factor & thru & Hprof & Hconf & Hfactor & Hest & _).
    rewrite lookup_fmap, counts_lookup in Hfactor.
    destruct (decide (node ∈ _)) as [Hnin|]; [|done].
    split; [done|]. by exists prof, conf, (l, thru, c).
  - intros (paths & Hpaths & Hstages). exists paths. split; [done|].
    intros p node Hp Hnode.
    destruct (Hstages p node Hp Hnode)
      as (Hnin & prof & conf & [[l t] c] & Hprof & Hconf & Hest).
    eexists. eapply (estimate_stage_eval _ _ _ node prof conf); [done..| |done].
    by rewrite lookup_fmap, counts_lookup, decide_True.
Qed.

(** ** Instances *)

(** X1, instance: a frame of two rows. *)
Lemma prune_profile_nonempty_witness : prune_profile dominated_rows ≠ [].
Proof. apply (prune_profile_nonempty dominated_rows). done. Defined.

(** X2, instance: the second of two rows is worse than the first on all three columns. *)
Lemma prune_profile_dropped_dominated_witness :
  ∃ j, j ∈ prune_profile dominated_rows
     ∧ strictly_dominates j (example_row 20 90 2 3).
Proof.
  apply (prune_profile_dropped_dominated dominated_rows (example_row 20 90 2 3)).
  - by_compute.
  - by_compute.
Defined.

(** X3, instance: a frame and its reverse. *)
Lemma prune_profile_perm_witness :
  prune_profile (reverse dominated_rows) ≡ₚ prune_profile dominated_rows.
Proof.
  apply (prune_profile_perm (reverse dominated_rows) dominated_rows).
  apply reverse_Permutation.
Defined.

(** X4, instance: the cascade of pipeline_three with a recursion limit of 5. *)
Lemma enumerate_paths_shape_witness :
  ∃ paths, enumerate_paths 5 pipeline_three = Return paths
    ∧ ∀ p, p ∈ paths →
        p = SOURCE :: stages p ++ [SINK]
        ∧ NoDup p
        ∧ (length p ≤ size (adj_list pipeline_three))%nat
        ∧ ∀ node, node ∈ stages p → is_Some (adj_list pipeline_three !! node).
Proof.
  apply (enumerate_paths_shape 5 pipeline_three).
  - apply pipeline_three_well_formed.
  - apply pipeline_three_acyclic.
  - by_compute.
Defined.

Lemma cyclic_dag_edge u v children :
  adj_list cyclic_dag !! u = Some children → v ∈ children → u ≠ SINK →
  search_step (adj_list cyclic_dag) u v.
Proof. intros Hu Hv Hne. split; [done|]. by exists children. Qed.

(** X5, instance: the cycle a -> b -> a. *)
Lemma enumerate_paths_cycle_witness :
  enumerate_paths 5 cyclic_dag = Raise RecursionError
  ∨ ∃ v, rtc (search_step (adj_list cyclic_dag)) SOURCE v
       ∧ v ≠ SINK ∧ adj_list cyclic_dag !! v = None
       ∧ enumerate_paths 5 cyclic_dag = Raise (KeyError v).
Proof.
  apply (enumerate_paths_cycle 5 cyclic_dag "a").
  - apply rtc_once. apply (cyclic_dag_edge SOURCE "a" ["a"]); by_compute.
  - apply (tc_l _ "a" "b" "a"); [|apply tc_once].
    + apply (cyclic_dag_edge "a" "b" ["b"]); by_compute.
    + apply (cyclic_dag_edge "b" "a" ["a"; SINK]); by_compute.
Defined.

(** X6, instance: the child b of a is no key. *)
Lemma enumerate_paths_missing_key_witness :
  ∃ e, enumerate_paths 5 dangling_dag = Raise e.
Proof.
  apply (enumerate_paths_missing_key 5 dangling_dag "b").
  - apply (rtc_l _ SOURCE "a" "b"); [|apply rtc_once].
    + split; [done|]. exists ["a"]. split; by_compute.
    + split; [done|]. exists ["b"]. split; by_compute.
  - done.
  - by_compute.
Defined.

(** X7, instance: the cascade with the limits 5 and 7. *)
Lemma enumerate_paths_limit_mono_witness :
  enumerate_paths 7 pipeline_three = Return cascade_paths.
Proof.
  apply (enumerate_paths_limit_mono 5 7 pipeline_three cascade_paths).
  - lia.
  - by_compute.
Defined.

Lemma dead_end_dag_checks :
  map_Forall (λ _ children,
      Forall (λ v, is_Some (adj_list dead_end_dag !! v)) children
      ∧ NoDup children)
    (adj_list dead_end_dag).
Proof. by_compute. Qed.

Lemma dead_end_dag_no_path p : ¬ source_sink_path dead_end_dag p.
Proof.
  assert (adj_list dead_end_dag !! SOURCE = Some ["a"]) as Hsrc by by_compute.
  assert (adj_list dead_end_dag !! "a" = Some []) as Ha by by_compute.
  unfold source_sink_path.
  inversion 1 as [|u v children q _ Hu Hv Hq]; simplify_eq.
  apply list_elem_of_singleton in Hv as ->.
  inversion Hq as [|u v children' q' _ Hu' Hv' Hq']; simplify_eq.
  by apply elem_of_nil in Hv'.
Qed.

(** X8, instance: a stage without children. *)
Lemma enumerate_paths_unreachable_sink_witness :
  enumerate_paths 3 dead_end_dag = Raise AssertionError.
Proof.
  apply (enumerate_paths_unreachable_sink 3 dead_end_dag).
  - apply (ranked_acyclic _ dead_end_rank). by_compute.
  - by_compute.
  - intros u children v Hu Hv.
    destruct (dead_end_dag_checks u children Hu) as [Hkeys _].
    rewrite Forall_forall in Hkeys. by apply Hkeys.
  - intros u children Hu. by destruct (dead_end_dag_checks u children Hu).
  - by_compute.
  - apply dead_end_dag_no_path.
Defined.

(** X9, instance: the cascade of pipeline_three. *)
Lemma nodes_keys_witness :
  ∃ l, nodes pipeline_three = Return l
     ∧ NoDup l
     ∧ (∀ x, x ∈ l ↔
          is_Some (adj_list pipeline_three !! x) ∧ x ≠ SOURCE ∧ x ≠ SINK)
     ∧ ∀ p node, source_sink_path pipeline_three p → node ∈ stages p →
         node ∈ l.
Proof. apply (proj1 (nodes_keys pipeline_three)); by_compute. Defined.

(** X11, instance: from batch size 10 to batch size 20. *)
Lemma increase_batch_size_increases_witness :
  NodeConfig.batch_size (example_config 10 1)
  < NodeConfig.batch_size (example_config 20 1)
  ∧ ∃ e, bundle_row rising_profile (example_config 10 1) e
      ∧ Entry.mean_batch_size e = NodeConfig.batch_size (example_config 20 1)
      ∧ estimate_performance rising_profile (example_config 20 1)
        = mret (Entry.p99_latency e,
                Entry.throughput e
                * Qc_of_Z (NodeConfig.num_replicas (example_config 10 1)),
                Entry.cost e
                * Qc_of_Z (NodeConfig.num_replicas (example_config 10 1))).
Proof.
  apply (increase_batch_size_increases rising_profile
           (example_config 10 1) (example_config 20 1)).
  by_compute.
Defined.

Lemma rising_profile_rows r :
  bundle_row rising_profile (example_config 30 1) r →
  r = example_row 10 100 1 2 ∨ r = example_row 20 200 2 2.
Proof.
  intros [Hin _].
  assert (profile rising_profile
          = [example_row 10 100 1 2; example_row 20 200 2 2]) as Hrows
    by by_compute.
  rewrite Hrows in Hin.
  apply elem_of_cons in Hin as [->|Hin]; [by left|].
  apply list_elem_of_singleton in Hin as ->. by right.
Qed.

(** X12, instance: batch size 30 above the profiled 10 and 20. *)
Lemma estimate_performance_warning_witness :
  ∃ r0, bundle_row rising_profile (example_config 30 1) r0
    ∧ (∀ r, bundle_row rising_profile (example_config 30 1) r →
         Entry.mean_batch_size r ≤ Entry.mean_batch_size r0)
    ∧ estimate_performance rising_profile (example_config 30 1)
      = ([WarningNoHigherBatchSize (example_config 30 1)],
         Return (Entry.p99_latency r0,
                 Entry.throughput r0
                 * Qc_of_Z (NodeConfig.num_replicas (example_config 30 1)),
                 Entry.cost r0
                 * Qc_of_Z (NodeConfig.num_replicas (example_config 30 1)))).
Proof.
  apply (proj1 (estimate_performance_warning rising_profile
                  (example_config 30 1))).
  split.
  - exists (example_row 10 100 1 2). by_compute.
  - intros r [->| ->]%rising_profile_rows; by_compute.
Defined.

(** X13, instance: batch size 15 between the profiled 10 and 20. *)
Lemma estimate_performance_within_profile_witness :
  ∃ r r' rc t,
    bundle_row rising_profile (example_config 15 1) r
    ∧ bundle_row rising_profile (example_config 15 1) r'
    ∧ bundle_row rising_profile (example_config 15 1) rc
    ∧ Entry.p99_latency r ≤ Qc_of_Z 3 / 2 ≤ Entry.p99_latency r'
    ∧ Entry.throughput r ≤ t ≤ Entry.throughput r'
    ∧ Qc_of_Z 150
      = t * Qc_of_Z (NodeConfig.num_replicas (example_config 15 1))
    ∧ 2 = Entry.cost rc
          * Qc_of_Z (NodeConfig.num_replicas (example_config 15 1)).
Proof.
  apply (estimate_performance_within_profile rising_profile
           (example_config 15 1) (Qc_of_Z 3 / 2) (Qc_of_Z 150) 2).
  by_compute.
Defined.

(** With a scale factor of zero for res152 the cascade is still
    estimated: the scaled throughput of res152 is inf and alexnet stays the
    bottleneck. *)
Example estimate_cascade_zero_factor :
  result (estimate_pipeline_performance_for_config 5 pipeline_three
            (<["res152" := 0]> cascade_scale_factors) cascade_configs
            cascade_profiles)
  = Return ({| Estimate.latency := Some (Qc_of_Z 70);
               Estimate.throughput := Some (Finite (Qc_of_Z 50));
               Estimate.cost := Qc_of_Z 17 |}, Some "alexnet").
Proof. by_compute. Qed.

(** X14, instance: the cascade of pipeline_three with a scale factor of
    zero for res152. *)
Lemma estimate_pipeline_returns_iff_witness :
  ∃ paths, enumerate_paths 5 pipeline_three = Return paths
    ∧ ∀ p node, p ∈ paths → node ∈ stages p →
        ∃ prof conf factor est,
          cascade_profiles !! node = Some prof
          ∧ cascade_configs !! node = Some conf
          ∧ <["res152" := 0]> cascade_scale_factors !! node = Some factor
          ∧ result (estimate_performance prof conf) = Return est.
Proof.
  apply (proj1 (estimate_pipeline_returns_iff 5 pipeline_three
                  (<["res152" := 0]> cascade_scale_factors) cascade_configs
                  cascade_profiles)).
  exists ({| Estimate.latency := Some (Qc_of_Z 70);
             Estimate.throughput := Some (Finite (Qc_of_Z 50));
             Estimate.cost := Qc_of_Z 17 |}, Some "alexnet").
  by_compute.
Defined.

(** X15, instance: the cascade with twice the replicas. *)
Lemma estimate_pipeline_replica_scaling_witness :
  result (estimate_pipeline_performance_for_config 5 pipeline_three
            cascade_scale_factors (scale_replicas 2 <$> cascade_configs)
            cascade_profiles)
  = Return ({| Estimate.latency := Some (Qc_of_Z 70);
               Estimate.throughput :=
                 np_scale (Qc_of_Z 2) <$> Some (Finite (Qc_of_Z 50));
               Estimate.cost := Qc_of_Z 2 * Qc_of_Z 17 |}, Some "alexnet").
Proof.
  apply (estimate_pipeline_replica_scaling 5 pipeline_three
           cascade_scale_factors cascade_configs cascade_profiles 2
           {| Estimate.latency := Some (Qc_of_Z 70);
              Estimate.throughput := Some (Finite (Qc_of_Z 50));
              Estimate.cost := Qc_of_Z 17 |} (Some "alexnet")).
  - lia.
  - by_compute.
Defined.

(** X17, instance: an experiment on the cascade. *)
Lemma get_node_scale_factors_reference_witness :
  (get_node_scale_factors cascade_experiment "alexnet").1 = []
  ∧ "alexnet" ∈ Experiment.node_configs cascade_experiment
  ∧ cascade_scale_factors !! "alexnet" = Some 1
  ∧ ∃ trials,
      head (omap id (Experiment.client_metrics cascade_experiment))
      = Some trials
      ∧ recorded cascade_experiment trials "alexnet" ≠ 0
      ∧ ∀ m, cascade_scale_factors !! m
             = if decide (m ∈ Experiment.node_configs cascade_experiment)
               then Some (recorded cascade_experiment trials m
                          / recorded cascade_experiment trials "alexnet")
               else None.
Proof.
  apply (get_node_scale_factors_reference cascade_experiment "alexnet"
           cascade_scale_factors).
  by_compute.
Defined.

(** X18, instance: an experiment without metrics. *)
Lemma get_node_scale_factors_raises_witness :
  (get_node_scale_factors no_metrics_experiment "alexnet").2
  = inl (UnboundLocalError "clipper_metrics").
Proof.
  apply (proj1 (get_node_scale_factors_raises no_metrics_experiment "alexnet")).
  by_compute.
Defined.

(** X19, instance: the cascade with the scale factors of an experiment. *)
Lemma estimate_pipeline_with_scale_factors_witness :
  ∃ paths, enumerate_paths 5 pipeline_three = Return paths
    ∧ ∀ p node, p ∈ paths → node ∈ stages p →
        node ∈ Experiment.node_configs cascade_experiment
        ∧ ∃ prof conf est,
            cascade_profiles !! node = Some prof
            ∧ cascade_configs !! node = Some conf
            ∧ result (estimate_performance prof conf) = Return est.
Proof.
  assert ((get_node_scale_factors cascade_experiment
             (reference_node pipeline_three)).2 = inr cascade_scale_factors)
    as Hfactors by by_compute.
  apply (proj1 (estimate_pipeline_with_scale_factors 5 pipeline_three
                  cascade_experiment cascade_scale_factors cascade_configs
                  cascade_profiles Hfactors)).
  exists ({| Estimate.latency := Some (Qc_of_Z 70);
             Estimate.throughput := Some (Finite (Qc_of_Z 50));
             Estimate.cost := Qc_of_Z 17 |}, Some "alexnet").
  by_compute.
Defined.
